(** * CyberIntel-X real-time synchronisation client

    A shallow embedding of [frontend/src/services/websocket.js]
    (class [WebSocketService]) together with the properties of its
    connection life cycle, outbound queue and inbound dispatcher.

    The service is a singleton object mutated by browser callbacks.  It is
    modelled by explicit state passing: a computation takes the current
    [World] (the fields of [this] plus the browser state the code relies on)
    and returns a result, the next world and the list of effects it
    performed on the outside (console, snackbar, transport, timers,
    subscriber callbacks). *)

From stdpp Require Import gmap strings list pretty.
From Stdlib Require Import ZArith.

#[local] Set Warnings "-register-all".
#[local] Open Scope Z_scope.

(** ** JavaScript values

    Payloads are whatever [JSON.parse] produces.  Numbers are restricted to
    integers (a message that carries another number is outside the model);
    objects are finite maps from property names to values.  A string is the
    sequence of bytes of its UTF-8 encoding. *)

Inductive value :=
| VUndefined
| VNull
| VBool (b : bool)
| VNum (n : Z)
| VStr (s : string)
| VObj (fields : gmap string value)
| VArr (items : list value).

Abbreviation object := (gmap string value).

(** Conversion to string of the values that a template literal [`${v}`]
    prints in full: see [plain] below.  On the other values the code does
    something else, which [template] describes. *)
Fixpoint ToString (v : value) : string :=
  match v with
  | VUndefined => "undefined"
  | VNull => "null"
  | VBool true => "true"
  | VBool false => "false"
  | VNum n => pretty n
  | VStr s => s
  | VObj _ => "[object Object]"
  | VArr l =>
      (fix join (l : list value) : string :=
         match l with
         | [] => EmptyString
         | [x] =>
             match x with
             | VUndefined | VNull => EmptyString
             | _ => ToString x
             end
         | x :: r =>
             (match x with
              | VUndefined | VNull => EmptyString
              | _ => ToString x
              end)
               +:+ "," +:+ join r
         end) l
  end.

(** The values on which the conversion throws [TypeError].  An object made
    by [JSON.parse] that has an own property [toString] has a [toString]
    that cannot be called; the conversion then tries [valueOf], which
    [Object.prototype] provides and which returns the object itself, and
    gives up.  An array converts its elements (the holes, [null] and
    [undefined] excepted, which are never of that kind). *)
Fixpoint unprintable (v : value) : bool :=
  match v with
  | VObj o => bool_decide (is_Some (o !! "toString"))
  | VArr l =>
      (fix any (l : list value) : bool :=
         match l with
         | [] => false
         | x :: r => unprintable x || any r
         end) l
  | _ => false
  end.

(** The integers that a double holds exactly, and that are printed with all
    their digits. *)
Definition safe_integer (n : Z) : bool :=
  bool_decide (-9007199254740991 ≤ n ≤ 9007199254740991).

(** The values whose conversion is [ToString]: every value that is not
    [unprintable] and holds no number beyond the safe integers. *)
Fixpoint plain (v : value) : bool :=
  match v with
  | VNum n => safe_integer n
  | VObj o => negb (bool_decide (is_Some (o !! "toString")))
  | VArr l =>
      (fix all (l : list value) : bool :=
         match l with
         | [] => true
         | x :: r => plain x && all r
         end) l
  | _ => true
  end.

(** Truthiness, as used by [a || b] and by [cond ? x : y]. *)
Definition truthy (v : value) : bool :=
  match v with
  | VUndefined | VNull | VBool false | VNum 0 | VStr EmptyString => false
  | _ => true
  end.

(** [a || b] *)
Definition js_or (a b : value) : value := if truthy a then a else b.

(** [v === 'lit'] for a string literal. *)
Definition is_str (v : value) (lit : string) : bool :=
  match v with
  | VStr s => bool_decide (s = lit)
  | _ => false
  end.

(** [v.k] on a value that is neither [null] nor [undefined]: own properties
    of objects; every other value has none of the names the service reads. *)
Definition prop (v : value) (k : string) : value :=
  match v with
  | VObj o => default VUndefined (o !! k)
  | _ => VUndefined
  end.

(** [{ ...base, ...message }]: the properties of [message] win. *)
Definition spread (base message : object) : object := message ∪ base.

(** The text frame handed to the transport; [JSON.stringify] is kept
    symbolic. *)
Inductive frame := JSON_stringify (v : value).

(** ** Subscribers

    A subscriber callback is application code.  The model records that it
    was called, with which argument, and whether the call throws; a callback
    is taken not to call the service back while it runs.  The module
    [Live] below does without that assumption for the two dispatch loops:
    there a callback may subscribe and unsubscribe while it runs. *)
Record handler := Handler { hid : nat; hthrows : value → bool }.

(** ** Effects on the outside world *)
Inductive effect :=
| ConsoleLog (msg : string)
| ConsoleWarn (msg : string)
| ConsoleError (msg : string)
| Snackbar (msg : value) (variant : string) (autoHideDuration : option Z)
    (action : option value)
(* [enqueueSnackbar] called with the member [member] of [Object.prototype]
   as its variant *)
| SnackbarInherited (msg : value) (member : string)
    (autoHideDuration : option Z) (action : option value)
| NewWebSocket (sock : nat) (url : string)
| SocketSend (sock : nat) (f : frame)
| SocketClose (sock : nat) (code : Z) (reason : string)
| SetTimeout (timer : nat) (delay : Z)
| SetInterval (timer : nat) (period : Z)
| ClearInterval (timer : nat)
| Call (h : nat) (arg : value)
| PlaySound.

(** ** The browser

    What the code obtains from its surroundings.  The number passed to each
    oracle is the count of earlier oracle calls.

    A parsed URL: [href] is what [toString()] gives for the URL as parsed;
    [url_text] is that text up to the query, excluded; [searchParams] are
    the pairs of the query, decoded; [hash] is the fragment with its [#],
    or empty. *)
Record URL := ParsedURL {
  href : string;
  url_text : string;
  searchParams : list (string * string);
  hash : string
}.

Record Env := {
  oracle_uuid : nat → string;
  oracle_time : nat → string;
  (* [JSON.stringify] followed by [socket.send]: does it throw? *)
  oracle_send_throws : nat → frame → bool;
  (* [localStorage.getItem('token')] *)
  oracle_token : nat → option string;
  (* [new URL(url)]; [None] when the constructor throws *)
  oracle_URL : string → option URL;
  (* does [new WebSocket(url)] throw? *)
  oracle_WebSocket_throws : string → bool;
  (* the text of a value that holds a number beyond the safe integers *)
  oracle_ToString : value → string;
  (* the value imported from [../config] *)
  WS_UPDATES_URL : string;
  (* the URL built from [window.location], or the localhost fallback *)
  defaultUrl : string
}.

(** The [application/x-www-form-urlencoded] serialiser of
    [URLSearchParams]: letters, digits and [*-._] stay, a space becomes
    [+], every other byte becomes [%XX]. *)
Definition hex_digit (n : N) : Ascii.ascii :=
  default Ascii.zero (String.get (N.to_nat n) "0123456789ABCDEF").

Definition urlencode_byte (c : Ascii.ascii) : string :=
  let n := Ascii.N_of_ascii c in
  if (n =? 32)%N then "+"
  else if ((48 <=? n) && (n <=? 57) || (65 <=? n) && (n <=? 90)
           || (97 <=? n) && (n <=? 122)
           || (n =? 42) || (n =? 45) || (n =? 46) || (n =? 95))%N
  then String c EmptyString
  else "%" +:+ String (hex_digit (n / 16))
                 (String (hex_digit (n mod 16)) EmptyString).

Fixpoint urlencode (s : string) : string :=
  match s with
  | EmptyString => EmptyString
  | String c r => urlencode_byte c +:+ urlencode r
  end.

(** [searchParams.toString()] *)
Definition URLSearchParams_toString (ps : list (string * string)) : string :=
  String.concat "&" (map (λ kv, urlencode kv.1 +:+ "=" +:+ urlencode kv.2) ps).

(** A URL without fragment whose query, if any, is in serialised form. *)
Definition MkURL (text : string) (ps : list (string * string)) : URL :=
  {| href := match ps with
             | [] => text
             | _ => text +:+ "?" +:+ URLSearchParams_toString ps
             end;
     url_text := text; searchParams := ps; hash := EmptyString |}.

(** [url.toString()] *)
Definition URL_toString (u : URL) : string := href u.

(** [url.searchParams.append(k, v)]: the query of the URL becomes the
    serialisation of the extended list. *)
Definition searchParams_append (u : URL) (k v : string) : URL :=
  {| href := url_text u +:+ "?" +:+
             URLSearchParams_toString (searchParams u ++ [(k, v)]) +:+ hash u;
     url_text := url_text u;
     searchParams := searchParams u ++ [(k, v)];
     hash := hash u |}.

(** ** The service object *)

Inductive promise_state := Pending | Fulfilled | Rejected.

Record WebSocketService := {
  socket : option nat;
  connected : bool;
  reconnectAttempts : nat;
  maxReconnectAttempts : nat;
  reconnectInterval : Z;
  subscribers : gmap string (list handler);
  messageQueue : list object;
  pingInterval : option nat;
  connectionPromise : option nat;
  connectionResolvers : list nat;
  lastUrl : option string
}.

(** [constructor()] *)
Definition constructor : WebSocketService := {|
  socket := None;
  connected := false;
  reconnectAttempts := 0;
  maxReconnectAttempts := 5;
  reconnectInterval := 5000;
  subscribers := ∅;
  messageQueue := [];
  pingInterval := None;
  connectionPromise := None;
  connectionResolvers := [];
  lastUrl := None
|}.

Record World := {
  this : WebSocketService;
  env : Env;
  (* number of oracle calls made so far *)
  tick : nat;
  (* next identifier for a socket, promise or timer *)
  next_id : nat;
  promises : gmap nat promise_state
}.

Definition boot (e : Env) : World :=
  {| this := constructor; env := e; tick := 0; next_id := 0; promises := ∅ |}.

(** Field assignments [this.f = x]. *)
Definition set_socket x (s : WebSocketService) :=
  {| socket := x; connected := connected s;
     reconnectAttempts := reconnectAttempts s;
     maxReconnectAttempts := maxReconnectAttempts s;
     reconnectInterval := reconnectInterval s; subscribers := subscribers s;
     messageQueue := messageQueue s; pingInterval := pingInterval s;
     connectionPromise := connectionPromise s;
     connectionResolvers := connectionResolvers s; lastUrl := lastUrl s |}.

Definition set_connected x (s : WebSocketService) :=
  {| socket := socket s; connected := x;
     reconnectAttempts := reconnectAttempts s;
     maxReconnectAttempts := maxReconnectAttempts s;
     reconnectInterval := reconnectInterval s; subscribers := subscribers s;
     messageQueue := messageQueue s; pingInterval := pingInterval s;
     connectionPromise := connectionPromise s;
     connectionResolvers := connectionResolvers s; lastUrl := lastUrl s |}.

Definition set_reconnectAttempts x (s : WebSocketService) :=
  {| socket := socket s; connected := connected s;
     reconnectAttempts := x;
     maxReconnectAttempts := maxReconnectAttempts s;
     reconnectInterval := reconnectInterval s; subscribers := subscribers s;
     messageQueue := messageQueue s; pingInterval := pingInterval s;
     connectionPromise := connectionPromise s;
     connectionResolvers := connectionResolvers s; lastUrl := lastUrl s |}.

Definition set_subscribers x (s : WebSocketService) :=
  {| socket := socket s; connected := connected s;
     reconnectAttempts := reconnectAttempts s;
     maxReconnectAttempts := maxReconnectAttempts s;
     reconnectInterval := reconnectInterval s; subscribers := x;
     messageQueue := messageQueue s; pingInterval := pingInterval s;
     connectionPromise := connectionPromise s;
     connectionResolvers := connectionResolvers s; lastUrl := lastUrl s |}.

Definition set_messageQueue x (s : WebSocketService) :=
  {| socket := socket s; connected := connected s;
     reconnectAttempts := reconnectAttempts s;
     maxReconnectAttempts := maxReconnectAttempts s;
     reconnectInterval := reconnectInterval s; subscribers := subscribers s;
     messageQueue := x; pingInterval := pingInterval s;
     connectionPromise := connectionPromise s;
     connectionResolvers := connectionResolvers s; lastUrl := lastUrl s |}.

Definition set_pingInterval x (s : WebSocketService) :=
  {| socket := socket s; connected := connected s;
     reconnectAttempts := reconnectAttempts s;
     maxReconnectAttempts := maxReconnectAttempts s;
     reconnectInterval := reconnectInterval s; subscribers := subscribers s;
     messageQueue := messageQueue s; pingInterval := x;
     connectionPromise := connectionPromise s;
     connectionResolvers := connectionResolvers s; lastUrl := lastUrl s |}.

Definition set_connectionPromise x (s : WebSocketService) :=
  {| socket := socket s; connected := connected s;
     reconnectAttempts := reconnectAttempts s;
     maxReconnectAttempts := maxReconnectAttempts s;
     reconnectInterval := reconnectInterval s; subscribers := subscribers s;
     messageQueue := messageQueue s; pingInterval := pingInterval s;
     connectionPromise := x;
     connectionResolvers := connectionResolvers s; lastUrl := lastUrl s |}.

Definition set_connectionResolvers x (s : WebSocketService) :=
  {| socket := socket s; connected := connected s;
     reconnectAttempts := reconnectAttempts s;
     maxReconnectAttempts := maxReconnectAttempts s;
     reconnectInterval := reconnectInterval s; subscribers := subscribers s;
     messageQueue := messageQueue s; pingInterval := pingInterval s;
     connectionPromise := connectionPromise s;
     connectionResolvers := x; lastUrl := lastUrl s |}.

Definition set_lastUrl x (s : WebSocketService) :=
  {| socket := socket s; connected := connected s;
     reconnectAttempts := reconnectAttempts s;
     maxReconnectAttempts := maxReconnectAttempts s;
     reconnectInterval := reconnectInterval s; subscribers := subscribers s;
     messageQueue := messageQueue s; pingInterval := pingInterval s;
     connectionPromise := connectionPromise s;
     connectionResolvers := connectionResolvers s; lastUrl := x |}.

Definition with_this (f : WebSocketService → WebSocketService) (w : World) :=
  {| this := f (this w); env := env w; tick := tick w; next_id := next_id w;
     promises := promises w |}.

Definition with_tick (n : nat) (w : World) :=
  {| this := this w; env := env w; tick := n; next_id := next_id w;
     promises := promises w |}.

Definition with_next_id (n : nat) (w : World) :=
  {| this := this w; env := env w; tick := tick w; next_id := n;
     promises := promises w |}.

Definition with_promises (ps : gmap nat promise_state) (w : World) :=
  {| this := this w; env := env w; tick := tick w; next_id := next_id w;
     promises := ps |}.

(** ** Computations: state, exceptions and an effect log *)

Inductive result (A : Type) :=
| Ok (a : A)
| Throw (e : string)
| OutOfFuel.
Arguments Ok {A} a.
Arguments Throw {A} e.
Arguments OutOfFuel {A}.

Definition M (A : Type) : Type := World → result A * World * list effect.

Definition ret {A} (a : A) : M A := λ w, (Ok a, w, []).

Definition bind {A B} (c : M A) (k : A → M B) : M B := λ w,
  match c w with
  | (Ok a, w1, e1) =>
      match k a w1 with (r, w2, e2) => (r, w2, e1 ++ e2) end
  | (Throw e, w1, e1) => (Throw e, w1, e1)
  | (OutOfFuel, w1, e1) => (OutOfFuel, w1, e1)
  end.

#[global] Instance M_ret : MRet M := @ret.
#[global] Instance M_bind : MBind M := λ A B k c, bind c k.

Definition throw {A} (e : string) : M A := λ w, (Throw e, w, []).

(** [try { c } catch (error) { h error }] *)
Definition try_catch {A} (c : M A) (h : string → M A) : M A := λ w,
  match c w with
  | (Throw e, w1, e1) =>
      match h e w1 with (r, w2, e2) => (r, w2, e1 ++ e2) end
  | other => other
  end.

Definition get_this : M WebSocketService := λ w, (Ok (this w), w, []).
Definition get_env : M Env := λ w, (Ok (env w), w, []).
Definition assign (f : WebSocketService → WebSocketService) : M unit :=
  λ w, (Ok tt, with_this f w, []).
Definition emit (e : effect) : M unit := λ w, (Ok tt, w, [e]).

(** The count of oracle calls, advanced by one. *)
Definition next_tick : M nat := λ w, (Ok (tick w), with_tick (S (tick w)) w, []).
Definition fresh_id : M nat :=
  λ w, (Ok (next_id w), with_next_id (S (next_id w)) w, []).

(** [array.forEach(body)] for a [body] that leaves the array alone: the
    elements present at the call, in order.  [Live.forEach] is the loop
    over an array that the callbacks may change. *)
Fixpoint forEach {A} (l : list A) (body : A → M unit) : M unit :=
  match l with
  | [] => ret tt
  | x :: r => body x ;; forEach r body
  end.

(** Effects of a computation, its result and the world it leaves. *)
Definition effects {A} (c : M A) (w : World) : list effect := (c w).2.
Definition outcome {A} (c : M A) (w : World) : result A := (c w).1.1.
Definition after {A} (c : M A) (w : World) : World := (c w).1.2.

(** ** Browser primitives used by the service *)

Definition console_log (msg : string) : M unit := emit (ConsoleLog msg).
Definition console_warn (msg : string) : M unit := emit (ConsoleWarn msg).
Definition console_error (msg : string) : M unit := emit (ConsoleError msg).

Definition enqueueSnackbar (msg : value) (variant : string)
    (autoHideDuration : option Z) (action : option value) : M unit :=
  emit (Snackbar msg variant autoHideDuration action).

(** [new Promise(...)]: a pending promise. *)
Definition set_promise (p : nat) (st : promise_state) : M unit :=
  λ w, (Ok tt, with_promises (<[p := st]> (promises w)) w, []).

Definition new_Promise : M nat :=
  p ← fresh_id; set_promise p Pending;; mret p.

(** Settling a promise that is already settled does nothing. *)
Definition settle (st : promise_state) (p : nat) : M unit := λ w,
  match promises w !! p with
  | Some Pending => (Ok tt, with_promises (<[p := st]> (promises w)) w, [])
  | _ => (Ok tt, w, [])
  end.

Definition resolve : nat → M unit := settle Fulfilled.
Definition reject : nat → M unit := settle Rejected.

(** [new URL(url)] *)
Definition new_URL (url : string) : M URL :=
  e ← get_env;
  match oracle_URL e url with
  | Some u => mret u
  | None => throw "TypeError"
  end.

(** [new WebSocket(url)] *)
Definition new_WebSocket (url : string) : M nat :=
  e ← get_env;
  if oracle_WebSocket_throws e url then throw "SyntaxError"
  else k ← fresh_id; emit (NewWebSocket k url);; mret k.

(** [sock.send(JSON.stringify(v))]: the frame reaches the transport unless
    serialisation or transmission throws. *)
Definition socket_send (sock : nat) (f : frame) : M unit :=
  e ← get_env;
  n ← next_tick;
  if oracle_send_throws e n f then throw "InvalidStateError"
  else emit (SocketSend sock f).

(** A subscriber callback invoked with one argument. *)
Definition call (h : handler) (arg : value) : M unit :=
  emit (Call (hid h) arg);;
  if hthrows h arg then throw "Error" else mret tt.

(** [uuidv4()] *)
Definition uuidv4 : M string :=
  e ← get_env; n ← next_tick; mret (oracle_uuid e n).

(** [new Date().toISOString()] *)
Definition Date_toISOString : M string :=
  e ← get_env; n ← next_tick; mret (oracle_time e n).

(** [localStorage.getItem('token')] *)
Definition localStorage_getItem_token : M (option string) :=
  e ← get_env; n ← next_tick; mret (oracle_token e n).

Definition setTimeout (delay : Z) : M nat :=
  t ← fresh_id; emit (SetTimeout t delay);; mret t.

Definition setInterval (period : Z) : M nat :=
  t ← fresh_id; emit (SetInterval t period);; mret t.

Definition clearInterval (t : nat) : M unit := emit (ClearInterval t).

(** [v.k] where [v] may be [null] or [undefined]. *)
Definition member (v : value) (k : string) : M value :=
  match v with
  | VUndefined | VNull => throw "TypeError"
  | _ => mret (prop v k)
  end.

(** [`${v}`], and the conversion of [v] to a property key. *)
Definition template (v : value) : M string :=
  if unprintable v then throw "TypeError"
  else if plain v then mret (ToString v)
  else e ← get_env; mret (oracle_ToString e v).

(** The text [template] gives for a value on which it does not throw. *)
Definition printed (e : Env) (v : value) : string :=
  if plain v then ToString v else oracle_ToString e v.

(** ** Methods of [WebSocketService] *)

(** [send(message)] *)
Definition send (message : object) : M bool :=
  s ← get_this;
  if negb (connected s) then
    assign (λ s, set_messageQueue (messageQueue s ++ [message]) s);;
    mret false
  else
    try_catch
      (match socket s with
       | None => throw "TypeError"
       | Some sock =>
           id ← uuidv4;
           timestamp ← Date_toISOString;
           socket_send sock
             (JSON_stringify
                (VObj (spread {[ "id" := VStr id;
                                 "timestamp" := VStr timestamp ]} message)));;
           mret true
       end)
      (λ _, console_error "Error sending WebSocket message:";; mret false).

(** [processMessageQueue()]: the [while] loop, one iteration per unit of
    fuel. *)
Fixpoint processMessageQueue_loop (fuel : nat) : M unit :=
  match fuel with
  | O => λ w, (OutOfFuel, w, [])
  | S fuel' =>
      s ← get_this;
      match messageQueue s with
      | message :: rest =>
          if connected s then
            assign (set_messageQueue rest);;
            send message;;
            processMessageQueue_loop fuel'
          else mret tt
      | [] => mret tt
      end
  end.

Definition processMessageQueue : M unit :=
  s ← get_this; processMessageQueue_loop (S (length (messageQueue s))).

(** [startPingPong()] *)
Definition startPingPong : M unit :=
  s ← get_this;
  match pingInterval s with
  | Some t => clearInterval t
  | None => mret tt
  end;;
  t ← setInterval 30000;
  assign (set_pingInterval (Some t)).

(** The callback given to [setInterval] by [startPingPong]. *)
Definition ping_callback : M unit :=
  s ← get_this;
  if connected s then send {[ "type" := VStr "ping" ]};; mret tt
  else mret tt.

(** [stopPingPong()] *)
Definition stopPingPong : M unit :=
  s ← get_this;
  match pingInterval s with
  | Some t => clearInterval t;; assign (set_pingInterval None)
  | None => mret tt
  end.

(** The backoff delay computed in [handleReconnect]. *)
Definition backoff_delay (attempts : nat) : Z :=
  Z.min (1000 * 2 ^ Z.of_nat attempts) 30000.

Definition reload_notice : string :=
  "Disconnected from real-time updates. Please refresh the page to reconnect.".

(** [handleReconnect()] *)
Definition handleReconnect : M unit :=
  s ← get_this;
  if bool_decide (maxReconnectAttempts s ≤ reconnectAttempts s)%nat then
    console_error "Max reconnection attempts reached";;
    enqueueSnackbar (VStr reload_notice) "error" (Some 10000) None
  else
    assign (λ s, set_reconnectAttempts (S (reconnectAttempts s)) s);;
    s ← get_this;
    let delay := backoff_delay (reconnectAttempts s) in
    console_log ("Attempting to reconnect in " +:+ pretty delay +:+
                 "ms (attempt " +:+ pretty (reconnectAttempts s) +:+ "/" +:+
                 pretty (maxReconnectAttempts s) +:+ ")");;
    setTimeout delay;;
    mret tt.

(** [connect(url)]; the result is the promise returned to the caller. *)
Definition connect (url : string) : M nat :=
  s ← get_this;
  match connectionPromise s with
  | Some p => mret p
  | None =>
      p ← new_Promise;
      try_catch
        (token ← localStorage_getItem_token;
         wsUrl ← new_URL url;
         let wsUrl := match token with
                      | Some t => if bool_decide (t = EmptyString) then wsUrl
                                  else searchParams_append wsUrl "token" t
                      | None => wsUrl
                      end in
         sock ← new_WebSocket (URL_toString wsUrl);
         assign (set_socket (Some sock));;
         assign (set_lastUrl (Some (URL_toString wsUrl))))
        (λ _, console_error "Error creating WebSocket connection:";;
              reject p);;
      assign (set_connectionPromise (Some p));;
      mret p
  end.

(** [a || b] on the URL candidates, which are strings or [null]. *)
Definition url_or (a : option string) (b : string) : string :=
  match a with
  | Some u => if bool_decide (u = EmptyString) then b else u
  | None => b
  end.

(** The callback given to [setTimeout] by [handleReconnect]. *)
Definition reconnect_callback : M unit :=
  s ← get_this;
  if negb (connected s) then
    e ← get_env;
    connect (url_or (lastUrl s) (url_or (Some (WS_UPDATES_URL e)) (defaultUrl e)));;
    mret tt
  else mret tt.

(** [disconnect()] *)
Definition disconnect : M unit :=
  s ← get_this;
  match socket s with
  | Some sock =>
      emit (SocketClose sock 1000 "User initiated disconnect");;
      assign (set_socket None);;
      assign (set_connected false);;
      stopPingPong;;
      assign (set_connectionPromise None)
  | None => mret tt
  end.

(** [playNotificationSound()]: the audio calls sit in a [try] block. *)
Definition playNotificationSound : M unit :=
  try_catch (emit PlaySound)
    (λ _, console_error "Error playing notification sound:").

(** The own properties of the literal [variantMap]. *)
Definition variantMap : gmap string string :=
  {[ "success" := "success"; "info" := "info";
     "warning" := "warning"; "error" := "error" ]}.

(** The names that the literal inherits from [Object.prototype]; each of
    them holds a function or an object, which is truthy. *)
Definition Object_prototype : list string :=
  ["constructor"; "__defineGetter__"; "__defineSetter__"; "hasOwnProperty";
   "__lookupGetter__"; "__lookupSetter__"; "isPrototypeOf";
   "propertyIsEnumerable"; "toString"; "valueOf"; "__proto__";
   "toLocaleString"].

(** [handleNotification(message)] *)
Definition handleNotification (message : value) : M unit :=
  d ← member message "data";
  let d := js_or d (VObj ∅) in
  let level := match prop d "level" with
               | VUndefined => VStr "info"
               | l => l
               end in
  let title := prop d "title" in
  let content := prop d "content" in
  let action := prop d "action" in
  key ← template level;
  let autoHideDuration := Some (if is_str level "error" then 10000 else 5000) in
  let button := if truthy action
                then Some (js_or (prop action "label") (VStr "View"))
                else None in
  try_catch
    (match variantMap !! key with
     | Some variant =>
         enqueueSnackbar (js_or content title) variant autoHideDuration button
     | None =>
         if bool_decide (key ∈ Object_prototype)
         then emit (SnackbarInherited (js_or content title) key
                      autoHideDuration button)
         else enqueueSnackbar (js_or content title) "info"
                autoHideDuration button
     end)
    (λ _, console_error "Failed to show snackbar notification");;
  if is_str level "warning" || is_str level "error"
  then playNotificationSound
  else mret tt.

(** The body of both [callbacks.forEach] loops: one callback in a [try]. *)
Definition notify (label : string) (arg : value) (callback : handler)
    : M unit :=
  try_catch (call callback arg) (λ _, console_error label).

(** [handleSync(message)] *)
Definition handleSync (message : value) : M unit :=
  d ← member message "data";
  let d := js_or d (VObj ∅) in
  let collection := prop d "collection" in
  let operation := prop d "operation" in
  let data := prop d "data" in
  if is_str operation "create" || is_str operation "update"
     || is_str operation "delete"
  then
    s ← get_this;
    key ← template collection;
    let callbacks := default [] (subscribers s !! ("sync:" +:+ key)) in
    forEach callbacks
      (notify ("Error in sync subscriber for " +:+ key +:+ ":")
         (VObj {[ "operation" := operation; "data" := data ]}))
  else
    text ← template operation;
    console_warn ("Unknown sync operation: " +:+ text).

(** [this.subscribers.get(key)]: every key of the registry is a string. *)
Definition subscribers_get (s : WebSocketService) (key : value)
    : option (list handler) :=
  match key with
  | VStr k => subscribers s !! k
  | _ => None
  end.

(** [handleMessage(message)] *)
Definition handleMessage (message : value) : M unit :=
  type ← member message "type";
  if is_str type "pong" then mret tt
  else if is_str type "error" then
    console_error "WebSocket error:";;
    enqueueSnackbar (js_or (prop message "error") (VStr "An error occurred"))
      "error" None None
  else if is_str type "notification" then handleNotification message
  else if is_str type "sync" then handleSync message
  else
    s ← get_this;
    let callbacks := default [] (subscribers_get s type) in
    forEach callbacks
      (notify ("Error in WebSocket subscriber for " +:+ ToString type +:+ ":")
         (prop message "data")).

(** [subscribe(event, callback)], seen by value; the closure it returns is
    modelled in [Registry]. *)
Definition subscribe (event : string) (callback : handler) : M unit :=
  assign (λ s,
    set_subscribers
      (<[event := default [] (subscribers s !! event) ++ [callback]]>
         (subscribers s)) s).

Definition subscribeToThreats := subscribe "threat".
Definition subscribeToAlerts := subscribe "alert".
Definition subscribeToSync (collection : value) (callback : handler)
    : M unit :=
  key ← template collection;
  subscribe ("sync:" +:+ key) callback.

(** [isConnected()] *)
Definition isConnected : M bool := s ← get_this; mret (connected s).

(** [waitForConnection()] *)
Definition waitForConnection : M nat :=
  s ← get_this;
  if connected s then p ← new_Promise; resolve p;; mret p
  else
    p ← new_Promise;
    assign (λ s, set_connectionResolvers (connectionResolvers s ++ [p]) s);;
    mret p.

(** ** The socket callbacks installed by [connect]

    [p] is the promise created by the [connect] call that installed them. *)

Definition onopen (p : nat) : M unit :=
  console_log "WebSocket connected";;
  assign (set_connected true);;
  assign (set_reconnectAttempts 0%nat);;
  startPingPong;;
  processMessageQueue;;
  s ← get_this;
  forEach (connectionResolvers s) resolve;;
  assign (set_connectionResolvers []);;
  resolve p.

(** [data] is [JSON.parse(event.data)], or [None] when parsing throws. *)
Definition onmessage (data : option value) : M unit :=
  try_catch
    (match data with
     | None => throw "SyntaxError"
     | Some message => handleMessage message
     end)
    (λ _, console_error "Error parsing WebSocket message:").

Definition onerror (p : nat) : M unit :=
  console_error "WebSocket error:";;
  reject p.

Definition onclose (code : Z) (reason : string) : M unit :=
  console_log ("WebSocket disconnected: " +:+ pretty code +:+ " " +:+ reason);;
  assign (set_connected false);;
  stopPingPong;;
  if bool_decide (code ≠ 1000) then handleReconnect else mret tt.

(** ** The page

    The listener installed on [document] when the module is loaded;
    [visible] tells whether [document.visibilityState] is ['visible']. *)
Definition visibilitychange (visible : bool) : M unit :=
  if visible then
    c ← isConnected;
    if negb c then e ← get_env; connect (WS_UPDATES_URL e);; mret tt
    else mret tt
  else mret tt.

(** ** Runs

    Everything that can happen to the service: a call of its interface by
    the application, or a callback fired by the browser. *)
Inductive event :=
| EConnect (url : string)
| EDisconnect
| ESend (message : object)
| ESubscribe (key : string) (callback : handler)
| EWaitForConnection
| EOpen (p : nat)
| EMessage (data : option value)
| EError (p : nat)
| EClose (code : Z) (reason : string)
| EReconnectTimer
| EPingTimer
| EVisibilityChange (visible : bool).

Definition handle (ev : event) : M unit :=
  match ev with
  | EConnect url => connect url;; mret tt
  | EDisconnect => disconnect
  | ESend message => send message;; mret tt
  | ESubscribe key callback => subscribe key callback
  | EWaitForConnection => waitForConnection;; mret tt
  | EOpen p => onopen p
  | EMessage data => onmessage data
  | EError p => onerror p
  | EClose code reason => onclose code reason
  | EReconnectTimer => reconnect_callback
  | EPingTimer => ping_callback
  | EVisibilityChange visible => visibilitychange visible
  end.

(** An exception that leaves a callback ends that callback only; the next
    event is processed all the same. *)
Fixpoint run (evs : list event) (w : World) : World * list effect :=
  match evs with
  | [] => (w, [])
  | ev :: rest =>
      match handle ev w with
      | (_, w1, e1) =>
          match run rest w1 with (w2, e2) => (w2, e1 ++ e2) end
      end
  end.

(** Projections of an effect log. *)
Definition timeouts (es : list effect) : list Z :=
  omap (λ e, match e with SetTimeout _ d => Some d | _ => None end) es.

Definition opened (es : list effect) : list string :=
  omap (λ e, match e with NewWebSocket _ u => Some u | _ => None end) es.

Definition transmitted (es : list effect) : list frame :=
  omap (λ e, match e with SocketSend _ f => Some f | _ => None end) es.

Definition calls (es : list effect) : list (nat * value) :=
  omap (λ e, match e with Call h a => Some (h, a) | _ => None end) es.

Definition notices (es : list effect)
    : list (value * string * option Z) :=
  omap (λ e, match e with
             | Snackbar m v d _ => Some (m, v, d)
             | _ => None
             end) es.

(** * Vocabulary of the statements *)

(** ** Runs and their events *)

Definition is_open (ev : event) : bool :=
  match ev with EOpen _ => true | _ => false end.

(** A close with any code but the normal-closure code 1000. *)
Definition is_abnormal_close (ev : event) : bool :=
  match ev with
  | EClose code _ => bool_decide (code ≠ 1000)
  | _ => false
  end.

(** The two callbacks that touch the retry counter. *)
Definition counter_event (ev : event) : bool :=
  match ev with
  | EOpen _ | EClose _ _ => true
  | _ => false
  end.

(** No socket opens during the run. *)
Definition no_open (evs : list event) : Prop :=
  Forall (λ ev, is_open ev = false) evs.

Definition abnormal_closes (evs : list event) : nat :=
  length (filter (λ ev, is_abnormal_close ev = true) evs).

(** ** Relations between the world before and the world after

    [keeps P c]: whatever the world [w] in which [c] runs, [P] relates [w],
    the world [c] leaves and the effects [c] performs. *)
Definition keeps (P : World → World → list effect → Prop) {A} (c : M A)
    : Prop :=
  ∀ w, P w (after c w) (effects c w).

(** The retry counter and its ceiling are as before, and no retry was
    scheduled. *)
Definition counter_kept (w w' : World) (es : list effect) : Prop :=
  reconnectAttempts (this w') = reconnectAttempts (this w) ∧
  maxReconnectAttempts (this w') = maxReconnectAttempts (this w) ∧
  timeouts es = [].

Abbreviation quiet := (keeps counter_kept).

(** The queue, the connection flag, the socket and the browser are as
    before, and nothing was transmitted. *)
Definition link_kept (w w' : World) (es : list effect) : Prop :=
  messageQueue (this w') = messageQueue (this w) ∧
  connected (this w') = connected (this w) ∧
  socket (this w') = socket (this w) ∧
  env w' = env w ∧
  transmitted es = [].

(** ** Parts of [onclose] and [onopen] *)

(** What [onclose] does before it decides about a retry. *)
Definition closing (code : Z) (reason : string) : M unit :=
  console_log ("WebSocket disconnected: " +:+ pretty code +:+ " " +:+ reason);;
  assign (set_connected false);;
  stopPingPong.

(** The world in which [onopen] starts the drain. *)
Definition opened_world (w : World) : World :=
  after startPingPong
    (with_this (set_reconnectAttempts 0%nat) (with_this (set_connected true) w)).

(** The end of [onopen]: the waiting callers are resolved. *)
Definition resolve_waiting (p : nat) : M unit :=
  s ← get_this;
  forEach (connectionResolvers s) resolve;;
  assign (set_connectionResolvers []);;
  resolve p.

(** ** Dispatch *)

(** The four message types that [handleMessage] keeps for itself. *)
Definition reserved : list string := ["pong"; "error"; "notification"; "sync"].

(** What one callback inside its [try] block leaves in the log. *)
Definition notified (label : string) (arg : value) (h : handler)
    : list effect :=
  Call (hid h) arg :: if hthrows h arg then [ConsoleError label] else [].

#[global] Arguments is_str : simpl never.

(** ** Envelopes *)

(** The envelope built by [send]: [{ id, timestamp, ...message }]. *)
Definition envelope (id timestamp : string) (message : object) : frame :=
  JSON_stringify
    (VObj (spread {[ "id" := VStr id; "timestamp" := VStr timestamp ]} message)).

(** The envelope [send] builds in world [w]. *)
Definition envelope_at (w : World) (message : object) : frame :=
  envelope (oracle_uuid (env w) (tick w))
    (oracle_time (env w) (S (tick w))) message.

(** What the drain leaves in the log for one queued message: the frame, or
    the console line written by the [catch] of [send]. *)
Definition sent_or_failed (e : Env) (sock : nat) (message : object)
    (g : list effect) : Prop :=
  (∃ id timestamp, g = [SocketSend sock (envelope id timestamp message)])
  ∨ (g = [ConsoleError "Error sending WebSocket message:"] ∧
     ∃ n f, oracle_send_throws e n f = true).

(** The frame of [message] when the count of oracle calls is [t]: the
    identifier is drawn at [t] and the time at [t + 1] (the transmission is
    then tried at [t + 2]); the properties of the message win over the two
    stamps. *)
Definition stamped (e : Env) (t : nat) (message : object) : frame :=
  JSON_stringify
    (VObj (message ∪ {[ "id" := VStr (oracle_uuid e t);
                        "timestamp" := VStr (oracle_time e (S t)) ]})).

(** The log of a drain that starts at count [t]: one entry per message. *)
Fixpoint drain_log (e : Env) (sock t : nat) (msgs : list object)
    : list effect :=
  match msgs with
  | [] => []
  | message :: rest =>
      (if oracle_send_throws e (S (S t)) (stamped e t message)
       then ConsoleError "Error sending WebSocket message:"
       else SocketSend sock (stamped e t message))
      :: drain_log e sock (S (S (S t))) rest
  end.

(** * Concrete scenarios *)

(** ** A browser

    Identifiers and timestamps are numbered, every URL parses, a token is
    stored, and the transport refuses the frames whose oracle index is
    listed in [refused]. *)
Definition browser_refusing (refused : list nat) : Env := {|
  oracle_uuid := λ n, "uuid-" +:+ pretty n;
  oracle_time := λ n, "2025-01-01T00:00:00." +:+ pretty n +:+ "Z";
  oracle_send_throws := λ n _, bool_decide (n ∈ refused);
  oracle_token := λ _, Some "secret";
  oracle_URL := λ u, Some (MkURL u []);
  oracle_WebSocket_throws := λ _, false;
  oracle_ToString := λ _, "1e+21";
  WS_UPDATES_URL := "ws://localhost:8000/ws/updates";
  defaultUrl := "ws://localhost:8000/ws/updates"
|}.

Definition browser : Env := browser_refusing [].

(** The same browser with another token in its storage. *)
Definition browser_with_token (t : string) : Env := {|
  oracle_uuid := oracle_uuid browser;
  oracle_time := oracle_time browser;
  oracle_send_throws := oracle_send_throws browser;
  oracle_token := λ _, Some t;
  oracle_URL := oracle_URL browser;
  oracle_WebSocket_throws := oracle_WebSocket_throws browser;
  oracle_ToString := oracle_ToString browser;
  WS_UPDATES_URL := WS_UPDATES_URL browser;
  defaultUrl := defaultUrl browser
|}.

Definition updates_url : string := "ws://localhost:8000/ws/updates".

(** ** Drops

    A close with code 1006 carries no reason. *)
Definition no_reason : string := EmptyString.

(** Three abnormal closes, with a stale timer and an unreadable frame in
    between. *)
Definition three_drops : list event :=
  [EClose 1006 no_reason; EReconnectTimer; EClose 1006 no_reason;
   EMessage None; EClose 1011 "server error"].

Definition five_drops : list event :=
  [EClose 1006 no_reason; EClose 1006 no_reason; EClose 1006 no_reason;
   EClose 1006 no_reason; EClose 1006 no_reason].

(** The connection is established, then drops with code 1006. *)
Definition dropped : list event :=
  [EConnect updates_url; EOpen 0; EClose 1006 no_reason].

(** ** Subscribers of [error], [sync:threats], [sync], [threats], [alert] *)

Definition steady (n : nat) : handler := Handler n (λ _, false).
Definition faulty (n : nat) : handler := Handler n (λ _, true).

Definition subscribed : World :=
  (run [ESubscribe "error" (steady 0);
        ESubscribe "sync:threats" (faulty 1);
        ESubscribe "sync:threats" (steady 2);
        ESubscribe "sync" (steady 3);
        ESubscribe "threats" (steady 4);
        ESubscribe "alert" (faulty 5);
        ESubscribe "alert" (steady 6)] (boot browser)).1.

Definition error_message : object :=
  {[ "type" := VStr "error"; "error" := VStr "quota exceeded" ]}.

Definition sync_message (operation : string) : object :=
  {[ "type" := VStr "sync";
     "data" := VObj {[ "collection" := VStr "threats";
                       "operation" := VStr operation;
                       "data" := VObj {[ "id" := VNum 7 ]} ]} ]}.

Definition alert_message : object :=
  {[ "type" := VStr "alert"; "data" := VObj {[ "id" := VNum 3 ]} ]}.

(** ** Queued messages and a transport that may refuse *)

Definition threat (n : Z) : object :=
  {[ "type" := VStr "threat"; "data" := VObj {[ "id" := VNum n ]} ]}.

(** Three messages are queued, then [connect] is called.  The oracle calls
    made by the [onopen] that follows are numbered 1, 2, 3 for the first
    message (identifier, time, transmission), 4, 5, 6 for the second and
    7, 8, 9 for the third. *)
Definition queued (refused : list nat) : World :=
  (run (map ESend [threat 1; threat 2; threat 3] ++ [EConnect updates_url])
     (boot (browser_refusing refused))).1.

(** An open connection with an empty queue.  The oracle calls of the next
    [send] are numbered 1, 2 and 3. *)
Definition online (refused : list nat) : World :=
  (run [EConnect updates_url; EOpen 0] (boot (browser_refusing refused))).1.

(** * More of the connection life cycle *)

(** The address [connect] opens for the parsed URL [u]: the stored token,
    if there is one, is appended as a query parameter. *)
Definition connect_target (w : World) (u : URL) : string :=
  URL_toString
    match oracle_token (env w) (tick w) with
    | Some t => if bool_decide (t = EmptyString) then u
                else searchParams_append u "token" t
    | None => u
    end.

(** A promise is stored although no socket was ever created: the state
    left by a first [connect] that failed. *)
Definition stranded (w : World) : Prop :=
  socket (this w) = None ∧ connectionPromise (this w) ≠ None.

(** Nothing opens, and the socket and the stored promise stay as they
    are. *)
Definition stranded_kept (w w' : World) (es : list effect) : Prop :=
  stranded w →
  socket (this w') = None ∧
  connectionPromise (this w') = connectionPromise (this w) ∧
  opened es = [].

(** A browser in which no URL parses. *)
Definition no_parser : Env := {|
  oracle_uuid := oracle_uuid browser;
  oracle_time := oracle_time browser;
  oracle_send_throws := oracle_send_throws browser;
  oracle_token := oracle_token browser;
  oracle_URL := λ _, None;
  oracle_WebSocket_throws := oracle_WebSocket_throws browser;
  oracle_ToString := oracle_ToString browser;
  WS_UPDATES_URL := "not a url";
  defaultUrl := "not a url"
|}.

(** ** Keepalive timers

    The interval timers that are running after the effects [es], given the
    ones running before: [setInterval] starts one, [clearInterval] stops
    one. *)
Fixpoint active_intervals (es : list effect) (active : list nat) : list nat :=
  match es with
  | [] => active
  | SetInterval t _ :: es' => active_intervals es' (active ++ [t])
  | ClearInterval t :: es' =>
      active_intervals es' (filter (λ x, x ≠ t) active)
  | _ :: es' => active_intervals es' active
  end.

(** The timers running are the one recorded in [pingInterval], if any. *)
Definition interval_kept (w w' : World) (es : list effect) : Prop :=
  active_intervals es (option_list (pingInterval (this w)))
    = option_list (pingInterval (this w')).

(** The queue is as before. *)
Definition queue_kept (w w' : World) (es : list effect) : Prop :=
  messageQueue (this w') = messageQueue (this w).

(** The promises and the list of waiting callers are as before. *)
Definition waiting_kept (w w' : World) (es : list effect) : Prop :=
  promises w' = promises w ∧
  connectionResolvers (this w') = connectionResolvers (this w).

(** ** More of the dispatcher *)

(** The four levels of [variantMap]. *)
Definition levels : list string := ["success"; "info"; "warning"; "error"].

(** Where a call comes from: a handler registered under a key that is not
    one of the reserved message types. *)
Definition from_open_key (w : World) (c : nat * value) : Prop :=
  ∃ key hs, (key ∉ reserved) ∧ subscribers (this w) !! key = Some hs ∧
            c.1 ∈ map hid hs.

(** How many times the notification sound was played. *)
Definition sounds (es : list effect) : nat :=
  length (omap (λ e, match e with PlaySound => Some tt | _ => None end) es).

(** A notification of level [level]. *)
Definition notification_message (level : string) : object :=
  {[ "type" := VStr "notification";
     "data" := VObj {[ "level" := VStr level;
                       "title" := VStr "Scan finished";
                       "content" := VStr "No new threats" ]} ]}.

(** * The subscription registry, with its arrays

    [this.subscribers] is a [Map] from event names to arrays, and the
    closure returned by [subscribe] keeps a reference to the array it pushed
    its callback to.  Here the arrays live in a store and the [Map] holds
    their references, so that a closure can outlive the entry of its array.
    Two callbacks are the same function when they have the same [hid]. *)
Module Registry.

Record t := {
  (* [this.subscribers]: event name to array *)
  entries : gmap string nat;
  (* the arrays ever created, detached ones included *)
  arrays : gmap nat (list handler);
  next_ref : nat
}.

(** [new Map()] *)
Definition empty : t := {| entries := ∅; arrays := ∅; next_ref := 0 |}.

(** What the arrow function returned by [subscribe] has captured. *)
Record closure := {
  c_event : string;
  c_array : nat;
  c_callback : handler
}.

(** [subscribe(event, callback)], with the closure it returns. *)
Definition subscribe (event : string) (callback : handler) (r : t)
    : t * closure :=
  let '(r1, ref) :=
    match entries r !! event with
    | Some ref => (r, ref)
    | None =>
        ({| entries := <[event := next_ref r]> (entries r);
            arrays := <[next_ref r := []]> (arrays r);
            next_ref := S (next_ref r) |}, next_ref r)
    end in
  ({| entries := entries r1;
      arrays := <[ref := default [] (arrays r1 !! ref) ++ [callback]]> (arrays r1);
      next_ref := next_ref r1 |},
   {| c_event := event; c_array := ref; c_callback := callback |}).

(** [subscribers.indexOf(callback)] *)
Fixpoint indexOf (callback : handler) (l : list handler) : option nat :=
  match l with
  | [] => None
  | h :: l' =>
      if bool_decide (hid h = hid callback) then Some 0%nat
      else S <$> indexOf callback l'
  end.

(** The closure returned by [subscribe], invoked. *)
Definition unsubscribe (c : closure) (r : t) : t :=
  let l := default [] (arrays r !! c_array c) in
  let l' := match indexOf (c_callback c) l with
            | Some index => delete index l
            | None => l
            end in
  {| entries := if bool_decide (length l' = 0%nat)
                then delete (c_event c) (entries r)
                else entries r;
     arrays := <[c_array c := l']> (arrays r);
     next_ref := next_ref r |}.

(** The registry as the dispatcher reads it: [this.subscribers.get(key)]. *)
Definition view (r : t) : gmap string (list handler) :=
  omap (λ ref, arrays r !! ref) (entries r).

(** A session: subscriptions, and invocations of the closures obtained so
    far ([Unsubscribe i] invokes the closure returned by the [i]-th
    subscription; one closure may be invoked several times). *)
Inductive op :=
| Subscribe (event : string) (callback : handler)
| Unsubscribe (i : nat).

Fixpoint session (ops : list op) (r : t) (cs : list closure)
    : t * list closure :=
  match ops with
  | [] => (r, cs)
  | Subscribe event callback :: ops' =>
      let '(r', c) := subscribe event callback r in
      session ops' r' (cs ++ [c])
  | Unsubscribe i :: ops' =>
      match cs !! i with
      | Some c => session ops' (unsubscribe c r) cs
      | None => session ops' r cs
      end
  end.

(** Every array belongs to the event it was created for: the entries and
    the closures agree with [owner], entries hold non-empty arrays, and
    references are allocated in order. *)
Definition coherent (owner : gmap nat string) (r : t) (cs : list closure)
    : Prop :=
  (∀ k ref, entries r !! k = Some ref →
     owner !! ref = Some k ∧ ∃ l, arrays r !! ref = Some l ∧ l ≠ []) ∧
  (∀ c, c ∈ cs → owner !! c_array c = Some (c_event c)) ∧
  (∀ ref, is_Some (owner !! ref) → (ref < next_ref r)%nat).

(** The callback is not among the handlers, as [indexOf] sees it. *)
Definition absent (callback : handler) (l : list handler) : Prop :=
  Forall (λ h, hid h ≠ hid callback) l.

(** The registry a session leaves, starting from the empty [Map]. *)
Definition reached (ops : list op) : t := (session ops empty []).1.

End Registry.

(** A session that leaves handlers under [threat] and [alert]. *)
Definition two_keys : list Registry.op :=
  [Registry.Subscribe "threat" (steady 1);
   Registry.Subscribe "alert" (steady 2);
   Registry.Subscribe "threat" (steady 3);
   Registry.Unsubscribe 1;
   Registry.Subscribe "alert" (faulty 4)].

(** ** Dispatch over the live arrays

    [callbacks.forEach(...)] works on the array of the event itself: its
    length is read once, at the start, and at each turn the index is
    looked up in the array as it is then; an index that holds no element
    any more is skipped.  A subscriber may use the service while it runs.
    What it does to the registry is its script: the subscriptions it makes
    and the closures (returned by earlier subscriptions) it invokes, in
    order, before it returns or throws. *)
Module Live.

Inductive act :=
| Invoke (c : Registry.closure)
| Subscribe (event : string) (callback : handler).

Definition run_act (a : act) (r : Registry.t) : Registry.t :=
  match a with
  | Invoke c => Registry.unsubscribe c r
  | Subscribe event callback => (Registry.subscribe event callback r).1
  end.

Definition run_script (acts : list act) (r : Registry.t) : Registry.t :=
  foldl (λ r a, run_act a r) r acts.

(** The turn of index [k]: the callback found there, in its [try] block. *)
Definition turn (script : nat → list act) (label : string) (arg : value)
    (ref k : nat) (r : Registry.t) : Registry.t * list effect :=
  match default [] (Registry.arrays r !! ref) !! k with
  | Some h => (run_script (script (hid h)) r, notified label arg h)
  | None => (r, [])
  end.

(** The turns of the indices [k], [k + 1], ..., [k + n - 1]. *)
Fixpoint turns (script : nat → list act) (label : string) (arg : value)
    (ref k n : nat) (r : Registry.t) : Registry.t * list effect :=
  match n with
  | O => (r, [])
  | S n' =>
      let '(r1, e1) := turn script label arg ref k r in
      let '(r2, e2) := turns script label arg ref (S k) n' r1 in
      (r2, e1 ++ e2)
  end.

(** [array.forEach(callback => { try { callback(arg) } catch ... })] on the
    array [ref]. *)
Definition forEach (script : nat → list act) (label : string) (arg : value)
    (ref : nat) (r : Registry.t) : Registry.t * list effect :=
  turns script label arg ref 0
    (length (default [] (Registry.arrays r !! ref))) r.

(** [const callbacks = this.subscribers.get(key) || []], then the loop. *)
Definition dispatch (script : nat → list act) (label : string) (arg : value)
    (key : string) (r : Registry.t) : Registry.t * list effect :=
  match Registry.entries r !! key with
  | Some ref => forEach script label arg ref r
  | None => (r, [])
  end.

End Live.

(** Two handlers of [alert]: the first one throws, the second does not. *)
Definition first_alert : Registry.t * Registry.closure :=
  Registry.subscribe "alert" (faulty 5) Registry.empty.

Definition two_alerts : Registry.t :=
  (Registry.subscribe "alert" (steady 6) first_alert.1).1.

(** Handler 5 invokes its own unsubscribe closure when it is called. *)
Definition leaves_when_called (h : nat) : list Live.act :=
  if bool_decide (h = 5%nat) then [Live.Invoke first_alert.2] else [].

(** Nobody touches the registry. *)
Definition inert (h : nat) : list Live.act := [].

(** A sync message whose operation is an object with a property
    [toString]. *)
Definition odd_sync_message : object :=
  {[ "type" := VStr "sync";
     "data" := VObj {[ "collection" := VStr "threats";
                       "operation" := VObj {[ "toString" := VStr "upsert" ]};
                       "data" := VObj {[ "id" := VNum 7 ]} ]} ]}.

(** ** Configuration ([config.js])

    The updates URL the service imports.  The three places [getEnv] looks
    at are read from the outside: an entry is [None] when the object is
    absent, falsy or not an object (the [in] test then fails or throws,
    and the [catch] goes on to the next place).  The names looked up are
    environment variable names, none of which [Object.prototype] has.
    [new URL(apiUrl)] is an oracle that gives the protocol and the host,
    or [None] when the constructor throws. *)
Module Config.

Record sources := {
  import_meta_env : option object;
  window_APP_ENV : option object;
  process_env : option object
}.

Record parsed := { protocol : string; host : string }.

(** [name in obj], then [obj[name]]. *)
Definition read (obj : option object) (name : string) : option value :=
  obj ≫= λ o, o !! name.

(** [getEnv(name)] *)
Definition getEnv (src : sources) (name : string) : value :=
  match read (import_meta_env src) name with
  | Some v => v
  | None =>
      match read (window_APP_ENV src) name with
      | Some v => v
      | None =>
          match read (process_env src) name with
          | Some v => v
          | None => VUndefined
          end
      end
  end.

Definition API_BASE_URL (src : sources) : value :=
  js_or (js_or (js_or (getEnv src "VITE_API_BASE_URL")
                      (getEnv src "VITE_API_URL"))
               (getEnv src "REACT_APP_API_URL"))
        (VStr "http://localhost:8000/api").

(** [deriveWsBase(apiUrl)] *)
Definition deriveWsBase (new_URL : string → option parsed) (apiUrl : value)
    : string :=
  match new_URL (ToString apiUrl) with
  | Some u =>
      let scheme :=
        if bool_decide (protocol u = "https:") then "wss://" else "ws://" in
      scheme +:+ host u +:+ "/ws"
  | None => "ws://localhost:8000/ws"
  end.

Definition WS_names : list string :=
  ["VITE_WS_URL"; "VITE_WEBSOCKET_URL"; "REACT_APP_WS_URL";
   "REACT_APP_WEBSOCKET_URL"].

Definition WS_ENV (src : sources) : value :=
  js_or (js_or (js_or (getEnv src "VITE_WS_URL")
                      (getEnv src "VITE_WEBSOCKET_URL"))
               (getEnv src "REACT_APP_WS_URL"))
        (getEnv src "REACT_APP_WEBSOCKET_URL").

Definition WS_BASE_URL (src : sources) (new_URL : string → option parsed)
    : value :=
  js_or (WS_ENV src) (VStr (deriveWsBase new_URL (API_BASE_URL src))).

Definition WS_UPDATES_URL (src : sources) (new_URL : string → option parsed)
    : string :=
  ToString (WS_BASE_URL src new_URL) +:+ "/updates".

End Config.


(** A production build: the API URL comes from Vite, and the page carries
    an empty legacy variable. *)
Definition production : Config.sources :=
  {| Config.import_meta_env :=
       Some {[ "VITE_API_BASE_URL" := VStr "https://soc.example.com/api" ]};
     Config.window_APP_ENV := Some {[ "REACT_APP_WS_URL" := VStr EmptyString ]};
     Config.process_env := None |}.



Definition parse_https (url : string) : option Config.parsed :=
  if bool_decide (url = "https://soc.example.com/api")
  then Some {| Config.protocol := "https:"; Config.host := "soc.example.com" |}
  else if bool_decide (url = "http://localhost:8000/api")
  then Some {| Config.protocol := "http:"; Config.host := "localhost:8000" |}
  else None.

(** ** The provider's [send] (WebSocket context)

    [send(type, data)] of the React provider, which wraps the service's
    [send].  [user] is the provider's current user ([null] when nobody is
    logged in); [data] is an object, or [None] when the caller passes
    nothing. *)
Module Provider.

(** [user?.id] *)
Definition user_id (user : value) : value :=
  match user with
  | VUndefined | VNull => VUndefined
  | _ => prop user "id"
  end.

(** [{ ...data, userId: user?.id, timestamp: ts }] *)
Definition payload (user : value) (ts : string) (data : option object)
    : object :=
  <["timestamp" := VStr ts]>
    (<["userId" := user_id user]> (default ∅ data)).

Definition send (user : value) (type : value) (data : option object)
    : M bool :=
  if negb (truthy type) then
    console_error "Message type is required";;
    mret false
  else
    ts ← Date_toISOString;
    send {[ "type" := type; "data" := VObj (payload user ts data) ]}.

End Provider.

(** * Reasoning principles *)

(** ** Relations kept by every step of a computation

    A relation that holds of doing nothing and composes along sequencing is
    kept by [;;], [try]/[catch] and [forEach], whatever the result (value or
    exception). *)
Section Frame.
Variable P : World → World → list effect → Prop.
Hypothesis P_refl : ∀ w, P w w [].
Hypothesis P_trans : ∀ w1 w2 w3 e1 e2,
  P w1 w2 e1 → P w2 w3 e2 → P w1 w3 (e1 ++ e2).

Lemma keeps_ret {A} (a : A) : keeps P (ret a).
Proof. intros w. apply P_refl. Qed.

Lemma keeps_throw {A} e : keeps P (@throw A e).
Proof. intros w. apply P_refl. Qed.

Lemma keeps_get_this : keeps P get_this.
Proof. intros w. apply P_refl. Qed.

Lemma keeps_get_env : keeps P get_env.
Proof. intros w. apply P_refl. Qed.

Lemma keeps_bind {A B} (c : M A) (k : A → M B) :
  keeps P c → (∀ a, keeps P (k a)) → keeps P (bind c k).
Proof.
  intros Hc Hk w. specialize (Hc w).
  unfold keeps, after, effects, bind in *.
  destruct (c w) as [[[a|e|] w1] e1]; simpl in *; try assumption.
  specialize (Hk a w1).
  destruct (k a w1) as [[r2 w2] e2]; simpl in *.
  eapply P_trans; eassumption.
Qed.

Lemma keeps_try_catch {A} (c : M A) (h : string → M A) :
  keeps P c → (∀ e, keeps P (h e)) → keeps P (try_catch c h).
Proof.
  intros Hc Hh w. specialize (Hc w).
  unfold keeps, after, effects, try_catch in *.
  destruct (c w) as [[[a|e|] w1] e1]; simpl in *; try assumption.
  specialize (Hh e w1).
  destruct (h e w1) as [[r2 w2] e2]; simpl in *.
  eapply P_trans; eassumption.
Qed.

Lemma keeps_forEach {A} (l : list A) (body : A → M unit) :
  (∀ x, keeps P (body x)) → keeps P (forEach l body).
Proof.
  intros Hb. induction l as [|x r IH]; simpl.
  - apply keeps_ret.
  - apply keeps_bind; [apply Hb | intros _; apply IH].
Qed.
End Frame.

(** One step of a proof that a method keeps a relation: follow the
    structure of the method. *)
Ltac keeps_step refl trans :=
  unfold mbind, M_bind, mret, M_ret;
  match goal with
  | |- keeps _ (bind _ _) => apply (keeps_bind _ trans); [| intros ?]
  | |- keeps _ (ret _) => apply (keeps_ret _ refl)
  | |- keeps _ (throw _) => apply (keeps_throw _ refl)
  | |- keeps _ get_this => apply (keeps_get_this _ refl)
  | |- keeps _ get_env => apply (keeps_get_env _ refl)
  | |- keeps _ (try_catch _ _) => apply (keeps_try_catch _ trans); [| intros ?]
  | |- keeps _ (forEach _ _) => apply (keeps_forEach _ refl trans); intros ?
  | |- keeps _ (if ?b then _ else _) => destruct b
  | |- keeps _ (match ?x with _ => _ end) => destruct x
  end.

(** ** The retry counter is touched by [onopen] and [handleReconnect] only *)

Lemma counter_kept_refl w : counter_kept w w [].
Proof. done. Qed.

Lemma counter_kept_trans w1 w2 w3 e1 e2 :
  counter_kept w1 w2 e1 → counter_kept w2 w3 e2 →
  counter_kept w1 w3 (e1 ++ e2).
Proof.
  intros (Ha & Hm & Ht) (Ha' & Hm' & Ht'). repeat split; try congruence.
  unfold timeouts in *. by rewrite omap_app, Ht, Ht'.
Qed.

Create HintDb quiet.

Ltac quiet :=
  repeat first
    [ solve [ auto with quiet ]
    | keeps_step counter_kept_refl counter_kept_trans ].

Lemma quiet_assign f :
  (∀ s, reconnectAttempts (f s) = reconnectAttempts s) →
  (∀ s, maxReconnectAttempts (f s) = maxReconnectAttempts s) →
  quiet (assign f).
Proof. intros Ha Hm w. split; [apply Ha | split; [apply Hm | done]]. Qed.

Lemma quiet_emit e :
  (∀ t d, e ≠ SetTimeout t d) → quiet (emit e).
Proof.
  intros He w. repeat split. destruct e; try done. by destruct (He timer delay).
Qed.

Lemma quiet_next_tick : quiet next_tick.
Proof. by intros w. Qed.

Lemma quiet_fresh_id : quiet fresh_id.
Proof. by intros w. Qed.

Lemma quiet_set_promise p st : quiet (set_promise p st).
Proof. by intros w. Qed.

Lemma quiet_settle st p : quiet (settle st p).
Proof.
  intros w. unfold after, effects, settle.
  destruct (promises w !! p) as [[]|]; done.
Qed.

#[global] Hint Resolve quiet_next_tick quiet_fresh_id quiet_set_promise
  quiet_settle : quiet.
#[global] Hint Extern 1 (keeps counter_kept (assign _)) =>
  (apply quiet_assign; intros ?; reflexivity) : quiet.
#[global] Hint Extern 1 (keeps counter_kept (emit _)) =>
  (apply quiet_emit; intros ? ?; discriminate) : quiet.

Lemma quiet_resolve p : quiet (resolve p).
Proof. apply quiet_settle. Qed.

Lemma quiet_reject p : quiet (reject p).
Proof. apply quiet_settle. Qed.

#[global] Hint Resolve quiet_resolve quiet_reject : quiet.

Lemma quiet_send message : quiet (send message).
Proof.
  unfold send, uuidv4, Date_toISOString, socket_send, console_error. quiet.
Qed.

#[global] Hint Resolve quiet_send : quiet.

Lemma quiet_processMessageQueue_loop fuel :
  quiet (processMessageQueue_loop fuel).
Proof.
  induction fuel as [|fuel IH]; simpl.
  - intros w. apply counter_kept_refl.
  - quiet.
Qed.

Lemma quiet_processMessageQueue : quiet processMessageQueue.
Proof.
  unfold processMessageQueue. quiet. apply quiet_processMessageQueue_loop.
Qed.

Lemma quiet_startPingPong : quiet startPingPong.
Proof. unfold startPingPong, clearInterval, setInterval. quiet. Qed.

Lemma quiet_stopPingPong : quiet stopPingPong.
Proof. unfold stopPingPong, clearInterval. quiet. Qed.

Lemma quiet_connect url : quiet (connect url).
Proof.
  unfold connect, new_Promise, localStorage_getItem_token, new_URL,
    new_WebSocket, console_error.
  quiet.
Qed.

#[global] Hint Resolve quiet_processMessageQueue quiet_startPingPong
  quiet_stopPingPong quiet_connect : quiet.

Lemma quiet_notify label arg callback : quiet (notify label arg callback).
Proof. unfold notify, call, console_error. quiet. Qed.

#[global] Hint Resolve quiet_notify : quiet.

Lemma quiet_member v k : quiet (member v k).
Proof. unfold member. quiet. Qed.

#[global] Hint Resolve quiet_member : quiet.

Lemma quiet_handleSync message : quiet (handleSync message).
Proof. unfold handleSync, template, console_warn. quiet. Qed.

Lemma quiet_handleNotification message : quiet (handleNotification message).
Proof.
  unfold handleNotification, template, playNotificationSound, enqueueSnackbar,
    console_error.
  quiet.
Qed.

#[global] Hint Resolve quiet_handleSync quiet_handleNotification : quiet.

Lemma quiet_handleMessage message : quiet (handleMessage message).
Proof. unfold handleMessage, enqueueSnackbar, console_error. quiet. Qed.

#[global] Hint Resolve quiet_handleMessage : quiet.

Lemma quiet_handle ev : counter_event ev = false → quiet (handle ev).
Proof.
  destruct ev; simpl; try discriminate; intros _;
    unfold disconnect, subscribe, waitForConnection, new_Promise, onmessage,
      onerror, reconnect_callback, ping_callback, visibilitychange,
      isConnected, console_error;
    quiet.
Qed.

(** Unfolding of the sequencing operators and of the primitive steps. *)
Ltac unfold_M :=
  unfold mbind, M_bind, mret, M_ret, bind, ret, throw, try_catch, get_this,
    get_env, assign, emit, next_tick, fresh_id, set_promise,
    console_log, console_warn, console_error, enqueueSnackbar, clearInterval,
    setInterval, setTimeout in *.

(** ** [handleReconnect] and [onclose] *)

Lemma handleReconnect_ceiling w :
  (maxReconnectAttempts (this w) ≤ reconnectAttempts (this w))%nat →
  handleReconnect w =
    (Ok tt, w,
     [ConsoleError "Max reconnection attempts reached";
      Snackbar (VStr reload_notice) "error" (Some 10000) None]).
Proof.
  intros H. unfold handleReconnect, mbind, M_bind, bind, get_this.
  rewrite bool_decide_eq_true_2 by done. reflexivity.
Qed.

Lemma handleReconnect_retry w :
  (reconnectAttempts (this w) < maxReconnectAttempts (this w))%nat →
  ∃ msg,
    handleReconnect w =
      (Ok tt,
       with_next_id (S (next_id w))
         (with_this (set_reconnectAttempts (S (reconnectAttempts (this w)))) w),
       [ConsoleLog msg;
        SetTimeout (next_id w)
          (backoff_delay (S (reconnectAttempts (this w))))]).
Proof.
  intros H. unfold handleReconnect, mbind, M_bind, bind, get_this.
  rewrite bool_decide_eq_false_2 by lia. eexists. reflexivity.
Qed.

Lemma quiet_closing code reason : quiet (closing code reason).
Proof. unfold closing, console_log. quiet. Qed.

Lemma closing_ok code reason w : outcome (closing code reason) w = Ok tt.
Proof.
  unfold outcome, closing, stopPingPong. unfold_M. simpl.
  destruct (pingInterval (this w)); reflexivity.
Qed.

Lemma closing_connected code reason w :
  connected (this (after (closing code reason) w)) = false.
Proof.
  unfold after, closing, stopPingPong. unfold_M. simpl.
  destruct (pingInterval (this w)); reflexivity.
Qed.

Lemma bind_assoc {A B C} (c : M A) (k : A → M B) (k' : B → M C) w :
  bind (bind c k) k' w = bind c (λ a, bind (k a) k') w.
Proof.
  unfold bind. destruct (c w) as [[[a|e|] w1] e1]; try reflexivity.
  destruct (k a w1) as [[[b|e|] w2] e2]; try reflexivity.
  destruct (k' b w2) as [[r w3] e3]. by rewrite app_assoc.
Qed.

Lemma bind_ret_l {A B} (a : A) (k : A → M B) w : bind (ret a) k w = k a w.
Proof. unfold bind, ret. by destruct (k a w) as [[r w1] e1]. Qed.

Lemma bind_get_this {B} (k : WebSocketService → M B) w :
  bind get_this k w = k (this w) w.
Proof. unfold bind, get_this. by destruct (k (this w) w) as [[r w1] e1]. Qed.

Lemma onclose_closing code reason w :
  onclose code reason w =
    bind (closing code reason)
      (λ _, if bool_decide (code ≠ 1000) then handleReconnect else ret tt) w.
Proof.
  unfold onclose, closing. unfold_M. simpl.
  destruct (stopPingPong _) as [[[[]|e|] w1] e1]; try reflexivity.
  by destruct (if bool_decide (code ≠ 1000) then _ else _) as [[r w2] e2].
Qed.

(** A close with an abnormal code: [closing], then [handleReconnect]. *)
Lemma onclose_abnormal code reason w :
  code ≠ 1000 →
  onclose code reason w =
    (outcome handleReconnect (after (closing code reason) w),
     after handleReconnect (after (closing code reason) w),
     effects (closing code reason) w ++
     effects handleReconnect (after (closing code reason) w)).
Proof.
  intros Hc. rewrite onclose_closing. unfold bind.
  pose proof (closing_ok code reason w) as Hok.
  unfold outcome, after, effects in *.
  destruct (closing code reason w) as [[r w1] e1]; simpl in *. subst r.
  rewrite bool_decide_eq_true_2 by done.
  by destruct (handleReconnect w1) as [[r2 w2] e2].
Qed.

(** A close with the normal code 1000 schedules nothing. *)
Lemma onclose_normal reason : quiet (onclose 1000 reason).
Proof.
  intros w. unfold after, effects. rewrite onclose_closing.
  apply (keeps_bind _ counter_kept_trans); [apply quiet_closing|].
  intros _. rewrite bool_decide_eq_false_2 by (intros H; by apply H).
  apply (keeps_ret _ counter_kept_refl).
Qed.

(** Below the ceiling an abnormal close counts one more attempt and
    schedules exactly one retry, after the backoff delay. *)
Lemma onclose_retry code reason w :
  code ≠ 1000 →
  (reconnectAttempts (this w) < maxReconnectAttempts (this w))%nat →
  outcome (onclose code reason) w = Ok tt ∧
  reconnectAttempts (this (after (onclose code reason) w))
    = S (reconnectAttempts (this w)) ∧
  maxReconnectAttempts (this (after (onclose code reason) w))
    = maxReconnectAttempts (this w) ∧
  connected (this (after (onclose code reason) w)) = false ∧
  timeouts (effects (onclose code reason) w)
    = [backoff_delay (S (reconnectAttempts (this w)))].
Proof.
  intros Hc Hlt. unfold outcome, after, effects.
  rewrite onclose_abnormal by done.
  destruct (quiet_closing code reason w) as (Ha & Hm & Ht).
  pose proof (closing_connected code reason w) as Hconn.
  set (w1 := after (closing code reason) w) in *.
  destruct (handleReconnect_retry w1) as [msg Hr]; [lia|].
  unfold outcome, after, effects. rewrite Hr. simpl.
  unfold timeouts, effects in *. rewrite omap_app, Ht. simpl.
  by rewrite Ha, Hm.
Qed.

(** At the ceiling an abnormal close schedules nothing, changes nothing
    but [connected] and the keepalive timer, and shows the reload notice. *)
Lemma onclose_ceiling code reason w :
  code ≠ 1000 →
  (maxReconnectAttempts (this w) ≤ reconnectAttempts (this w))%nat →
  outcome (onclose code reason) w = Ok tt ∧
  reconnectAttempts (this (after (onclose code reason) w))
    = reconnectAttempts (this w) ∧
  maxReconnectAttempts (this (after (onclose code reason) w))
    = maxReconnectAttempts (this w) ∧
  connected (this (after (onclose code reason) w)) = false ∧
  timeouts (effects (onclose code reason) w) = [] ∧
  notices (effects (onclose code reason) w)
    = [(VStr reload_notice, "error", Some 10000)].
Proof.
  intros Hc Hle. unfold outcome, after, effects.
  rewrite onclose_abnormal by done.
  destruct (quiet_closing code reason w) as (Ha & Hm & Ht).
  pose proof (closing_connected code reason w) as Hconn.
  set (w1 := after (closing code reason) w) in *.
  unfold outcome, after, effects.
  rewrite (handleReconnect_ceiling w1) by lia. simpl.
  unfold timeouts, notices, effects in *. rewrite !omap_app, Ht. simpl.
  repeat split; try done.
  unfold closing, stopPingPong. unfold_M. simpl.
  destruct (pingInterval (this w)); reflexivity.
Qed.

(** ** Retries scheduled along a run *)

Lemma run_cons ev evs w :
  run (ev :: evs) w =
    ((run evs (after (handle ev) w)).1,
     effects (handle ev) w ++ (run evs (after (handle ev) w)).2).
Proof.
  simpl. unfold after, effects.
  destruct (handle ev w) as [[r w1] e1]; simpl.
  by destruct (run evs w1).
Qed.

Lemma run_app evs1 evs2 w :
  run (evs1 ++ evs2) w =
    ((run evs2 (run evs1 w).1).1, (run evs1 w).2 ++ (run evs2 (run evs1 w).1).2).
Proof.
  revert w. induction evs1 as [|ev evs1 IH]; intros w.
  - simpl. by destruct (run evs2 w).
  - rewrite <- app_comm_cons, !run_cons, IH. simpl. by rewrite app_assoc.
Qed.

(** Starting with [a] attempts counted, a run without an opening schedules
    one retry per abnormal close until the counter reaches the ceiling, with
    delays [backoff_delay (a+1)], [backoff_delay (a+2)], ... *)
Lemma run_retries evs : ∀ w,
  no_open evs →
  timeouts (run evs w).2 =
    map backoff_delay
      (seq (S (reconnectAttempts (this w)))
         (abnormal_closes evs
            `min` (maxReconnectAttempts (this w) - reconnectAttempts (this w)))) ∧
  reconnectAttempts (this (run evs w).1) =
    (reconnectAttempts (this w) +
     abnormal_closes evs
       `min` (maxReconnectAttempts (this w) - reconnectAttempts (this w)))%nat ∧
  maxReconnectAttempts (this (run evs w).1) = maxReconnectAttempts (this w).
Proof.
  induction evs as [|ev evs IH]; intros w Hno.
  - simpl. rewrite Nat.add_0_r. done.
  - apply Forall_cons in Hno as [Hev Hno].
    rewrite run_cons. simpl.
    specialize (IH (after (handle ev) w) Hno) as (IHt & IHa & IHm).
    unfold timeouts in *. rewrite omap_app, IHt, IHa, IHm. clear IHt IHa IHm.
    unfold abnormal_closes. rewrite filter_cons.
    destruct (is_abnormal_close ev) eqn:Hab.
    + destruct ev; try discriminate. simpl in Hab.
      apply bool_decide_eq_true in Hab.
      rewrite decide_True by done. simpl length.
      destruct (decide (reconnectAttempts (this w)
                          < maxReconnectAttempts (this w))%nat) as [Hlt|Hge].
      * destruct (onclose_retry code reason w Hab Hlt)
          as (_ & Ha & Hm & _ & Ht).
        simpl handle. unfold timeouts in Ht. rewrite Ht, Ha, Hm.
        replace (S (length (filter (λ ev, is_abnormal_close ev = true) evs))
                   `min` (maxReconnectAttempts (this w)
                          - reconnectAttempts (this w)))%nat
          with (S (length (filter (λ ev, is_abnormal_close ev = true) evs)
                     `min` (maxReconnectAttempts (this w)
                            - S (reconnectAttempts (this w)))))%nat by lia.
        simpl. repeat split; try done.
      * destruct (onclose_ceiling code reason w Hab ltac:(lia))
          as (_ & Ha & Hm & _ & Ht & _).
        simpl handle. unfold timeouts in Ht. rewrite Ht, Ha, Hm.
        replace (maxReconnectAttempts (this w) - reconnectAttempts (this w))%nat
          with 0%nat by lia.
        rewrite !Nat.min_0_r. simpl. repeat split; try done.
    + rewrite decide_False by done.
      assert (counter_kept w (after (handle ev) w) (effects (handle ev) w))
        as (Ha & Hm & Ht).
      { destruct (counter_event ev) eqn:Hce.
        - destruct ev; try discriminate. simpl in Hab.
          apply bool_decide_eq_false in Hab.
          assert (code = 1000) as -> by (destruct (decide (code = 1000)); tauto).
          apply onclose_normal.
        - by apply quiet_handle. }
      unfold timeouts in Ht. rewrite Ht, Ha, Hm. done.
Qed.

(** ** Sequencing, seen through [outcome], [after] and [effects] *)

Lemma after_bind {A B} (c : M A) (k : A → M B) w :
  after (bind c k) w =
    match outcome c w with
    | Ok a => after (k a) (after c w)
    | _ => after c w
    end.
Proof.
  unfold after, outcome, bind.
  destruct (c w) as [[[a|e|] w1] e1]; simpl; try done.
  by destruct (k a w1) as [[r w2] e2].
Qed.

Lemma effects_bind {A B} (c : M A) (k : A → M B) w :
  effects (bind c k) w =
    match outcome c w with
    | Ok a => effects c w ++ effects (k a) (after c w)
    | _ => effects c w
    end.
Proof.
  unfold effects, after, outcome, bind.
  destruct (c w) as [[[a|e|] w1] e1]; simpl; try done.
  by destruct (k a w1) as [[r w2] e2].
Qed.

Lemma outcome_bind {A B} (c : M A) (k : A → M B) w :
  outcome (bind c k) w =
    match outcome c w with
    | Ok a => outcome (k a) (after c w)
    | Throw e => Throw e
    | OutOfFuel => OutOfFuel
    end.
Proof.
  unfold after, outcome, bind.
  destruct (c w) as [[[a|e|] w1] e1]; simpl; try done.
  by destruct (k a w1) as [[r w2] e2].
Qed.

Lemma run_M {A} (c : M A) w : c w = (outcome c w, after c w, effects c w).
Proof. unfold outcome, after, effects. by destruct (c w) as [[r w1] e1]. Qed.

(** The primitive steps. *)
Lemma outcome_ret {A} (a : A) w : outcome (ret a) w = Ok a.
Proof. reflexivity. Qed.
Lemma after_ret {A} (a : A) w : after (ret a) w = w.
Proof. reflexivity. Qed.
Lemma effects_ret {A} (a : A) w : effects (ret a) w = [].
Proof. reflexivity. Qed.

Lemma outcome_emit e w : outcome (emit e) w = Ok tt.
Proof. reflexivity. Qed.
Lemma after_emit e w : after (emit e) w = w.
Proof. reflexivity. Qed.
Lemma effects_emit e w : effects (emit e) w = [e].
Proof. reflexivity. Qed.

Lemma outcome_assign f w : outcome (assign f) w = Ok tt.
Proof. reflexivity. Qed.
Lemma after_assign f w : after (assign f) w = with_this f w.
Proof. reflexivity. Qed.
Lemma effects_assign f w : effects (assign f) w = [].
Proof. reflexivity. Qed.

Lemma outcome_get_this w : outcome get_this w = Ok (this w).
Proof. reflexivity. Qed.
Lemma after_get_this w : after get_this w = w.
Proof. reflexivity. Qed.
Lemma effects_get_this w : effects get_this w = [].
Proof. reflexivity. Qed.

Create Rewrite HintDb prim.

#[global] Hint Rewrite @outcome_ret @after_ret @effects_ret outcome_emit
  after_emit effects_emit outcome_assign after_assign effects_assign
  outcome_get_this after_get_this effects_get_this : prim.

(** One step of straight-line code: split the sequence and run its head. *)
Ltac seq_step :=
  first [ rewrite after_bind | rewrite effects_bind | rewrite outcome_bind ];
  autorewrite with prim; cbv iota.

(** ** A successful open resets the retry counter *)

Lemma onopen_resets p w :
  reconnectAttempts (this (after (onopen p) w)) = 0%nat ∧
  maxReconnectAttempts (this (after (onopen p) w))
    = maxReconnectAttempts (this w).
Proof.
  unfold onopen, mbind, M_bind, console_log.
  do 3 seq_step.
  match goal with
  | |- reconnectAttempts (this (after ?c ?w0)) = _ ∧ _ =>
      assert (quiet c) as Hq by quiet;
      destruct (Hq w0) as (Ha & Hm & _)
  end.
  rewrite Ha, Hm. done.
Qed.

(** * Properties of the connection life cycle *)

(** C9 (backoff growth).  Count attempts from zero and let no socket open.
    Whatever else happens in between, the k-th abnormal close schedules the
    k-th retry after min(1000 * 2^k, 30000) milliseconds, for every k up to
    the number N of abnormal closes, N at most [maxReconnectAttempts]; and
    the next successful open resets [reconnectAttempts] to 0. *)
Theorem backoff_growth (w : World) (evs : list event) (N p : nat) :
  reconnectAttempts (this w) = 0%nat →
  no_open evs →
  abnormal_closes evs = N →
  (1 ≤ N ≤ maxReconnectAttempts (this w))%nat →
  (∀ k : nat, (1 ≤ k ≤ N)%nat →
     timeouts (run evs w).2 !! (k - 1)%nat
       = Some (Z.min (1000 * 2 ^ Z.of_nat k) 30000)) ∧
  length (timeouts (run evs w).2) = N ∧
  reconnectAttempts (this (run evs w).1) = N ∧
  reconnectAttempts (this (after (onopen p) (run evs w).1)) = 0%nat.
Proof.
  intros H0 Hno HN Hle.
  destruct (run_retries evs w Hno) as (Ht & Ha & _).
  rewrite H0, HN, Nat.sub_0_r in Ht, Ha.
  replace (N `min` maxReconnectAttempts (this w))%nat with N in Ht, Ha by lia.
  repeat split.
  - intros k Hk. rewrite Ht, list_lookup_fmap, lookup_seq_lt by lia.
    replace (1 + (k - 1))%nat with k by lia. reflexivity.
  - by rewrite Ht, length_map, length_seq.
  - by rewrite Ha.
  - apply onopen_resets.
Qed.

Lemma backoff_growth_witness :
  (∀ k : nat, (1 ≤ k ≤ 3)%nat →
     timeouts (run three_drops (boot browser)).2 !! (k - 1)%nat
       = Some (Z.min (1000 * 2 ^ Z.of_nat k) 30000)) ∧
  length (timeouts (run three_drops (boot browser)).2) = 3%nat ∧
  reconnectAttempts (this (run three_drops (boot browser)).1) = 3%nat ∧
  reconnectAttempts
    (this (after (onopen 0) (run three_drops (boot browser)).1)) = 0%nat.
Proof.
  apply (backoff_growth (boot browser) three_drops 3 0).
  - reflexivity.
  - repeat constructor.
  - reflexivity.
  - simpl. lia.
Defined.

(** At the ceiling [onclose] is [closing] followed by the two lines of
    [handleReconnect]; the service is left as [closing] leaves it. *)
Lemma onclose_at_ceiling code reason w :
  code ≠ 1000 →
  (maxReconnectAttempts (this w) ≤ reconnectAttempts (this w))%nat →
  after (onclose code reason) w = after (closing code reason) w ∧
  effects (onclose code reason) w =
    effects (closing code reason) w ++
    [ConsoleError "Max reconnection attempts reached";
     Snackbar
       (VStr "Disconnected from real-time updates. Please refresh the page to reconnect.")
       "error" (Some 10000) None].
Proof.
  intros Hc Hle. unfold after at 1, effects at 1.
  rewrite onclose_abnormal by done.
  destruct (quiet_closing code reason w) as (Ha & Hm & _).
  unfold outcome, after, effects.
  rewrite (handleReconnect_ceiling (closing code reason w).1.2)
    by (unfold after in Ha, Hm; lia).
  done.
Qed.

(** C6, as stated, fails: five abnormal closes have scheduled the five
    retries, and a sixth finds the counter at the ceiling.  The
    notification it shows hides itself after 10 s, and the service records
    nothing: the sixth close leaves it exactly as the fifth did, not
    connected and with the counter at the ceiling, so no state tells
    that the service has given up from the state in which the last retry
    is still pending. *)
Lemma ceiling_leaves_no_trace :
  timeouts (run five_drops (boot browser)).2
    = [2000; 4000; 8000; 16000; 30000] ∧
  notices (effects (onclose 1006 no_reason) (run five_drops (boot browser)).1)
    = [(VStr "Disconnected from real-time updates. Please refresh the page to reconnect.",
        "error", Some 10000)] ∧
  this (after (onclose 1006 no_reason) (run five_drops (boot browser)).1)
    = this (run five_drops (boot browser)).1.
Proof. vm_compute. done. Qed.

(** C6, amended.  Count attempts from zero and let no socket open.  Once
    [maxReconnectAttempts] retries have been scheduled, the abnormal close
    that reports the failure of the last one schedules nothing; it writes
    [Max reconnection attempts reached] on the console and shows one error
    notification, which asks for a reload of the page and hides itself
    after 10 s.  The service gets no state of its own for this: the close
    leaves it as every close does, not connected, with its counter at the
    ceiling where it already was while the last retry was pending.  From
    there no later event schedules a retry as long as no socket opens. *)
Theorem reconnect_ceiling (w : World) (evs : list event) (code : Z)
    (reason : string) :
  reconnectAttempts (this w) = 0%nat →
  no_open evs →
  (maxReconnectAttempts (this w) ≤ abnormal_closes evs)%nat →
  code ≠ 1000 →
  length (timeouts (run evs w).2) = maxReconnectAttempts (this w) ∧
  reconnectAttempts (this (run evs w).1) = maxReconnectAttempts (this w) ∧
  outcome (onclose code reason) (run evs w).1 = Ok tt ∧
  effects (onclose code reason) (run evs w).1 =
    effects (closing code reason) (run evs w).1 ++
    [ConsoleError "Max reconnection attempts reached";
     Snackbar
       (VStr "Disconnected from real-time updates. Please refresh the page to reconnect.")
       "error" (Some 10000) None] ∧
  timeouts (effects (onclose code reason) (run evs w).1) = [] ∧
  notices (effects (onclose code reason) (run evs w).1)
    = [(VStr "Disconnected from real-time updates. Please refresh the page to reconnect.",
        "error", Some 10000)] ∧
  after (onclose code reason) (run evs w).1
    = after (closing code reason) (run evs w).1 ∧
  connected (this (after (onclose code reason) (run evs w).1)) = false ∧
  reconnectAttempts (this (after (onclose code reason) (run evs w).1))
    = maxReconnectAttempts (this w) ∧
  maxReconnectAttempts (this (after (onclose code reason) (run evs w).1))
    = maxReconnectAttempts (this w) ∧
  ∀ evs', no_open evs' →
    timeouts (run evs' (after (onclose code reason) (run evs w).1)).2 = [].
Proof.
  intros H0 Hno Hle Hc.
  destruct (run_retries evs w Hno) as (Ht & Ha & Hm).
  rewrite H0, Nat.sub_0_r in Ht, Ha.
  replace (abnormal_closes evs `min` maxReconnectAttempts (this w))%nat
    with (maxReconnectAttempts (this w)) in Ht, Ha by lia.
  simpl in Ha.
  destruct (onclose_ceiling code reason (run evs w).1 Hc)
    as (Hok & Ha' & Hm' & Hconn & Ht' & Hn'); [lia|].
  destruct (onclose_at_ceiling code reason (run evs w).1 Hc)
    as (Hafter & Heff); [lia|].
  split; [by rewrite Ht, length_map, length_seq|].
  repeat (split; [first [done | congruence]|]).
  intros evs' Hno'.
  destruct (run_retries evs'
              (after (onclose code reason) (run evs w).1) Hno') as (Ht'' & _).
  rewrite Ht'', Ha', Hm', Ha, Hm, Nat.sub_diag, Nat.min_0_r. done.
Qed.

Lemma reconnect_ceiling_witness :
  length (timeouts (run five_drops (boot browser)).2) = 5%nat ∧
  reconnectAttempts (this (run five_drops (boot browser)).1) = 5%nat ∧
  outcome (onclose 1006 no_reason) (run five_drops (boot browser)).1
    = Ok tt ∧
  effects (onclose 1006 no_reason) (run five_drops (boot browser)).1 =
    effects (closing 1006 no_reason) (run five_drops (boot browser)).1 ++
    [ConsoleError "Max reconnection attempts reached";
     Snackbar
       (VStr "Disconnected from real-time updates. Please refresh the page to reconnect.")
       "error" (Some 10000) None] ∧
  timeouts
    (effects (onclose 1006 no_reason) (run five_drops (boot browser)).1)
    = [] ∧
  notices
    (effects (onclose 1006 no_reason) (run five_drops (boot browser)).1)
    = [(VStr "Disconnected from real-time updates. Please refresh the page to reconnect.",
        "error", Some 10000)] ∧
  after (onclose 1006 no_reason) (run five_drops (boot browser)).1
    = after (closing 1006 no_reason) (run five_drops (boot browser)).1 ∧
  connected
    (this (after (onclose 1006 no_reason) (run five_drops (boot browser)).1))
    = false ∧
  reconnectAttempts
    (this (after (onclose 1006 no_reason) (run five_drops (boot browser)).1))
    = 5%nat ∧
  maxReconnectAttempts
    (this (after (onclose 1006 no_reason) (run five_drops (boot browser)).1))
    = 5%nat ∧
  ∀ evs', no_open evs' →
    timeouts
      (run evs'
         (after (onclose 1006 no_reason)
            (run five_drops (boot browser)).1)).2 = [].
Proof.
  apply (reconnect_ceiling (boot browser) five_drops 1006 no_reason).
  - reflexivity.
  - repeat constructor.
  - vm_compute. lia.
  - discriminate.
Defined.

(** * Properties of the inbound dispatcher *)

Lemma notify_notified label arg h w :
  notify label arg h w = (Ok tt, w, notified label arg h).
Proof.
  unfold notify, call, notified. unfold_M. simpl.
  by destruct (hthrows h arg).
Qed.

(** Both [forEach] loops run to the end: every callback is called once, in
    order, and an exception costs one line on the console. *)
Lemma forEach_notify label arg hs w :
  forEach hs (notify label arg) w
    = (Ok tt, w, concat (map (notified label arg) hs)).
Proof.
  induction hs as [|h hs IH]; [reflexivity|].
  simpl forEach. unfold mbind, M_bind, bind.
  by rewrite notify_notified, IH.
Qed.

Lemma calls_notified label arg hs :
  calls (concat (map (notified label arg) hs)) = map (λ h, (hid h, arg)) hs.
Proof.
  induction hs as [|h hs IH]; [reflexivity|].
  simpl. unfold calls in *. rewrite omap_app, IH. unfold notified.
  by destruct (hthrows h arg).
Qed.

Lemma is_str_false v lit : v ≠ VStr lit → is_str v lit = false.
Proof.
  intros H. destruct v; try reflexivity. unfold is_str.
  apply bool_decide_eq_false_2. congruence.
Qed.

Lemma is_str_true lit : is_str (VStr lit) lit = true.
Proof. unfold is_str. by apply bool_decide_eq_true_2. Qed.

(** A message of an application-defined type goes to the subscribers of
    that type. *)
Lemma handleMessage_app o t w :
  o !! "type" = Some (VStr t) →
  t ∉ reserved →
  handleMessage (VObj o) w =
    (Ok tt, w,
     concat (map (notified ("Error in WebSocket subscriber for " +:+ t +:+ ":")
                    (prop (VObj o) "data"))
               (default [] (subscribers (this w) !! t)))).
Proof.
  intros Ht Hres. unfold handleMessage, member, prop. rewrite Ht. simpl.
  unfold reserved in Hres.
  rewrite !not_elem_of_cons in Hres. destruct Hres as (H1 & H2 & H3 & H4 & _).
  unfold_M. simpl.
  rewrite !is_str_false by congruence.
  rewrite forEach_notify. reflexivity.
Qed.

Lemma template_run v w :
  template v w =
    if unprintable v then (Throw "TypeError", w, [])
    else (Ok (printed (env w) v), w, []).
Proof.
  unfold template, printed. destruct (unprintable v); [done|].
  by destruct (plain v).
Qed.

Lemma printed_plain e v : plain v = true → printed e v = ToString v.
Proof. unfold printed. by intros ->. Qed.

(** Induction on values, through the items of arrays. *)
Lemma value_array_ind (P : value → Prop) :
  P VUndefined → P VNull → (∀ b, P (VBool b)) → (∀ n, P (VNum n)) →
  (∀ s, P (VStr s)) → (∀ o, P (VObj o)) →
  (∀ l, Forall P l → P (VArr l)) → ∀ v, P v.
Proof.
  intros H1 H2 H3 H4 H5 H6 H7.
  fix F 1. intros [| |b|n|s|o|l].
  - exact H1.
  - exact H2.
  - exact (H3 b).
  - exact (H4 n).
  - exact (H5 s).
  - exact (H6 o).
  - apply H7. induction l as [|x r IH]; constructor; [apply F | apply IH].
Qed.

(** A value is not both. *)
Lemma plain_printable v : plain v = true → unprintable v = false.
Proof.
  induction v as [| | | | |o|l IH] using value_array_ind; try done.
  - simpl. by destruct (bool_decide _).
  - simpl. induction IH as [|x r Hx Hr IHr]; [done|].
    intros [Hpx Hpr]%andb_prop. by rewrite (Hx Hpx), (IHr Hpr).
Qed.

(** A sync message with a known operation goes to the subscribers of
    [sync:<collection>]. *)
Lemma handleMessage_sync o d op w :
  o !! "type" = Some (VStr "sync") →
  o !! "data" = Some (VObj d) →
  d !! "operation" = Some (VStr op) →
  op ∈ ["create"; "update"; "delete"] →
  unprintable (prop (VObj d) "collection") = false →
  handleMessage (VObj o) w =
    (Ok tt, w,
     concat
       (map (notified
               ("Error in sync subscriber for "
                  +:+ printed (env w) (prop (VObj d) "collection") +:+ ":")
               (VObj {[ "operation" := VStr op;
                        "data" := prop (VObj d) "data" ]}))
          (default []
             (subscribers (this w)
                !! ("sync:" +:+ printed (env w) (prop (VObj d) "collection")))))).
Proof.
  intros Ht Hd Hop Hin Hp. unfold handleMessage, member, prop. rewrite Ht.
  unfold_M. simpl.
  unfold handleSync, member, prop. rewrite Hd. unfold_M. simpl.
  rewrite Hop. simpl. unfold prop in Hp.
  assert (is_str (VStr op) "create" || is_str (VStr op) "update"
          || is_str (VStr op) "delete" = true) as ->.
  { rewrite !elem_of_cons in Hin.
    destruct Hin as [->|[->|[->|Hin]]]; try reflexivity.
    by apply elem_of_nil in Hin. }
  simpl. rewrite template_run, Hp. simpl.
  rewrite forEach_notify. reflexivity.
Qed.

(** A sync message with any other operation is reported and dropped. *)
Lemma handleMessage_sync_unknown o w :
  o !! "type" = Some (VStr "sync") →
  prop (js_or (prop (VObj o) "data") (VObj ∅)) "operation" ≠ VStr "create" →
  prop (js_or (prop (VObj o) "data") (VObj ∅)) "operation" ≠ VStr "update" →
  prop (js_or (prop (VObj o) "data") (VObj ∅)) "operation" ≠ VStr "delete" →
  handleMessage (VObj o) w =
    if unprintable (prop (js_or (prop (VObj o) "data") (VObj ∅)) "operation")
    then (Throw "TypeError", w, [])
    else
      (Ok tt, w,
       [ConsoleWarn
          ("Unknown sync operation: " +:+
           printed (env w)
             (prop (js_or (prop (VObj o) "data") (VObj ∅)) "operation"))]).
Proof.
  intros Ht H1 H2 H3.
  assert (prop (VObj o) "type" = VStr "sync") as Hty
    by (unfold prop; by rewrite Ht).
  unfold handleMessage, mbind, M_bind.
  change (member (VObj o) "type") with (ret (prop (VObj o) "type")).
  rewrite bind_ret_l, Hty.
  change (is_str (VStr "sync") "pong") with false.
  change (is_str (VStr "sync") "error") with false.
  change (is_str (VStr "sync") "notification") with false.
  change (is_str (VStr "sync") "sync") with true. cbv iota.
  unfold handleSync, mbind, M_bind.
  change (member (VObj o) "data") with (ret (prop (VObj o) "data")).
  rewrite bind_ret_l. cbv zeta.
  rewrite (is_str_false _ _ H1), (is_str_false _ _ H2), (is_str_false _ _ H3).
  change (false || false || false) with false. cbv iota.
  unfold bind. rewrite template_run.
  by destruct (unprintable _).
Qed.

(** An error message goes to the snackbar. *)
Lemma handleMessage_error o w :
  o !! "type" = Some (VStr "error") →
  handleMessage (VObj o) w =
    (Ok tt, w,
     [ConsoleError "WebSocket error:";
      Snackbar (js_or (prop (VObj o) "error") (VStr "An error occurred"))
        "error" None None]).
Proof.
  intros Ht.
  assert (prop (VObj o) "type" = VStr "error") as Hty
    by (unfold prop; by rewrite Ht).
  unfold handleMessage, mbind, M_bind.
  change (member (VObj o) "type") with (ret (prop (VObj o) "type")).
  rewrite bind_ret_l, Hty. reflexivity.
Qed.


Lemma try_catch_ok {A} (c : M A) (h : string → M A) w :
  (∀ e, outcome c w ≠ Throw e) → try_catch c h w = c w.
Proof.
  unfold outcome, try_catch. intros H.
  destruct (c w) as [[[a|e|] w1] e1]; try done. by destruct (H e).
Qed.

Lemma onmessage_ok message w w' es :
  handleMessage message w = (Ok tt, w', es) →
  onmessage (Some message) w = (Ok tt, w', es).
Proof.
  intros H. unfold onmessage. rewrite try_catch_ok; [done|].
  intros e. unfold outcome. by rewrite H.
Qed.

(** C3, as stated, fails: a handler is registered under [error], an error
    message arrives, the snackbar shows it, and the handler is not called. *)
Lemma error_subscribers_not_called :
  subscribers (this subscribed) !! "error" = Some [steady 0] ∧
  notices (effects (onmessage (Some (VObj error_message))) subscribed)
    = [(VStr "quota exceeded", "error", None)] ∧
  calls (effects (onmessage (Some (VObj error_message))) subscribed) = [].
Proof. vm_compute. done. Qed.

(** C3, amended.  An inbound message of type [error] goes to the built-in
    error handler only: one console line and one error notification showing
    [message.error], or a default text; no subscriber is called and the
    service is left as it was. *)
Theorem error_routing (w : World) (o : object) :
  o !! "type" = Some (VStr "error") →
  onmessage (Some (VObj o)) w =
    (Ok tt, w,
     [ConsoleError "WebSocket error:";
      Snackbar (js_or (prop (VObj o) "error") (VStr "An error occurred"))
        "error" None None]) ∧
  calls (effects (onmessage (Some (VObj o))) w) = [].
Proof.
  intros Ht.
  pose proof (onmessage_ok _ _ _ _ (handleMessage_error o w Ht)) as H.
  split; [exact H|]. unfold effects. by rewrite H.
Qed.

Lemma error_routing_witness :
  onmessage (Some (VObj error_message)) subscribed =
    (Ok tt, subscribed,
     [ConsoleError "WebSocket error:";
      Snackbar (js_or (prop (VObj error_message) "error")
                  (VStr "An error occurred"))
        "error" None None]) ∧
  calls (effects (onmessage (Some (VObj error_message))) subscribed) = [].
Proof. apply (error_routing subscribed error_message). reflexivity. Defined.



Lemma live_turns_inert script label arg ref hs r : ∀ n k,
  Registry.arrays r !! ref = Some hs →
  (∀ h, h ∈ hs → script (hid h) = []) →
  (k + n = length hs)%nat →
  Live.turns script label arg ref k n r
    = (r, concat (map (notified label arg) (drop k hs))).
Proof.
  induction n as [|n IH]; intros k Hr Hs Hlen.
  - simpl. rewrite drop_ge by lia. done.
  - destruct (lookup_lt_is_Some_2 hs k) as [h Hh]; [lia|].
    simpl. unfold Live.turn. rewrite Hr. simpl. rewrite Hh.
    rewrite (Hs h) by (by eapply list_elem_of_lookup_2). simpl.
    rewrite (IH (S k)) by (done || lia).
    by rewrite (drop_S _ _ _ Hh).
Qed.

Lemma live_dispatch_inert script label arg key ref hs r :
  Registry.entries r !! key = Some ref →
  Registry.arrays r !! ref = Some hs →
  (∀ h, h ∈ hs → script (hid h) = []) →
  Live.dispatch script label arg key r
    = (r, concat (map (notified label arg) hs)).
Proof.
  intros Hk Hr Hs. unfold Live.dispatch, Live.forEach. rewrite Hk, Hr. simpl.
  by rewrite (live_turns_inert script label arg ref hs r _ 0%nat Hr Hs).
Qed.

(** C8, as stated, fails: two handlers are registered under [alert]; the
    first one unsubscribes itself when it is called, and throws.  Its
    removal shifts the array while the loop is at index 0, so the loop
    finds nothing at index 1 and the handler registered after it is not
    called. *)
Lemma unsubscribing_handler_hides_next :
  Registry.view two_alerts !! "alert" = Some [faulty 5; steady 6] ∧
  hthrows (faulty 5) (prop (VObj alert_message) "data") = true ∧
  calls (Live.dispatch leaves_when_called
           "Error in WebSocket subscriber for alert:"
           (prop (VObj alert_message) "data") "alert" two_alerts).2
    = [(5%nat, prop (VObj alert_message) "data")] ∧
  Registry.view
    (Live.dispatch leaves_when_called
       "Error in WebSocket subscriber for alert:"
       (prop (VObj alert_message) "data") "alert" two_alerts).1 !! "alert"
    = Some [steady 6].
Proof. vm_compute. done. Qed.

(** C8, amended.  On either dispatch path, the application path keyed by
    the message type or the sync path keyed by [sync:<collection>], and
    provided no handler registered under the key subscribes or unsubscribes
    while the message is being dispatched: every handler registered under
    the key is called with the same argument, once and in registration
    order, whether or not the handlers before it throw; an exception costs
    one line on the console, none leaves the dispatcher, and the registry
    is as it was, so the messages that follow are dispatched as if nothing
    had been thrown.  Under that proviso the loop over the live array is
    the loop of [onmessage]. *)
Theorem dispatch_isolation (script : nat → list Live.act) (r : Registry.t)
    (ref : nat) (w : World) (o d : object) (t op key label : string)
    (arg : value) (hs : list handler) :
  (o !! "type" = Some (VStr t) ∧ (t ∉ reserved) ∧
   key = t ∧ arg = prop (VObj o) "data" ∧
   label = "Error in WebSocket subscriber for " +:+ t +:+ ":")
  ∨ (o !! "type" = Some (VStr "sync") ∧ o !! "data" = Some (VObj d) ∧
     d !! "operation" = Some (VStr op) ∧
     op ∈ ["create"; "update"; "delete"] ∧
     plain (prop (VObj d) "collection") = true ∧
     key = "sync:" +:+ ToString (prop (VObj d) "collection") ∧
     arg = VObj {[ "operation" := VStr op;
                   "data" := prop (VObj d) "data" ]} ∧
     label = "Error in sync subscriber for "
               +:+ ToString (prop (VObj d) "collection") +:+ ":") →
  subscribers (this w) !! key = Registry.view r !! key →
  Registry.entries r !! key = Some ref →
  Registry.arrays r !! ref = Some hs →
  (∀ h, h ∈ hs → script (hid h) = []) →
  Live.dispatch script label arg key r
    = (r, concat (map (notified label arg) hs)) ∧
  calls (Live.dispatch script label arg key r).2
    = map (λ h, (hid h, arg)) hs ∧
  (∀ h, h ∈ hs →
     (hid h, arg) ∈ calls (Live.dispatch script label arg key r).2) ∧
  onmessage (Some (VObj o)) w
    = (Ok tt, w, (Live.dispatch script label arg key r).2) ∧
  ∀ data, onmessage data (after (onmessage (Some (VObj o))) w)
          = onmessage data w.
Proof.
  intros Hpath Hview Hk Hr Hinert.
  pose proof (live_dispatch_inert script label arg key ref hs r Hk Hr Hinert)
    as Hlive.
  assert (subscribers (this w) !! key = Some hs) as Hsubs.
  { rewrite Hview. unfold Registry.view. rewrite lookup_omap, Hk. exact Hr. }
  assert (onmessage (Some (VObj o)) w
          = (Ok tt, w, concat (map (notified label arg) hs))) as H.
  { destruct Hpath as [(Ht & Hres & -> & -> & ->)
                      |(Ht & Hd & Hop & Hin & Hp & -> & -> & ->)].
    - apply onmessage_ok. rewrite (handleMessage_app o t w Ht Hres).
      by rewrite Hsubs.
    - apply onmessage_ok.
      rewrite (handleMessage_sync o d op w Ht Hd Hop Hin
                 (plain_printable _ Hp)).
      rewrite (printed_plain _ _ Hp). by rewrite Hsubs. }
  rewrite Hlive. simpl. rewrite calls_notified.
  split; [done|]. split; [done|]. split.
  - intros h Hh. apply list_elem_of_fmap. by exists h.
  - split; [done|]. intros data. unfold after. by rewrite H.
Qed.

Lemma dispatch_isolation_witness :
  Live.dispatch inert "Error in WebSocket subscriber for alert:"
    (prop (VObj alert_message) "data") "alert" two_alerts
    = (two_alerts,
       concat (map (notified "Error in WebSocket subscriber for alert:"
                      (prop (VObj alert_message) "data"))
                 [faulty 5; steady 6])) ∧
  calls (Live.dispatch inert "Error in WebSocket subscriber for alert:"
           (prop (VObj alert_message) "data") "alert" two_alerts).2
    = map (λ h, (hid h, prop (VObj alert_message) "data"))
        [faulty 5; steady 6] ∧
  (∀ h, h ∈ [faulty 5; steady 6] →
     (hid h, prop (VObj alert_message) "data")
       ∈ calls (Live.dispatch inert
                  "Error in WebSocket subscriber for alert:"
                  (prop (VObj alert_message) "data") "alert" two_alerts).2) ∧
  onmessage (Some (VObj alert_message)) subscribed
    = (Ok tt, subscribed,
       (Live.dispatch inert "Error in WebSocket subscriber for alert:"
          (prop (VObj alert_message) "data") "alert" two_alerts).2) ∧
  ∀ data, onmessage data
            (after (onmessage (Some (VObj alert_message))) subscribed)
          = onmessage data subscribed.
Proof.
  apply (dispatch_isolation inert two_alerts 0 subscribed alert_message ∅
           "alert" "none" "alert" "Error in WebSocket subscriber for alert:"
           (prop (VObj alert_message) "data") [faulty 5; steady 6]).
  - left. split; [reflexivity|]. split; [|repeat split; reflexivity].
    by apply (bool_decide_unpack _).
  - vm_compute. reflexivity.
  - vm_compute. reflexivity.
  - vm_compute. reflexivity.
  - intros h _. reflexivity.
Defined.

(** C10, as stated, fails: the operation of a sync message is an object
    with a property [toString].  It is none of create, update and delete,
    but the warning cannot be built: the template literal throws, and the
    [catch] of [onmessage] reports a parse error instead of an unknown
    operation. *)
Lemma unknown_operation_reported_as_parse_error :
  prop (prop (VObj odd_sync_message) "data") "operation"
    = VObj {[ "toString" := VStr "upsert" ]} ∧
  onmessage (Some (VObj odd_sync_message)) subscribed
    = (Ok tt, subscribed, [ConsoleError "Error parsing WebSocket message:"]).
Proof. vm_compute. done. Qed.

(** C10, amended.  A sync message whose operation is not create, update or
    delete calls no subscriber under any key and leaves the service
    (registry and queue included) as it was.  It leaves one line on the
    console: the warning [Unknown sync operation: ] followed by the
    operation as a template literal prints it or, when the operation is an
    object with an own property [toString] (or an array that holds one),
    on which the template literal throws, the parse error of [onmessage]. *)
Theorem sync_unknown_operation (w : World) (o : object) :
  o !! "type" = Some (VStr "sync") →
  prop (js_or (prop (VObj o) "data") (VObj ∅)) "operation" ≠ VStr "create" →
  prop (js_or (prop (VObj o) "data") (VObj ∅)) "operation" ≠ VStr "update" →
  prop (js_or (prop (VObj o) "data") (VObj ∅)) "operation" ≠ VStr "delete" →
  onmessage (Some (VObj o)) w =
    (Ok tt, w,
     [if unprintable
           (prop (js_or (prop (VObj o) "data") (VObj ∅)) "operation")
      then ConsoleError "Error parsing WebSocket message:"
      else ConsoleWarn
             ("Unknown sync operation: " +:+
              printed (env w)
                (prop (js_or (prop (VObj o) "data") (VObj ∅)) "operation"))]) ∧
  (plain (prop (js_or (prop (VObj o) "data") (VObj ∅)) "operation") = true →
   effects (onmessage (Some (VObj o))) w =
     [ConsoleWarn
        ("Unknown sync operation: " +:+
         ToString (prop (js_or (prop (VObj o) "data") (VObj ∅)) "operation"))]) ∧
  calls (effects (onmessage (Some (VObj o))) w) = [] ∧
  subscribers (this (after (onmessage (Some (VObj o))) w))
    = subscribers (this w) ∧
  messageQueue (this (after (onmessage (Some (VObj o))) w))
    = messageQueue (this w).
Proof.
  intros Ht H1 H2 H3.
  pose proof (handleMessage_sync_unknown o w Ht H1 H2 H3) as Hh.
  set (op := prop (js_or (prop (VObj o) "data") (VObj ∅)) "operation") in *.
  assert (onmessage (Some (VObj o)) w =
    (Ok tt, w,
     [if unprintable op
      then ConsoleError "Error parsing WebSocket message:"
      else ConsoleWarn ("Unknown sync operation: " +:+ printed (env w) op)]))
    as H.
  { destruct (unprintable op).
    - unfold onmessage, try_catch. by rewrite Hh.
    - by apply onmessage_ok. }
  split; [exact H|]. unfold after, effects. rewrite H. simpl.
  split; [|by destruct (unprintable op)].
  intros Hp. by rewrite (plain_printable _ Hp), (printed_plain _ _ Hp).
Qed.

Lemma sync_unknown_operation_witness :
  onmessage (Some (VObj (sync_message "upsert"))) subscribed =
    (Ok tt, subscribed,
     [if unprintable
           (prop (js_or (prop (VObj (sync_message "upsert")) "data") (VObj ∅))
              "operation")
      then ConsoleError "Error parsing WebSocket message:"
      else ConsoleWarn
             ("Unknown sync operation: " +:+
              printed (env subscribed)
                (prop (js_or (prop (VObj (sync_message "upsert")) "data")
                         (VObj ∅)) "operation"))]) ∧
  (plain (prop (js_or (prop (VObj (sync_message "upsert")) "data") (VObj ∅))
            "operation") = true →
   effects (onmessage (Some (VObj (sync_message "upsert")))) subscribed =
     [ConsoleWarn
        ("Unknown sync operation: " +:+
         ToString (prop (js_or (prop (VObj (sync_message "upsert")) "data")
                           (VObj ∅)) "operation"))]) ∧
  calls (effects (onmessage (Some (VObj (sync_message "upsert")))) subscribed)
    = [] ∧
  subscribers
    (this (after (onmessage (Some (VObj (sync_message "upsert")))) subscribed))
    = subscribers (this subscribed) ∧
  messageQueue
    (this (after (onmessage (Some (VObj (sync_message "upsert")))) subscribed))
    = messageQueue (this subscribed).
Proof.
  apply (sync_unknown_operation subscribed (sync_message "upsert")).
  - reflexivity.
  - vm_compute. discriminate.
  - vm_compute. discriminate.
  - vm_compute. discriminate.
Defined.

(** * Properties of the outbound queue *)

Lemma send_disconnected message w :
  connected (this w) = false →
  send message w =
    (Ok false,
     with_this (λ s, set_messageQueue (messageQueue s ++ [message]) s) w, []).
Proof. intros H. unfold send. unfold_M. by rewrite H. Qed.

Lemma send_connected message w sock :
  connected (this w) = true →
  socket (this w) = Some sock →
  send message w =
    if oracle_send_throws (env w) (S (S (tick w))) (envelope_at w message)
    then (Ok false, with_tick (S (S (S (tick w)))) w,
          [ConsoleError "Error sending WebSocket message:"])
    else (Ok true, with_tick (S (S (S (tick w)))) w,
          [SocketSend sock (envelope_at w message)]).
Proof.
  intros Hc Hs. unfold send, uuidv4, Date_toISOString, socket_send.
  unfold_M. rewrite Hc, Hs. simpl.
  unfold envelope_at, envelope.
  by destruct (oracle_send_throws _ _ _).
Qed.

Lemma send_no_socket message w :
  connected (this w) = true →
  socket (this w) = None →
  send message w =
    (Ok false, w, [ConsoleError "Error sending WebSocket message:"]).
Proof. intros Hc Hs. unfold send. unfold_M. by rewrite Hc, Hs. Qed.

(** The drain loop takes every queued message off the queue and hands it to
    [send], one after the other, whether or not a transmission throws; the
    fuel given by [processMessageQueue] is enough. *)
Lemma drain_loop sock q : ∀ fuel w,
  (length q < fuel)%nat →
  connected (this w) = true →
  socket (this w) = Some sock →
  messageQueue (this w) = q →
  ∃ groups,
    outcome (processMessageQueue_loop fuel) w = Ok tt ∧
    this (after (processMessageQueue_loop fuel) w)
      = set_messageQueue [] (this w) ∧
    env (after (processMessageQueue_loop fuel) w) = env w ∧
    effects (processMessageQueue_loop fuel) w = concat groups ∧
    Forall2 (sent_or_failed (env w) sock) q groups.
Proof.
  induction q as [|m rest IH]; intros fuel w Hfuel Hc Hs Hq.
  - destruct fuel as [|fuel]; [simpl in Hfuel; lia|].
    exists []. unfold outcome, after, effects. simpl. unfold_M.
    rewrite Hq. simpl. repeat split; try constructor.
    destruct w as [s e t n ps], s; simpl in *. by subst.
  - destruct fuel as [|fuel]; [simpl in Hfuel; lia|].
    simpl in Hfuel.
    set (w1 := with_this (set_messageQueue rest) w).
    pose proof (send_connected m w1 sock Hc Hs) as Hsend.
    set (w2 := with_tick (S (S (S (tick w1)))) w1) in Hsend.
    destruct (IH fuel w2 ltac:(lia) Hc Hs eq_refl)
      as (groups & Hok & Hthis & Henv & Heff & Hall).
    assert (∃ b g, send m w1 = (Ok b, w2, g) ∧ sent_or_failed (env w) sock m g)
      as (b & g & Hsend' & Hg).
    { destruct (oracle_send_throws _ _ _) eqn:Hthrow.
      - exists false, [ConsoleError "Error sending WebSocket message:"].
        split; [done|]. right. split; [done|]. eauto.
      - exists true, [SocketSend sock (envelope_at w1 m)].
        split; [done|]. left. unfold envelope_at. eauto. }
    exists (g :: groups).
    unfold outcome, after, effects in *. simpl. unfold_M.
    rewrite Hq, Hc. fold w1. rewrite Hsend'.
    destruct (processMessageQueue_loop fuel w2) as [[r w3] e3].
    simpl in *. subst r. repeat split; try done.
    + by rewrite Heff.
    + by constructor.
Qed.

Lemma processMessageQueue_fuel w :
  processMessageQueue w
    = processMessageQueue_loop (S (length (messageQueue (this w)))) w.
Proof.
  unfold processMessageQueue, mbind, M_bind. by rewrite bind_get_this.
Qed.

Lemma drain sock w :
  connected (this w) = true →
  socket (this w) = Some sock →
  ∃ groups,
    outcome processMessageQueue w = Ok tt ∧
    this (after processMessageQueue w) = set_messageQueue [] (this w) ∧
    env (after processMessageQueue w) = env w ∧
    effects processMessageQueue w = concat groups ∧
    Forall2 (sent_or_failed (env w) sock) (messageQueue (this w)) groups.
Proof.
  intros Hc Hs.
  destruct (drain_loop sock (messageQueue (this w))
              (S (length (messageQueue (this w)))) w ltac:(lia) Hc Hs eq_refl)
    as (groups & H).
  exists groups. unfold outcome, after, effects in *.
  by rewrite processMessageQueue_fuel.
Qed.

(** ** The drain inside [onopen] *)

Lemma link_kept_refl w : link_kept w w [].
Proof. done. Qed.

Lemma link_kept_trans w1 w2 w3 e1 e2 :
  link_kept w1 w2 e1 → link_kept w2 w3 e2 → link_kept w1 w3 (e1 ++ e2).
Proof.
  intros (Hq & Hc & Hs & He & Ht) (Hq' & Hc' & Hs' & He' & Ht').
  repeat split; try congruence.
  unfold transmitted in *. by rewrite omap_app, Ht, Ht'.
Qed.

Create HintDb link.

Ltac link :=
  repeat first
    [ solve [ auto with link ]
    | keeps_step link_kept_refl link_kept_trans ].

Lemma link_assign f :
  (∀ s, messageQueue (f s) = messageQueue s) →
  (∀ s, connected (f s) = connected s) →
  (∀ s, socket (f s) = socket s) →
  keeps link_kept (assign f).
Proof. intros Hq Hc Hs w. repeat split; [apply Hq | apply Hc | apply Hs]. Qed.

Lemma link_emit e :
  (∀ k f, e ≠ SocketSend k f) → keeps link_kept (emit e).
Proof.
  intros He w. repeat split. destruct e; try done. by destruct (He sock f).
Qed.

Lemma link_fresh_id : keeps link_kept fresh_id.
Proof. by intros w. Qed.

Lemma link_settle st p : keeps link_kept (settle st p).
Proof.
  intros w. unfold after, effects, settle.
  destruct (promises w !! p) as [[]|]; done.
Qed.

#[global] Hint Resolve link_fresh_id link_settle : link.
#[global] Hint Extern 1 (keeps link_kept (assign _)) =>
  (apply link_assign; intros ?; reflexivity) : link.
#[global] Hint Extern 1 (keeps link_kept (emit _)) =>
  (apply link_emit; intros ? ?; discriminate) : link.

Lemma link_startPingPong : keeps link_kept startPingPong.
Proof. unfold startPingPong, clearInterval, setInterval. link. Qed.

Lemma startPingPong_ok w : outcome startPingPong w = Ok tt.
Proof.
  unfold outcome, startPingPong. unfold_M.
  by destruct (pingInterval (this w)).
Qed.

Lemma link_resolve_waiting p : keeps link_kept (resolve_waiting p).
Proof. unfold resolve_waiting, resolve. link. Qed.

Lemma settle_ok st p w : outcome (settle st p) w = Ok tt.
Proof. unfold outcome, settle. by destruct (promises w !! p) as [[]|]. Qed.

Lemma forEach_resolve_ok ps w : outcome (forEach ps resolve) w = Ok tt.
Proof.
  revert w. induction ps as [|p ps IH]; intros w; [done|].
  simpl forEach. unfold mbind, M_bind.
  rewrite outcome_bind. unfold resolve at 1. by rewrite settle_ok.
Qed.

Lemma resolve_waiting_ok p w : outcome (resolve_waiting p) w = Ok tt.
Proof.
  unfold resolve_waiting, mbind, M_bind.
  rewrite outcome_bind. autorewrite with prim. cbv iota.
  rewrite outcome_bind, forEach_resolve_ok.
  rewrite outcome_bind. autorewrite with prim. cbv iota.
  apply settle_ok.
Qed.

Lemma opened_world_link w :
  messageQueue (this (opened_world w)) = messageQueue (this w) ∧
  connected (this (opened_world w)) = true ∧
  socket (this (opened_world w)) = socket (this w) ∧
  env (opened_world w) = env w.
Proof.
  destruct (link_startPingPong
              (with_this (set_reconnectAttempts 0%nat)
                 (with_this (set_connected true) w)))
    as (Hq & Hc & Hs & He & _).
  unfold opened_world. by rewrite Hq, Hc, Hs, He.
Qed.

(** [onopen] is: log, flag, counter, keepalive, drain, resolve. *)
Lemma onopen_drain p w sock :
  socket (this w) = Some sock →
  outcome (onopen p) w = Ok tt ∧
  transmitted (effects (onopen p) w)
    = transmitted (effects processMessageQueue (opened_world w)) ∧
  messageQueue (this (after (onopen p) w)) = [] ∧
  connected (this (after (onopen p) w)) = true.
Proof.
  intros Hs.
  destruct (opened_world_link w) as (Hq1 & Hc1 & Hs1 & He1).
  rewrite Hs in Hs1.
  destruct (drain sock (opened_world w) Hc1 Hs1)
    as (groups & Hok & Hthis & Henv & Heff & Hall).
  destruct (link_resolve_waiting p (after processMessageQueue (opened_world w)))
    as (Hq2 & Hc2 & Hs2 & He2 & Ht2).
  pose proof (resolve_waiting_ok p (after processMessageQueue (opened_world w)))
    as Hok2.
  destruct (link_startPingPong
              (with_this (set_reconnectAttempts 0%nat)
                 (with_this (set_connected true) w)))
    as (_ & _ & _ & _ & Ht0).
  fold (opened_world w) in Ht0.
  rewrite Hthis in Hq2, Hc2. simpl in Hq2, Hc2.
  change (onopen p) with
    (bind (emit (ConsoleLog "WebSocket connected")) (λ _,
     bind (assign (set_connected true)) (λ _,
     bind (assign (set_reconnectAttempts 0%nat)) (λ _,
     bind startPingPong (λ _,
     bind processMessageQueue (λ _, resolve_waiting p)))))).
  repeat split.
  - do 3 seq_step. rewrite outcome_bind, startPingPong_ok.
    fold (opened_world w). by rewrite outcome_bind, Hok.
  - do 3 seq_step. rewrite effects_bind, startPingPong_ok.
    fold (opened_world w). rewrite effects_bind, Hok.
    unfold transmitted in *. rewrite !omap_app, Ht0, Ht2. simpl.
    by rewrite app_nil_r.
  - do 3 seq_step. rewrite after_bind, startPingPong_ok.
    fold (opened_world w). by rewrite after_bind, Hok.
  - do 3 seq_step. rewrite after_bind, startPingPong_ok.
    fold (opened_world w). rewrite after_bind, Hok. congruence.
Qed.

(** Sends made while disconnected only append to the queue. *)
Lemma run_sends msgs : ∀ w,
  connected (this w) = false →
  (run (map ESend msgs) w).2 = [] ∧
  messageQueue (this (run (map ESend msgs) w).1)
    = messageQueue (this w) ++ msgs ∧
  connected (this (run (map ESend msgs) w).1) = false.
Proof.
  induction msgs as [|m msgs IH]; intros w Hc.
  - simpl. by rewrite app_nil_r.
  - change (map ESend (m :: msgs)) with (ESend m :: map ESend msgs).
    rewrite run_cons.
    assert (handle (ESend m) w =
      (Ok tt,
       with_this (λ s, set_messageQueue (messageQueue s ++ [m]) s) w, []))
      as Hh.
    { simpl handle. unfold mbind, M_bind, bind.
      by rewrite (send_disconnected m w Hc). }
    unfold after, effects. rewrite Hh. simpl.
    destruct (IH (with_this (λ s, set_messageQueue (messageQueue s ++ [m]) s) w)
                Hc) as (He & Hq & Hc').
    rewrite He, Hq, Hc'. simpl. by rewrite <- app_assoc.
Qed.

(** The drain, entry by entry. *)
Lemma drain_loop_log sock q : ∀ fuel w,
  (length q < fuel)%nat →
  connected (this w) = true →
  socket (this w) = Some sock →
  messageQueue (this w) = q →
  effects (processMessageQueue_loop fuel) w
    = drain_log (env w) sock (tick w) q.
Proof.
  induction q as [|m rest IH]; intros fuel w Hfuel Hc Hs Hq.
  - destruct fuel as [|fuel]; [simpl in Hfuel; lia|].
    unfold effects. simpl. unfold_M. by rewrite Hq.
  - destruct fuel as [|fuel]; [simpl in Hfuel; lia|].
    simpl in Hfuel.
    set (w1 := with_this (set_messageQueue rest) w).
    pose proof (send_connected m w1 sock Hc Hs) as Hsend.
    set (w2 := with_tick (S (S (S (tick w1)))) w1) in Hsend.
    pose proof (IH fuel w2 ltac:(lia) Hc Hs eq_refl) as Heff.
    change (envelope_at w1 m) with (stamped (env w) (tick w) m) in Hsend.
    change (env w1) with (env w) in Hsend.
    change (tick w1) with (tick w) in Hsend.
    unfold effects in *. simpl. unfold_M.
    rewrite Hq, Hc. fold w1. rewrite Hsend.
    destruct (oracle_send_throws _ _ _); simpl;
      destruct (processMessageQueue_loop fuel w2) as [[r w3] e3];
      simpl in *; by rewrite Heff.
Qed.

Lemma drain_log_exact sock w :
  connected (this w) = true →
  socket (this w) = Some sock →
  effects processMessageQueue w
    = drain_log (env w) sock (tick w) (messageQueue (this w)).
Proof.
  intros Hc Hs. unfold effects. rewrite processMessageQueue_fuel.
  by apply (drain_loop_log sock (messageQueue (this w))); [lia|..].
Qed.

Lemma drain_log_length e sock msgs : ∀ t,
  length (drain_log e sock t msgs) = length msgs.
Proof. induction msgs as [|m rest IH]; intros t; simpl; [done | by rewrite IH]. Qed.

Lemma drain_log_lookup e sock msgs : ∀ t i message,
  msgs !! i = Some message →
  drain_log e sock t msgs !! i =
    Some (if oracle_send_throws e (t + 3 * i + 2)
               (stamped e (t + 3 * i) message)
          then ConsoleError "Error sending WebSocket message:"
          else SocketSend sock (stamped e (t + 3 * i) message)).
Proof.
  induction msgs as [|m rest IH]; intros t i message Hi; [done|].
  destruct i as [|i].
  - injection Hi as ->.
    replace (t + 3 * 0 + 2)%nat with (S (S t)) by lia.
    replace (t + 3 * 0)%nat with t by lia. reflexivity.
  - replace (t + 3 * S i + 2)%nat with (S (S (S t)) + 3 * i + 2)%nat by lia.
    replace (t + 3 * S i)%nat with (S (S (S t)) + 3 * i)%nat by lia.
    exact (IH _ i message Hi).
Qed.

Lemma drain_log_transmitted e sock msgs : ∀ t,
  transmitted (drain_log e sock t msgs) =
    omap id
      (imap (λ i message,
               if oracle_send_throws e (t + 3 * i + 2)
                    (stamped e (t + 3 * i) message)
               then None else Some (stamped e (t + 3 * i) message)) msgs).
Proof.
  induction msgs as [|m rest IH]; intros t; [done|].
  rewrite imap_cons.
  rewrite (imap_ext _
             (λ i message,
                if oracle_send_throws e (S (S (S t)) + 3 * i + 2)
                     (stamped e (S (S (S t)) + 3 * i) message)
                then None
                else Some (stamped e (S (S (S t)) + 3 * i) message)) rest).
  - replace (t + 3 * 0 + 2)%nat with (S (S t)) by lia.
    replace (t + 3 * 0)%nat with t by lia.
    unfold transmitted in *. simpl drain_log.
    destruct (oracle_send_throws e (S (S t)) (stamped e t m)); simpl;
      by rewrite IH.
  - intros i x _. unfold compose.
    by replace (t + 3 * S i)%nat with (S (S (S t)) + 3 * i)%nat by lia.
Qed.

Lemma opened_world_tick w : tick (opened_world w) = tick w.
Proof.
  unfold opened_world, after, startPingPong, clearInterval, setInterval.
  unfold_M. simpl. by destruct (pingInterval (this w)).
Qed.

(** C5, as stated, fails: three messages are sent while disconnected, the
    socket opens, and the transmission of the first one throws.  The
    transport receives the second and the third only, and the queue is
    empty: the first message is never received. *)
Lemma refused_message_never_received :
  (run (map ESend [threat 1; threat 2; threat 3]) (boot (browser_refusing [3%nat]))).2
    = [] ∧
  messageQueue (this (queued [3%nat])) = [threat 1; threat 2; threat 3] ∧
  transmitted (effects (onopen 0) (queued [3%nat])) =
    [JSON_stringify
       (VObj (threat 2 ∪ {[ "id" := VStr "uuid-4";
                            "timestamp" := VStr "2025-01-01T00:00:00.5Z" ]}));
     JSON_stringify
       (VObj (threat 3 ∪ {[ "id" := VStr "uuid-7";
                            "timestamp" := VStr "2025-01-01T00:00:00.8Z" ]}))] ∧
  messageQueue (this (after (onopen 0) (queued [3%nat]))) = [].
Proof. vm_compute. done. Qed.

(** C5, amended.  Messages sent while disconnected are queued without
    being transmitted.  When the socket opens, each of them is stamped and
    handed to the transport exactly once, in the order of the [send]
    calls: the transport receives the frames of those whose transmission
    does not throw, in that order, and the queue is empty again; a message
    whose transmission throws is dropped.  If no transmission throws, the
    transport receives the frame of every message, one each, in order.
    [w1] is the world in which the socket opens: whatever happened since
    the sends, the queue is the one they left. *)
Theorem queue_fifo (w w1 : World) (msgs : list object) (sock p : nat) :
  connected (this w) = false →
  messageQueue (this w) = [] →
  messageQueue (this w1) = messageQueue (this (run (map ESend msgs) w).1) →
  socket (this w1) = Some sock →
  transmitted (run (map ESend msgs) w).2 = [] ∧
  messageQueue (this (run (map ESend msgs) w).1) = msgs ∧
  outcome (onopen p) w1 = Ok tt ∧
  transmitted (effects (onopen p) w1) =
    omap id
      (imap (λ i message,
               if oracle_send_throws (env w1) (tick w1 + 3 * i + 2)
                    (stamped (env w1) (tick w1 + 3 * i) message)
               then None
               else Some (stamped (env w1) (tick w1 + 3 * i) message)) msgs) ∧
  ((∀ n f, oracle_send_throws (env w1) n f = false) →
   transmitted (effects (onopen p) w1) =
     imap (λ i message, stamped (env w1) (tick w1 + 3 * i) message) msgs) ∧
  messageQueue (this (after (onopen p) w1)) = [].
Proof.
  intros Hc Hq Hq1 Hs.
  destruct (run_sends msgs w Hc) as (He & Hq' & _).
  rewrite Hq in Hq'. simpl in Hq'. rewrite Hq' in Hq1.
  destruct (onopen_drain p w1 sock Hs) as (Hok & Ht & Hempty & _).
  destruct (opened_world_link w1) as (Hq2 & Hc2 & Hs2 & He2).
  rewrite Hs in Hs2.
  pose proof (drain_log_exact sock (opened_world w1) Hc2 Hs2) as Heff.
  rewrite Hq2, Hq1, He2, opened_world_tick in Heff.
  assert (transmitted (effects (onopen p) w1) =
    omap id
      (imap (λ i message,
               if oracle_send_throws (env w1) (tick w1 + 3 * i + 2)
                    (stamped (env w1) (tick w1 + 3 * i) message)
               then None
               else Some (stamped (env w1) (tick w1 + 3 * i) message)) msgs))
    as Htr by (by rewrite Ht, Heff, drain_log_transmitted).
  rewrite He, Hq'. repeat split; try done.
  intros Hno. rewrite Htr.
  rewrite (imap_ext _
             (λ i message, Some (stamped (env w1) (tick w1 + 3 * i) message))
             msgs) by (intros i x _; simpl; by rewrite Hno).
  clear. generalize (tick w1) as t. intros t.
  change (λ i message, Some (stamped (env w1) (t + 3 * i) message))
    with (λ i message, Some ((λ i message, stamped (env w1) (t + 3 * i) message) i message)).
  generalize (λ i message, stamped (env w1) (t + 3 * i) message) as F.
  induction msgs as [|m rest IH]; intros F; [done|].
  rewrite !imap_cons. simpl. f_equal. apply (IH (F ∘ S)).
Qed.

Lemma queue_fifo_witness :
  transmitted
    (run (map ESend [threat 1; threat 2; threat 3])
       (boot (browser_refusing [6%nat]))).2 = [] ∧
  messageQueue
    (this (run (map ESend [threat 1; threat 2; threat 3])
             (boot (browser_refusing [6%nat]))).1)
    = [threat 1; threat 2; threat 3] ∧
  outcome (onopen 0) (queued [6%nat]) = Ok tt ∧
  transmitted (effects (onopen 0) (queued [6%nat])) =
    [JSON_stringify
       (VObj (threat 1 ∪ {[ "id" := VStr "uuid-1";
                            "timestamp" := VStr "2025-01-01T00:00:00.2Z" ]}));
     JSON_stringify
       (VObj (threat 3 ∪ {[ "id" := VStr "uuid-7";
                            "timestamp" := VStr "2025-01-01T00:00:00.8Z" ]}))] ∧
  messageQueue (this (after (onopen 0) (queued [6%nat]))) = [].
Proof.
  destruct (queue_fifo (boot (browser_refusing [6%nat])) (queued [6%nat])
              [threat 1; threat 2; threat 3] 1 0)
    as (H1 & H2 & H3 & H4 & _ & H6); [reflexivity..|].
  rewrite H1, H2, H3, H4, H6. vm_compute. done.
Defined.

(** C2, as stated, fails: the transmission of the second queued message
    throws, the drain goes on with the third, and nothing stays queued; the
    second message is neither transmitted nor kept. *)
Lemma drain_drops_failed_message :
  messageQueue (this (queued [6%nat])) = [threat 1; threat 2; threat 3] ∧
  effects (onopen 0) (queued [6%nat]) =
    [ConsoleLog "WebSocket connected";
     SetInterval 2 30000;
     SocketSend 1
       (envelope "uuid-1" "2025-01-01T00:00:00.2Z" (threat 1));
     ConsoleError "Error sending WebSocket message:";
     SocketSend 1
       (envelope "uuid-7" "2025-01-01T00:00:00.8Z" (threat 3))] ∧
  messageQueue (this (after (onopen 0) (queued [6%nat]))) = [].
Proof. vm_compute. done. Qed.

(** C2, amended.  While connected, the drain takes the queued messages off
    the queue one by one, in order, and hands each to [send] exactly once.
    The log of the drain has one entry per queued message, in queue order:
    the frame of the message, handed to the socket, or, if the transmission
    of that very frame throws, the console line written by the [catch]
    inside [send].  So a failure does not stop the drain: every message
    after the failed one is still transmitted, unless its own transmission
    throws; and the queue is empty when the drain ends. *)
Theorem drain_continues (w : World) (sock : nat) :
  connected (this w) = true →
  socket (this w) = Some sock →
  outcome processMessageQueue w = Ok tt ∧
  messageQueue (this (after processMessageQueue w)) = [] ∧
  length (effects processMessageQueue w) = length (messageQueue (this w)) ∧
  ∀ i message,
    messageQueue (this w) !! i = Some message →
    effects processMessageQueue w !! i =
      Some
        (if oracle_send_throws (env w) (tick w + 3 * i + 2)
              (JSON_stringify
                 (VObj (message ∪
                        {[ "id" := VStr (oracle_uuid (env w) (tick w + 3 * i));
                           "timestamp" :=
                             VStr (oracle_time (env w) (S (tick w + 3 * i))) ]})))
         then ConsoleError "Error sending WebSocket message:"
         else SocketSend sock
                (JSON_stringify
                   (VObj (message ∪
                          {[ "id" := VStr (oracle_uuid (env w) (tick w + 3 * i));
                             "timestamp" :=
                               VStr (oracle_time (env w)
                                       (S (tick w + 3 * i))) ]})))).
Proof.
  intros Hc Hs.
  destruct (drain sock w Hc Hs) as (groups & Hok & Hthis & _).
  rewrite (drain_log_exact sock w Hc Hs), Hthis.
  split; [done|]. split; [done|]. split; [apply drain_log_length|].
  intros i message Hi.
  exact (drain_log_lookup (env w) sock _ (tick w) i message Hi).
Qed.

Lemma drain_continues_witness :
  outcome processMessageQueue (opened_world (queued [6%nat])) = Ok tt ∧
  messageQueue
    (this (after processMessageQueue (opened_world (queued [6%nat])))) = [] ∧
  effects processMessageQueue (opened_world (queued [6%nat])) =
    [SocketSend 1
       (JSON_stringify
          (VObj (threat 1 ∪ {[ "id" := VStr "uuid-1";
                               "timestamp" := VStr "2025-01-01T00:00:00.2Z" ]})));
     ConsoleError "Error sending WebSocket message:";
     SocketSend 1
       (JSON_stringify
          (VObj (threat 3 ∪ {[ "id" := VStr "uuid-7";
                               "timestamp" := VStr "2025-01-01T00:00:00.8Z" ]})))].
Proof.
  destruct (drain_continues (opened_world (queued [6%nat])) 1)
    as (Hok & Hq & Hlen & Hat); [reflexivity..|].
  split; [exact Hok|]. split; [exact Hq|].
  pose proof (Hat 0%nat (threat 1) eq_refl) as H0.
  pose proof (Hat 1%nat (threat 2) eq_refl) as H1.
  pose proof (Hat 2%nat (threat 3) eq_refl) as H2.
  destruct (effects processMessageQueue (opened_world (queued [6%nat])))
    as [|e0 [|e1 [|e2 [|e3 l]]]]; try discriminate Hlen.
  simpl in H0, H1, H2.
  injection H0 as ->. injection H1 as ->. injection H2 as ->.
  vm_compute. done.
Defined.

(** C4, as stated, fails: the service is connected, the transmission
    throws, and [send] returns [false] although the message was not
    appended to the queue. *)
Lemma send_false_without_queueing :
  connected (this (online [3%nat])) = true ∧
  outcome (send (threat 1)) (online [3%nat]) = Ok false ∧
  transmitted (effects (send (threat 1)) (online [3%nat])) = [] ∧
  messageQueue (this (online [3%nat])) = [] ∧
  messageQueue (this (after (send (threat 1)) (online [3%nat]))) = [].
Proof. vm_compute. done. Qed.

(** C4, amended.  Not connected: the message is appended to the queue as it
    is and [send] returns [false].  Connected: [send] builds the envelope
    [{id, timestamp, ...message}] and hands it to the socket; it returns
    [true] when the frame was transmitted and [false] when serialisation or
    transmission threw (or there is no socket), in which case the message is
    neither transmitted nor queued.  [send] never throws, and while connected
    it leaves the service object as it was. *)
Theorem send_outcomes (w : World) (message : object) :
  if connected (this w) then
    this (after (send message) w) = this w ∧
    match socket (this w) with
    | Some sock =>
        if oracle_send_throws (env w) (S (S (tick w))) (envelope_at w message)
        then outcome (send message) w = Ok false ∧
             effects (send message) w
               = [ConsoleError "Error sending WebSocket message:"]
        else outcome (send message) w = Ok true ∧
             effects (send message) w
               = [SocketSend sock (envelope_at w message)]
    | None => outcome (send message) w = Ok false ∧
              effects (send message) w
                = [ConsoleError "Error sending WebSocket message:"]
    end
  else
    send message w =
      (Ok false,
       with_this (λ s, set_messageQueue (messageQueue s ++ [message]) s) w,
       []).
Proof.
  destruct (connected (this w)) eqn:Hc.
  - destruct (socket (this w)) as [sock|] eqn:Hs.
    + unfold outcome, after, effects.
      rewrite (send_connected message w sock Hc Hs).
      by destruct (oracle_send_throws _ _ _).
    + unfold outcome, after, effects.
      by rewrite (send_no_socket message w Hc Hs).
  - by apply send_disconnected.
Qed.

(** * The retry after an abnormal close *)

(** [connect] hands back the stored promise, settled or not, and does
    nothing else. *)
Lemma connect_stored url p w :
  connectionPromise (this w) = Some p →
  connect url w = (Ok p, w, []).
Proof. intros H. unfold connect. unfold_M. by rewrite H. Qed.

(** Only [disconnect] clears the stored promise: the close callback, with
    any code, leaves it in place. *)
Lemma onclose_keeps_promise code reason w :
  connectionPromise (this (after (onclose code reason) w))
    = connectionPromise (this w).
Proof.
  unfold after, onclose, stopPingPong, handleReconnect. unfold_M. simpl.
  destruct (pingInterval (this w)); simpl;
    destruct (bool_decide (code ≠ 1000)); simpl; try done;
    destruct (bool_decide _); done.
Qed.

(** So the retry scheduled by [handleReconnect] opens no transport as long
    as a promise is stored. *)
Lemma retry_opens_nothing p w :
  connectionPromise (this w) = Some p →
  reconnect_callback w = (Ok tt, w, []).
Proof.
  intros H. unfold reconnect_callback. unfold_M.
  destruct (connected (this w)); simpl; [done|].
  by rewrite (connect_stored _ p w H).
Qed.

(** C1 fails on the code.  After an abnormal close below the ceiling the
    retry is scheduled (2000 ms) and fires while the service is not
    connected, but its [connect] call returns the promise stored by the first
    call, already fulfilled: the whole run opens one transport only, and the
    service stays disconnected. *)
Theorem retry_returns_settled_promise :
  opened (run dropped (boot browser)).2
    = ["ws://localhost:8000/ws/updates?token=secret"] ∧
  timeouts (run dropped (boot browser)).2 = [2000] ∧
  connected (this (run dropped (boot browser)).1) = false ∧
  reconnectAttempts (this (run dropped (boot browser)).1) = 1%nat ∧
  lastUrl (this (run dropped (boot browser)).1)
    = Some "ws://localhost:8000/ws/updates?token=secret" ∧
  connectionPromise (this (run dropped (boot browser)).1) = Some 0%nat ∧
  promises (run dropped (boot browser)).1 !! 0%nat = Some Fulfilled ∧
  connect "ws://localhost:8000/ws/updates?token=secret"
      (run dropped (boot browser)).1
    = (Ok 0%nat, (run dropped (boot browser)).1, []) ∧
  reconnect_callback (run dropped (boot browser)).1
    = (Ok tt, (run dropped (boot browser)).1, []) ∧
  opened (run (dropped ++ [EReconnectTimer]) (boot browser)).2
    = ["ws://localhost:8000/ws/updates?token=secret"].
Proof. vm_compute. done. Qed.

(** * More of the connection life cycle *)

(** [connect] when nothing is stored, in its three outcomes. *)
Lemma connect_fresh url w :
  connectionPromise (this w) = None →
  connect url w =
    match oracle_URL (env w) url with
    | Some u =>
        if oracle_WebSocket_throws (env w) (connect_target w u)
        then
          (Ok (next_id w),
           with_this (set_connectionPromise (Some (next_id w)))
             (with_promises (<[next_id w := Rejected]> (promises w))
                (with_next_id (S (next_id w)) (with_tick (S (tick w)) w))),
           [ConsoleError "Error creating WebSocket connection:"])
        else
          (Ok (next_id w),
           with_this
             (λ s, set_connectionPromise (Some (next_id w))
                     (set_lastUrl (Some (connect_target w u))
                        (set_socket (Some (S (next_id w))) s)))
             (with_promises (<[next_id w := Pending]> (promises w))
                (with_next_id (S (S (next_id w))) (with_tick (S (tick w)) w))),
           [NewWebSocket (S (next_id w)) (connect_target w u)])
    | None =>
        (Ok (next_id w),
         with_this (set_connectionPromise (Some (next_id w)))
           (with_promises (<[next_id w := Rejected]> (promises w))
              (with_next_id (S (next_id w)) (with_tick (S (tick w)) w))),
         [ConsoleError "Error creating WebSocket connection:"])
    end.
Proof.
  intros Hp. unfold connect, new_Promise, localStorage_getItem_token, new_URL,
    new_WebSocket, reject, settle, connect_target.
  unfold_M. rewrite Hp. simpl.
  destruct (oracle_URL (env w) url) as [u|]; simpl.
  - destruct (oracle_WebSocket_throws _ _); simpl.
    + rewrite lookup_insert_eq. simpl. rewrite insert_insert_eq. reflexivity.
    + reflexivity.
  - rewrite lookup_insert_eq. simpl. rewrite insert_insert_eq. reflexivity.
Qed.

(** X1.  [connect] never throws and stores the promise it returns; a
    second [connect], with whatever URL, returns that same promise and does
    nothing, so two calls in a row open at most one transport. *)
Theorem connect_single_flight (w : World) (url1 url2 : string) :
  ∃ p,
    outcome (connect url1) w = Ok p ∧
    connectionPromise (this (after (connect url1) w)) = Some p ∧
    connect url2 (after (connect url1) w)
      = (Ok p, after (connect url1) w, []) ∧
    (length (opened (effects (connect url1) w)) ≤ 1)%nat.
Proof.
  destruct (connectionPromise (this w)) as [p|] eqn:Hp.
  - exists p. unfold outcome, after, effects.
    rewrite (connect_stored url1 p w Hp). simpl.
    split; [done|]. split; [done|]. split; [by apply connect_stored|]. lia.
  - exists (next_id w). unfold outcome, after, effects.
    rewrite (connect_fresh url1 w Hp).
    destruct (oracle_URL (env w) url1) as [u|];
      [destruct (oracle_WebSocket_throws _ _)|]; simpl;
      (split; [done|]; split; [done|]; split; [by apply connect_stored|]; lia).
Qed.

(** A first [connect] whose URL parses and whose constructor accepts it. *)
Lemma connect_fresh_ok (w : World) (url : string) (u : URL) :
  connectionPromise (this w) = None →
  oracle_URL (env w) url = Some u →
  oracle_WebSocket_throws (env w) (connect_target w u) = false →
  outcome (connect url) w = Ok (next_id w) ∧
  effects (connect url) w = [NewWebSocket (S (next_id w)) (connect_target w u)] ∧
  socket (this (after (connect url) w)) = Some (S (next_id w)) ∧
  lastUrl (this (after (connect url) w)) = Some (connect_target w u) ∧
  connectionPromise (this (after (connect url) w)) = Some (next_id w) ∧
  promises (after (connect url) w) !! next_id w = Some Pending ∧
  connected (this (after (connect url) w)) = connected (this w).
Proof.
  intros Hp Hu Hc. unfold outcome, after, effects.
  rewrite (connect_fresh url w Hp), Hu, Hc. simpl.
  repeat split; try done.
  apply lookup_insert_eq.
Qed.

(** X2.  With nothing stored, a URL that parses and a constructor that
    accepts it, [connect] opens exactly one transport, at the URL whose
    query is extended with the parameter [token] holding the stored token,
    percent-encoded as [URLSearchParams] does (at the URL as parsed when no
    token is stored); it records the socket and that address as [lastUrl],
    and returns a pending promise. *)
Theorem connect_opens (w : World) (url : string) (u : URL) :
  connectionPromise (this w) = None →
  oracle_URL (env w) url = Some u →
  oracle_WebSocket_throws (env w) (connect_target w u) = false →
  outcome (connect url) w = Ok (next_id w) ∧
  effects (connect url) w = [NewWebSocket (S (next_id w)) (connect_target w u)] ∧
  socket (this (after (connect url) w)) = Some (S (next_id w)) ∧
  lastUrl (this (after (connect url) w)) = Some (connect_target w u) ∧
  connectionPromise (this (after (connect url) w)) = Some (next_id w) ∧
  promises (after (connect url) w) !! next_id w = Some Pending ∧
  connected (this (after (connect url) w)) = connected (this w) ∧
  connect_target w u =
    match oracle_token (env w) (tick w) with
    | Some t =>
        if bool_decide (t = EmptyString) then href u
        else url_text u +:+ "?" +:+
             String.concat "&"
               (map (λ kv, urlencode kv.1 +:+ "=" +:+ urlencode kv.2)
                  (searchParams u ++ [("token", t)])) +:+ hash u
    | None => href u
    end.
Proof.
  intros Hp Hu Hc.
  destruct (connect_fresh_ok w url u Hp Hu Hc)
    as (H1 & H2 & H3 & H4 & H5 & H6 & H7).
  repeat (split; [done|]).
  unfold connect_target. destruct (oracle_token _ _) as [t|]; [|done].
  by destruct (bool_decide _).
Qed.

Lemma connect_opens_witness :
  outcome (connect updates_url) (boot (browser_with_token "ab+/=")) = Ok 0%nat ∧
  effects (connect updates_url) (boot (browser_with_token "ab+/="))
    = [NewWebSocket 1 "ws://localhost:8000/ws/updates?token=ab%2B%2F%3D"] ∧
  lastUrl
    (this (after (connect updates_url) (boot (browser_with_token "ab+/="))))
    = Some "ws://localhost:8000/ws/updates?token=ab%2B%2F%3D".
Proof.
  destruct (connect_opens (boot (browser_with_token "ab+/=")) updates_url
              (MkURL updates_url []))
    as (Hok & He & _ & Hl & _ & _ & _ & Ht); [reflexivity..|].
  rewrite Hok, He, Hl, Ht. vm_compute. done.
Defined.

(** X3.  With nothing stored, when the URL does not parse or the
    constructor throws, [connect] opens nothing and leaves the socket and
    [lastUrl] as they were; it logs the error, returns a rejected promise and
    stores it, so that every later [connect] returns that rejected promise
    and does nothing. *)
Theorem connect_failure_sticks (w : World) (url : string) :
  connectionPromise (this w) = None →
  (oracle_URL (env w) url = None
   ∨ ∃ u, oracle_URL (env w) url = Some u ∧
          oracle_WebSocket_throws (env w) (connect_target w u) = true) →
  outcome (connect url) w = Ok (next_id w) ∧
  effects (connect url) w
    = [ConsoleError "Error creating WebSocket connection:"] ∧
  socket (this (after (connect url) w)) = socket (this w) ∧
  lastUrl (this (after (connect url) w)) = lastUrl (this w) ∧
  connectionPromise (this (after (connect url) w)) = Some (next_id w) ∧
  promises (after (connect url) w) !! next_id w = Some Rejected ∧
  ∀ url', connect url' (after (connect url) w)
          = (Ok (next_id w), after (connect url) w, []).
Proof.
  intros Hp Hfail.
  assert (connect url w =
    (Ok (next_id w),
     with_this (set_connectionPromise (Some (next_id w)))
       (with_promises (<[next_id w := Rejected]> (promises w))
          (with_next_id (S (next_id w)) (with_tick (S (tick w)) w))),
     [ConsoleError "Error creating WebSocket connection:"])) as H.
  { rewrite (connect_fresh url w Hp).
    destruct Hfail as [->|(u & -> & ->)]; reflexivity. }
  unfold outcome, after, effects. rewrite H. simpl.
  repeat split; try done; try apply lookup_insert_eq.
Qed.

Lemma connect_failure_sticks_witness :
  outcome (connect "not a url") (boot no_parser) = Ok 0%nat ∧
  effects (connect "not a url") (boot no_parser)
    = [ConsoleError "Error creating WebSocket connection:"] ∧
  socket (this (after (connect "not a url") (boot no_parser))) = None ∧
  lastUrl (this (after (connect "not a url") (boot no_parser))) = None ∧
  connectionPromise (this (after (connect "not a url") (boot no_parser)))
    = Some 0%nat ∧
  promises (after (connect "not a url") (boot no_parser)) !! 0%nat
    = Some Rejected ∧
  ∀ url', connect url' (after (connect "not a url") (boot no_parser))
          = (Ok 0%nat, after (connect "not a url") (boot no_parser), []).
Proof.
  apply (connect_failure_sticks (boot no_parser) "not a url").
  - reflexivity.
  - left. reflexivity.
Defined.

(** ** A stored promise without a socket *)

Lemma stranded_kept_refl w : stranded_kept w w [].
Proof. by intros [Hs Hp]. Qed.

Lemma stranded_kept_trans w1 w2 w3 e1 e2 :
  stranded_kept w1 w2 e1 → stranded_kept w2 w3 e2 →
  stranded_kept w1 w3 (e1 ++ e2).
Proof.
  intros H12 H23 Hs. destruct (H12 Hs) as (Hs2 & Hp2 & Ho2).
  destruct H23 as (Hs3 & Hp3 & Ho3).
  { split; [done|]. rewrite Hp2. apply Hs. }
  repeat split; try congruence.
  unfold opened in *. by rewrite omap_app, Ho2, Ho3.
Qed.

Create HintDb stranded.

Ltac stranded :=
  repeat first
    [ solve [ auto with stranded ]
    | keeps_step stranded_kept_refl stranded_kept_trans ].

Lemma stranded_assign f :
  (∀ s, socket (f s) = socket s) →
  (∀ s, connectionPromise (f s) = connectionPromise s) →
  keeps stranded_kept (assign f).
Proof.
  intros Hs Hp w [Hs0 Hp0]. unfold after, effects. simpl.
  by rewrite Hs, Hp.
Qed.

Lemma stranded_emit e :
  (∀ k u, e ≠ NewWebSocket k u) → keeps stranded_kept (emit e).
Proof.
  intros He w [Hs Hp]. repeat split; try done.
  destruct e; try done. by destruct (He sock url).
Qed.

Lemma stranded_next_tick : keeps stranded_kept next_tick.
Proof. by intros w [Hs Hp]. Qed.

Lemma stranded_fresh_id : keeps stranded_kept fresh_id.
Proof. by intros w [Hs Hp]. Qed.

Lemma stranded_set_promise p st : keeps stranded_kept (set_promise p st).
Proof. by intros w [Hs Hp]. Qed.

Lemma stranded_settle st p : keeps stranded_kept (settle st p).
Proof.
  intros w [Hs Hp]. unfold after, effects, settle.
  destruct (promises w !! p) as [[]|]; done.
Qed.

Lemma stranded_resolve p : keeps stranded_kept (resolve p).
Proof. apply stranded_settle. Qed.

Lemma stranded_reject p : keeps stranded_kept (reject p).
Proof. apply stranded_settle. Qed.

(** With a promise stored, [connect] hands it back. *)
Lemma stranded_connect url : keeps stranded_kept (connect url).
Proof.
  intros w [Hs Hp].
  destruct (connectionPromise (this w)) as [p|] eqn:Hp'; [|done].
  unfold after, effects. rewrite (connect_stored url p w Hp'). simpl.
  by rewrite Hp'.
Qed.

(** Without a socket, [disconnect] does nothing. *)
Lemma stranded_disconnect : keeps stranded_kept disconnect.
Proof.
  intros w [Hs Hp]. unfold after, effects, disconnect. unfold_M.
  by rewrite Hs.
Qed.

#[global] Hint Resolve stranded_next_tick stranded_fresh_id
  stranded_set_promise stranded_settle stranded_resolve stranded_reject
  stranded_connect stranded_disconnect : stranded.
#[global] Hint Extern 1 (keeps stranded_kept (assign _)) =>
  (apply stranded_assign; intros ?; reflexivity) : stranded.
#[global] Hint Extern 1 (keeps stranded_kept (emit _)) =>
  (apply stranded_emit; intros ? ?; discriminate) : stranded.

Lemma stranded_send message : keeps stranded_kept (send message).
Proof.
  unfold send, uuidv4, Date_toISOString, socket_send, console_error.
  stranded.
Qed.

#[global] Hint Resolve stranded_send : stranded.

Lemma stranded_processMessageQueue : keeps stranded_kept processMessageQueue.
Proof.
  assert (∀ fuel, keeps stranded_kept (processMessageQueue_loop fuel)) as H.
  { induction fuel as [|fuel IH]; simpl.
    - intros w. apply stranded_kept_refl.
    - stranded. }
  unfold processMessageQueue. stranded.
Qed.

#[global] Hint Resolve stranded_processMessageQueue : stranded.

Lemma stranded_handleMessage message : keeps stranded_kept (handleMessage message).
Proof.
  unfold handleMessage, handleSync, handleNotification, template, playNotificationSound,
    notify, call, member, enqueueSnackbar, console_error, console_warn.
  stranded.
Qed.

#[global] Hint Resolve stranded_handleMessage : stranded.

Lemma stranded_handle ev : keeps stranded_kept (handle ev).
Proof.
  destruct ev; simpl;
    unfold subscribe, waitForConnection, new_Promise, onopen, onmessage,
      onerror, onclose, reconnect_callback, ping_callback, visibilitychange,
      isConnected, startPingPong, stopPingPong, handleReconnect, setTimeout,
      setInterval, clearInterval, enqueueSnackbar, console_error, console_log;
    stranded.
Qed.

(** X4.  Once a promise is stored while no socket exists, which is the
    state a first [connect] leaves when the URL does not parse or the
    constructor throws, no sequence of calls and callbacks ever opens a
    transport: [disconnect] does nothing without a socket, and every
    [connect], retry or visibility change gets the stored promise back. *)
Theorem stranded_forever (w : World) (evs : list event) :
  stranded w →
  opened (run evs w).2 = [] ∧
  stranded (run evs w).1 ∧
  connectionPromise (this (run evs w).1) = connectionPromise (this w).
Proof.
  revert w. induction evs as [|ev evs IH]; intros w Hs; [done|].
  rewrite run_cons. simpl.
  destruct (stranded_handle ev w Hs) as (Hs1 & Hp1 & Ho1).
  assert (stranded (after (handle ev) w)) as Hs'.
  { split; [done|]. rewrite Hp1. apply Hs. }
  destruct (IH _ Hs') as (Ho2 & Hs2 & Hp2).
  unfold opened in *. rewrite omap_app, Ho1, Ho2.
  repeat split; try apply Hs2. congruence.
Qed.

Lemma stranded_forever_witness :
  opened
    (run [EDisconnect; EConnect updates_url; EVisibilityChange true;
          EReconnectTimer; EClose 1006 no_reason; EConnect updates_url]
       (after (connect "not a url") (boot no_parser))).2 = [] ∧
  stranded
    (run [EDisconnect; EConnect updates_url; EVisibilityChange true;
          EReconnectTimer; EClose 1006 no_reason; EConnect updates_url]
       (after (connect "not a url") (boot no_parser))).1 ∧
  connectionPromise
    (this
       (run [EDisconnect; EConnect updates_url; EVisibilityChange true;
             EReconnectTimer; EClose 1006 no_reason; EConnect updates_url]
          (after (connect "not a url") (boot no_parser))).1)
    = connectionPromise (this (after (connect "not a url") (boot no_parser))).
Proof.
  apply (stranded_forever (after (connect "not a url") (boot no_parser))).
  split; [reflexivity | discriminate].
Defined.

(** ** [disconnect] and the normal close *)

Lemma disconnect_socket sock w :
  socket (this w) = Some sock →
  disconnect w =
    (Ok tt,
     with_this
       (λ s, set_connectionPromise None
               (set_pingInterval None (set_connected false (set_socket None s))))
       w,
     SocketClose sock 1000 "User initiated disconnect"
       :: match pingInterval (this w) with
          | Some t => [ClearInterval t]
          | None => []
          end).
Proof.
  intros Hs. unfold disconnect, stopPingPong. unfold_M. rewrite Hs. simpl.
  destruct (pingInterval (this w)) eqn:Hping; simpl; [reflexivity|].
  do 2 f_equal. destruct w as [s e t n ps], s; simpl in *. by subst.
Qed.

(** X5.  [disconnect] with a socket closes it with code 1000, clears the
    socket, the connection flag, the keepalive timer and the stored
    promise, and touches neither the queue nor the retry counter; a second
    [disconnect] does nothing at all. *)
Theorem disconnect_clears (w : World) (sock : nat) :
  socket (this w) = Some sock →
  outcome disconnect w = Ok tt ∧
  effects disconnect w =
    SocketClose sock 1000 "User initiated disconnect"
      :: match pingInterval (this w) with
         | Some t => [ClearInterval t]
         | None => []
         end ∧
  socket (this (after disconnect w)) = None ∧
  connected (this (after disconnect w)) = false ∧
  pingInterval (this (after disconnect w)) = None ∧
  connectionPromise (this (after disconnect w)) = None ∧
  messageQueue (this (after disconnect w)) = messageQueue (this w) ∧
  subscribers (this (after disconnect w)) = subscribers (this w) ∧
  reconnectAttempts (this (after disconnect w)) = reconnectAttempts (this w) ∧
  disconnect (after disconnect w) = (Ok tt, after disconnect w, []).
Proof.
  intros Hs. unfold outcome, after, effects.
  rewrite (disconnect_socket sock w Hs). simpl. repeat split; done.
Qed.

Lemma disconnect_clears_witness :
  outcome disconnect (online []) = Ok tt ∧
  effects disconnect (online []) =
    SocketClose 1 1000 "User initiated disconnect"
      :: match pingInterval (this (online [])) with
         | Some t => [ClearInterval t]
         | None => []
         end ∧
  socket (this (after disconnect (online []))) = None ∧
  connected (this (after disconnect (online []))) = false ∧
  pingInterval (this (after disconnect (online []))) = None ∧
  connectionPromise (this (after disconnect (online []))) = None ∧
  messageQueue (this (after disconnect (online [])))
    = messageQueue (this (online [])) ∧
  subscribers (this (after disconnect (online [])))
    = subscribers (this (online [])) ∧
  reconnectAttempts (this (after disconnect (online [])))
    = reconnectAttempts (this (online [])) ∧
  disconnect (after disconnect (online []))
    = (Ok tt, after disconnect (online []), []).
Proof. apply (disconnect_clears (online []) 1). reflexivity. Defined.

(** X6.  After [disconnect] a [connect] starts afresh: with a URL that
    parses and a constructor that accepts it, it opens a new transport and
    returns a new, pending promise, whatever promise was stored before. *)
Theorem connect_after_disconnect (w : World) (sock : nat) (url : string)
    (u : URL) :
  socket (this w) = Some sock →
  oracle_URL (env w) url = Some u →
  oracle_WebSocket_throws (env w) (connect_target w u) = false →
  opened (effects (connect url) (after disconnect w)) = [connect_target w u] ∧
  outcome (connect url) (after disconnect w) = Ok (next_id w) ∧
  promises (after (connect url) (after disconnect w)) !! next_id w
    = Some Pending ∧
  socket (this (after (connect url) (after disconnect w)))
    = Some (S (next_id w)).
Proof.
  intros Hs Hu Hc.
  assert (after disconnect w =
    with_this
      (λ s, set_connectionPromise None
              (set_pingInterval None (set_connected false (set_socket None s))))
      w) as Hd
    by (unfold after; by rewrite (disconnect_socket sock w Hs)).
  destruct (connect_fresh_ok (after disconnect w) url u)
    as (Hok & He & Hsock & _ & _ & Hp & _); rewrite ?Hd; try done.
  rewrite Hd in *. unfold opened. rewrite He. simpl. repeat split; done.
Qed.

Lemma connect_after_disconnect_witness :
  opened (effects (connect updates_url) (after disconnect (online [])))
    = [connect_target (online []) (MkURL updates_url [])] ∧
  outcome (connect updates_url) (after disconnect (online []))
    = Ok (next_id (online [])) ∧
  promises (after (connect updates_url) (after disconnect (online [])))
    !! next_id (online []) = Some Pending ∧
  socket (this (after (connect updates_url) (after disconnect (online []))))
    = Some (S (next_id (online []))).
Proof.
  apply (connect_after_disconnect (online []) 1 updates_url
           (MkURL updates_url [])); reflexivity.
Defined.

(** X7.  A close with the normal-closure code 1000 marks the service
    disconnected and stops the keepalive, and that is all: no retry is
    scheduled, nothing is shown to the user, and the retry counter stays. *)
Theorem normal_close_is_final (w : World) (reason : string) :
  outcome (onclose 1000 reason) w = Ok tt ∧
  timeouts (effects (onclose 1000 reason) w) = [] ∧
  notices (effects (onclose 1000 reason) w) = [] ∧
  connected (this (after (onclose 1000 reason) w)) = false ∧
  pingInterval (this (after (onclose 1000 reason) w)) = None ∧
  reconnectAttempts (this (after (onclose 1000 reason) w))
    = reconnectAttempts (this w) ∧
  connectionPromise (this (after (onclose 1000 reason) w))
    = connectionPromise (this w).
Proof.
  unfold outcome, after, effects, onclose, stopPingPong. unfold_M. simpl.
  destruct (pingInterval (this w)) eqn:Hping; simpl;
    repeat split; done.
Qed.

(** X8.  Retries are scheduled, and the retry counter is changed, by the
    close and open callbacks only: a transport error, a message, a timer, a
    visibility change or any call of the interface sets no timeout and
    leaves [reconnectAttempts] and [maxReconnectAttempts] as they are. *)
Theorem only_close_schedules (ev : event) (w : World) :
  counter_event ev = false →
  timeouts (effects (handle ev) w) = [] ∧
  reconnectAttempts (this (after (handle ev) w)) = reconnectAttempts (this w) ∧
  maxReconnectAttempts (this (after (handle ev) w))
    = maxReconnectAttempts (this w).
Proof.
  intros Hev. destruct (quiet_handle ev Hev w) as (Ha & Hm & Ht). done.
Qed.

Lemma only_close_schedules_witness :
  timeouts (effects (handle (EError 0)) (online [])) = [] ∧
  reconnectAttempts (this (after (handle (EError 0)) (online [])))
    = reconnectAttempts (this (online [])) ∧
  maxReconnectAttempts (this (after (handle (EError 0)) (online [])))
    = maxReconnectAttempts (this (online [])).
Proof. apply (only_close_schedules (EError 0) (online [])). reflexivity. Defined.

(** X9.  The backoff delay is 1000 * 2^n ms below five attempts and 30000
    ms from five on; it never decreases as the attempts grow and stays
    between 1000 and 30000 ms. *)
Theorem backoff_bounds (n m : nat) :
  (n ≤ m)%nat →
  backoff_delay n
    = (if bool_decide (5 ≤ n)%nat then 30000 else 1000 * 2 ^ Z.of_nat n) ∧
  1000 ≤ backoff_delay n ∧
  backoff_delay n ≤ backoff_delay m ∧
  backoff_delay m ≤ 30000.
Proof.
  intros Hnm. unfold backoff_delay.
  assert (∀ a b : nat, (a ≤ b)%nat → 2 ^ Z.of_nat a ≤ 2 ^ Z.of_nat b) as Hmono
    by (intros a b Hab; apply Z.pow_le_mono_r; lia).
  pose proof (Hmono 0%nat n ltac:(lia)) as H0. simpl in H0.
  pose proof (Hmono n m Hnm) as H1.
  repeat split.
  - case_bool_decide as H5.
    + pose proof (Hmono 5%nat n H5) as H2.
      change (2 ^ Z.of_nat 5) with 32 in H2. lia.
    + assert (n = 0 ∨ n = 1 ∨ n = 2 ∨ n = 3 ∨ n = 4)%nat
        as [->|[->|[->|[->| ->]]]] by lia; reflexivity.
  - lia.
  - lia.
  - lia.
Qed.

Lemma backoff_bounds_witness :
  backoff_delay 3
    = (if bool_decide (5 ≤ 3)%nat then 30000 else 1000 * 2 ^ Z.of_nat 3) ∧
  1000 ≤ backoff_delay 3 ∧
  backoff_delay 3 ≤ backoff_delay 7 ∧
  backoff_delay 7 ≤ 30000.
Proof. apply (backoff_bounds 3 7). lia. Defined.

(** ** The keepalive timer *)

Lemma active_intervals_app e1 e2 active :
  active_intervals (e1 ++ e2) active
    = active_intervals e2 (active_intervals e1 active).
Proof.
  revert active. induction e1 as [|e e1 IH]; intros active; [done|].
  destruct e; simpl; apply IH.
Qed.

Lemma interval_kept_refl w : interval_kept w w [].
Proof. done. Qed.

Lemma interval_kept_trans w1 w2 w3 e1 e2 :
  interval_kept w1 w2 e1 → interval_kept w2 w3 e2 →
  interval_kept w1 w3 (e1 ++ e2).
Proof.
  unfold interval_kept. intros H12 H23.
  by rewrite active_intervals_app, H12, H23.
Qed.

Create HintDb interval.

Ltac interval :=
  repeat first
    [ solve [ auto with interval ]
    | keeps_step interval_kept_refl interval_kept_trans ].

Lemma interval_assign f :
  (∀ s, pingInterval (f s) = pingInterval s) →
  keeps interval_kept (assign f).
Proof. intros Hf w. unfold interval_kept. simpl. by rewrite Hf. Qed.

Lemma interval_emit e :
  (∀ t d, e ≠ SetInterval t d) → (∀ t, e ≠ ClearInterval t) →
  keeps interval_kept (emit e).
Proof.
  intros Hs Hc w. unfold interval_kept. simpl.
  destruct e; try done; [by destruct (Hs timer period) | by destruct (Hc timer)].
Qed.

Lemma interval_next_tick : keeps interval_kept next_tick.
Proof. by intros w. Qed.

Lemma interval_fresh_id : keeps interval_kept fresh_id.
Proof. by intros w. Qed.

Lemma interval_set_promise p st : keeps interval_kept (set_promise p st).
Proof. by intros w. Qed.

Lemma interval_settle st p : keeps interval_kept (settle st p).
Proof.
  intros w. unfold interval_kept, after, effects, settle.
  destruct (promises w !! p) as [[]|]; done.
Qed.

Lemma interval_resolve p : keeps interval_kept (resolve p).
Proof. apply interval_settle. Qed.

Lemma interval_reject p : keeps interval_kept (reject p).
Proof. apply interval_settle. Qed.

(** [startPingPong] stops the running timer before it starts a new one. *)
Lemma interval_startPingPong : keeps interval_kept startPingPong.
Proof.
  intros w. unfold interval_kept, after, effects, startPingPong. unfold_M.
  destruct (pingInterval (this w)) as [t|]; simpl; [|done].
  rewrite filter_cons, decide_False by (intros H; by apply H). done.
Qed.

Lemma interval_stopPingPong : keeps interval_kept stopPingPong.
Proof.
  intros w. unfold interval_kept, after, effects, stopPingPong. unfold_M.
  destruct (pingInterval (this w)) as [t|] eqn:Hp; simpl; [|by rewrite Hp].
  rewrite filter_cons, decide_False by (intros H; by apply H). done.
Qed.

#[global] Hint Resolve interval_next_tick interval_fresh_id
  interval_set_promise interval_settle interval_resolve interval_reject
  interval_startPingPong interval_stopPingPong : interval.
#[global] Hint Extern 1 (keeps interval_kept (assign _)) =>
  (apply interval_assign; intros ?; reflexivity) : interval.
#[global] Hint Extern 1 (keeps interval_kept (emit _)) =>
  (apply interval_emit; [intros ? ? | intros ?]; discriminate) : interval.

Lemma interval_send message : keeps interval_kept (send message).
Proof.
  unfold send, uuidv4, Date_toISOString, socket_send, console_error.
  interval.
Qed.

#[global] Hint Resolve interval_send : interval.

Lemma interval_processMessageQueue : keeps interval_kept processMessageQueue.
Proof.
  assert (∀ fuel, keeps interval_kept (processMessageQueue_loop fuel)) as H.
  { induction fuel as [|fuel IH]; simpl.
    - intros w. apply interval_kept_refl.
    - interval. }
  unfold processMessageQueue. interval.
Qed.

#[global] Hint Resolve interval_processMessageQueue : interval.

Lemma interval_connect url : keeps interval_kept (connect url).
Proof.
  unfold connect, new_Promise, localStorage_getItem_token, new_URL,
    new_WebSocket, console_error.
  interval.
Qed.

#[global] Hint Resolve interval_connect : interval.

Lemma interval_handle ev : keeps interval_kept (handle ev).
Proof.
  destruct ev; simpl;
    unfold disconnect, subscribe, waitForConnection, new_Promise,
      onopen, onmessage, onerror, onclose, reconnect_callback, ping_callback,
      visibilitychange, isConnected, handleReconnect, handleMessage,
      handleSync, handleNotification, template, playNotificationSound, notify, call,
      member, setTimeout, enqueueSnackbar, console_error, console_log,
      console_warn;
    interval.
Qed.

(** X10.  Along every run, the keepalive timers that are running are
    exactly the one recorded in [pingInterval], if any: there is never more
    than one, because [startPingPong] clears the previous timer before it
    sets the next, and [stopPingPong] clears the one it forgets. *)
Theorem one_keepalive_timer (w : World) (evs : list event) :
  active_intervals (run evs w).2 (option_list (pingInterval (this w)))
    = option_list (pingInterval (this (run evs w).1)) ∧
  (length (active_intervals (run evs w).2
             (option_list (pingInterval (this w)))) ≤ 1)%nat.
Proof.
  assert (active_intervals (run evs w).2 (option_list (pingInterval (this w)))
          = option_list (pingInterval (this (run evs w).1))) as H.
  { revert w. induction evs as [|ev evs IH]; intros w; [done|].
    rewrite run_cons. simpl.
    rewrite active_intervals_app, (interval_handle ev w). apply IH. }
  split; [done|]. rewrite H.
  destruct (pingInterval (this (run evs w).1)); simpl; lia.
Qed.

(** ** What changes the queue *)

Lemma queue_kept_refl w : queue_kept w w [].
Proof. done. Qed.

Lemma queue_kept_trans w1 w2 w3 e1 e2 :
  queue_kept w1 w2 e1 → queue_kept w2 w3 e2 → queue_kept w1 w3 (e1 ++ e2).
Proof. unfold queue_kept. congruence. Qed.

Create HintDb queue.

Ltac queue :=
  repeat first
    [ solve [ auto with queue ]
    | keeps_step queue_kept_refl queue_kept_trans ].

Lemma queue_assign f :
  (∀ s, messageQueue (f s) = messageQueue s) → keeps queue_kept (assign f).
Proof. intros Hf w. apply Hf. Qed.

Lemma queue_emit e : keeps queue_kept (emit e).
Proof. by intros w. Qed.

Lemma queue_next_tick : keeps queue_kept next_tick.
Proof. by intros w. Qed.

Lemma queue_fresh_id : keeps queue_kept fresh_id.
Proof. by intros w. Qed.

Lemma queue_set_promise p st : keeps queue_kept (set_promise p st).
Proof. by intros w. Qed.

Lemma queue_settle st p : keeps queue_kept (settle st p).
Proof.
  intros w. unfold queue_kept, after, settle.
  destruct (promises w !! p) as [[]|]; done.
Qed.

Lemma queue_resolve p : keeps queue_kept (resolve p).
Proof. apply queue_settle. Qed.

Lemma queue_reject p : keeps queue_kept (reject p).
Proof. apply queue_settle. Qed.

#[global] Hint Resolve queue_emit queue_next_tick queue_fresh_id
  queue_set_promise queue_settle queue_resolve queue_reject : queue.
#[global] Hint Extern 1 (keeps queue_kept (assign _)) =>
  (apply queue_assign; intros ?; reflexivity) : queue.

Lemma queue_connect url : keeps queue_kept (connect url).
Proof.
  unfold connect, new_Promise, localStorage_getItem_token, new_URL,
    new_WebSocket, console_error.
  queue.
Qed.

#[global] Hint Resolve queue_connect : queue.

(** While connected, [send] leaves the service object as it is. *)
Lemma send_connected_this message w :
  connected (this w) = true → this (after (send message) w) = this w.
Proof.
  intros Hc. unfold after. destruct (socket (this w)) as [sock|] eqn:Hs.
  - rewrite (send_connected message w sock Hc Hs).
    by destruct (oracle_send_throws _ _ _).
  - by rewrite (send_no_socket message w Hc Hs).
Qed.

Lemma queue_ping_callback : keeps queue_kept ping_callback.
Proof.
  intros w. unfold queue_kept.
  destruct (connected (this w)) eqn:Hc.
  - pose proof (send_connected_this {[ "type" := VStr "ping" ]} w Hc) as H.
    unfold after, ping_callback in *. unfold_M. rewrite Hc.
    destruct (send _ w) as [[[b|e|] w1] e1]; simpl in *; by rewrite H.
  - unfold after, ping_callback. unfold_M. by rewrite Hc.
Qed.

(** X11.  The queue is changed by two things only: a [send] made while not
    connected appends its message, and the drain in [onopen] empties it.
    Every other call or callback (connect, disconnect, close, error, inbound
    message, retry timer, keepalive timer, visibility change, a [send] while
    connected) leaves the queue exactly as it was. *)
Theorem queue_changes_by_send_only (ev : event) (w : World) :
  is_open ev = false →
  messageQueue (this (after (handle ev) w)) =
    match ev with
    | ESend message =>
        if connected (this w) then messageQueue (this w)
        else messageQueue (this w) ++ [message]
    | _ => messageQueue (this w)
    end.
Proof.
  intros Hev.
  destruct ev; try discriminate; simpl handle;
    try (match goal with
         | |- messageQueue (this (after ?c w)) = _ =>
             assert (keeps queue_kept c) as Hk;
               [| exact (Hk w)]
         end;
         unfold disconnect, subscribe, waitForConnection, new_Promise,
           onmessage, onerror, onclose, reconnect_callback, visibilitychange,
           isConnected, stopPingPong, handleReconnect, handleMessage,
           handleSync, handleNotification, template, playNotificationSound, notify,
           call, member, setTimeout, clearInterval, enqueueSnackbar,
           console_error, console_log, console_warn;
         first [ apply queue_ping_callback | solve [queue] ]).
  unfold mbind, M_bind. rewrite after_bind. 
  destruct (connected (this w)) eqn:Hc.
  - pose proof (send_connected_this message w Hc) as H.
    destruct (outcome (send message) w); simpl; by rewrite ?after_ret, H.
  - unfold outcome. rewrite (send_disconnected message w Hc). simpl.
    unfold after. by rewrite (send_disconnected message w Hc).
Qed.

Lemma queue_changes_by_send_only_witness :
  messageQueue (this (after (handle EDisconnect) (queued []))) =
    match EDisconnect with
    | ESend message =>
        if connected (this (queued [])) then messageQueue (this (queued []))
        else messageQueue (this (queued [])) ++ [message]
    | _ => messageQueue (this (queued []))
    end.
Proof.
  apply (queue_changes_by_send_only EDisconnect (queued [])). reflexivity.
Defined.

(** X12.  The keepalive callback never queues a ping: while the service is
    not connected it does nothing at all, and while it is connected it hands
    exactly one envelope of type [ping] to the socket (or logs the failure
    of that transmission). *)
Theorem ping_not_queued (w : World) :
  outcome ping_callback w = Ok tt ∧
  messageQueue (this (after ping_callback w)) = messageQueue (this w) ∧
  effects ping_callback w =
    if connected (this w) then
      match socket (this w) with
      | Some sock =>
          if oracle_send_throws (env w) (S (S (tick w)))
               (envelope_at w {[ "type" := VStr "ping" ]})
          then [ConsoleError "Error sending WebSocket message:"]
          else [SocketSend sock (envelope_at w {[ "type" := VStr "ping" ]})]
      | None => [ConsoleError "Error sending WebSocket message:"]
      end
    else [].
Proof.
  split; [|split; [apply queue_ping_callback|]].
  - unfold outcome, ping_callback. unfold_M.
    destruct (connected (this w)) eqn:Hc; [|done].
    destruct (socket (this w)) as [sock|] eqn:Hs.
    + rewrite (send_connected _ w sock Hc Hs).
      by destruct (oracle_send_throws _ _ _).
    + by rewrite (send_no_socket _ w Hc Hs).
  - unfold effects, ping_callback. unfold_M.
    destruct (connected (this w)) eqn:Hc; [|done].
    destruct (socket (this w)) as [sock|] eqn:Hs.
    + rewrite (send_connected _ w sock Hc Hs).
      destruct (oracle_send_throws _ _ _); simpl; by rewrite ?app_nil_r.
    + by rewrite (send_no_socket _ w Hc Hs).
Qed.

(** ** Callers waiting for the connection *)

Lemma waiting_kept_refl w : waiting_kept w w [].
Proof. done. Qed.

Lemma waiting_kept_trans w1 w2 w3 e1 e2 :
  waiting_kept w1 w2 e1 → waiting_kept w2 w3 e2 →
  waiting_kept w1 w3 (e1 ++ e2).
Proof. intros [H1 H2] [H3 H4]. split; congruence. Qed.

Create HintDb waiting.

Ltac waiting :=
  repeat first
    [ solve [ auto with waiting ]
    | keeps_step waiting_kept_refl waiting_kept_trans ].

Lemma waiting_assign f :
  (∀ s, connectionResolvers (f s) = connectionResolvers s) →
  keeps waiting_kept (assign f).
Proof. intros Hf w. split; [done | apply Hf]. Qed.

Lemma waiting_emit e : keeps waiting_kept (emit e).
Proof. by intros w. Qed.

Lemma waiting_next_tick : keeps waiting_kept next_tick.
Proof. by intros w. Qed.

Lemma waiting_fresh_id : keeps waiting_kept fresh_id.
Proof. by intros w. Qed.

#[global] Hint Resolve waiting_emit waiting_next_tick waiting_fresh_id
  : waiting.
#[global] Hint Extern 1 (keeps waiting_kept (assign _)) =>
  (apply waiting_assign; intros ?; reflexivity) : waiting.

Lemma waiting_send message : keeps waiting_kept (send message).
Proof.
  unfold send, uuidv4, Date_toISOString, socket_send, console_error.
  waiting.
Qed.

#[global] Hint Resolve waiting_send : waiting.

Lemma waiting_processMessageQueue : keeps waiting_kept processMessageQueue.
Proof.
  assert (∀ fuel, keeps waiting_kept (processMessageQueue_loop fuel)) as H.
  { induction fuel as [|fuel IH]; simpl.
    - intros w. apply waiting_kept_refl.
    - waiting. }
  unfold processMessageQueue. waiting.
Qed.

Lemma waiting_startPingPong : keeps waiting_kept startPingPong.
Proof. unfold startPingPong, clearInterval, setInterval. waiting. Qed.

(** A promise that is pending or fulfilled. *)
Lemma settle_fulfilled_other x p w :
  promises w !! p = Some Fulfilled →
  promises (after (settle Fulfilled x) w) !! p = Some Fulfilled.
Proof.
  intros Hp. unfold after, settle.
  destruct (promises w !! x) as [[]|] eqn:Hx; simpl; try done.
  destruct (decide (x = p)) as [->|Hne]; [congruence|].
  by rewrite lookup_insert_ne.
Qed.

Lemma settle_fulfilled_pending x p w :
  promises w !! p = Some Pending →
  promises (after (settle Fulfilled x) w) !! p
    = Some (if decide (x = p) then Fulfilled else Pending).
Proof.
  intros Hp. unfold after, settle.
  destruct (decide (x = p)) as [->|Hne].
  - rewrite Hp. simpl. apply lookup_insert_eq.
  - destruct (promises w !! x) as [[]|] eqn:Hx; simpl; try done.
    by rewrite lookup_insert_ne.
Qed.

(** Resolving a list of waiting callers fulfils each pending one. *)
Lemma forEach_resolve_fulfils ps : ∀ p w,
  (promises w !! p = Some Fulfilled
   ∨ (promises w !! p = Some Pending ∧ p ∈ ps)) →
  promises (after (forEach ps resolve) w) !! p = Some Fulfilled.
Proof.
  induction ps as [|x ps IH]; intros p w Hp.
  - destruct Hp as [Hp|[_ Hin]]; [done | by apply elem_of_nil in Hin].
  - simpl forEach. unfold mbind, M_bind. rewrite after_bind.
    change (resolve x) with (settle Fulfilled x).
    rewrite settle_ok. apply IH.
    destruct Hp as [Hp|[Hp Hin]].
    + left. by apply settle_fulfilled_other.
    + rewrite (settle_fulfilled_pending x p w Hp).
      destruct (decide (x = p)) as [->|Hne]; [by left|].
      right. split; [done|]. apply elem_of_cons in Hin as [->|Hin]; done.
Qed.

Lemma resolve_waiting_fulfils q p w :
  promises w !! p = Some Pending →
  p ∈ connectionResolvers (this w) →
  promises (after (resolve_waiting q) w) !! p = Some Fulfilled ∧
  connectionResolvers (this (after (resolve_waiting q) w)) = [].
Proof.
  intros Hp Hin. unfold resolve_waiting, mbind, M_bind.
  rewrite after_bind. autorewrite with prim. cbv iota.
  rewrite after_bind, forEach_resolve_ok.
  rewrite after_bind. autorewrite with prim. cbv iota.
  pose proof (forEach_resolve_fulfils (connectionResolvers (this w)) p w
                (or_intror (conj Hp Hin))) as Hf.
  set (w1 := after (forEach (connectionResolvers (this w)) resolve) w) in *.
  split.
  - unfold resolve. apply settle_fulfilled_other. exact Hf.
  - unfold resolve, after, settle. simpl.
    by destruct (promises w1 !! q) as [[]|].
Qed.

(** ** The drain always ends *)

Lemma send_ok message w : ∃ b, outcome (send message) w = Ok b.
Proof.
  unfold outcome. destruct (connected (this w)) eqn:Hc.
  - destruct (socket (this w)) as [sock|] eqn:Hs.
    + rewrite (send_connected message w sock Hc Hs).
      destruct (oracle_send_throws _ _ _); eauto.
    + rewrite (send_no_socket message w Hc Hs). eauto.
  - rewrite (send_disconnected message w Hc). eauto.
Qed.

(** Each turn of the loop takes one message off the queue, and a [send]
    made while connected puts none back: the fuel is never used up. *)
Lemma processMessageQueue_loop_ends fuel : ∀ w,
  (length (messageQueue (this w)) < fuel)%nat →
  outcome (processMessageQueue_loop fuel) w = Ok tt ∧
  messageQueue (this (after (processMessageQueue_loop fuel) w))
    = (if connected (this w) then [] else messageQueue (this w)) ∧
  connected (this (after (processMessageQueue_loop fuel) w))
    = connected (this w).
Proof.
  induction fuel as [|fuel IH]; intros w Hlen; [lia|].
  simpl processMessageQueue_loop. unfold mbind, M_bind, mret, M_ret.
  rewrite outcome_bind, !after_bind. autorewrite with prim. cbv iota.
  destruct (messageQueue (this w)) as [|m rest] eqn:Hq.
  { autorewrite with prim. rewrite Hq. by destruct (connected (this w)). }
  destruct (connected (this w)) eqn:Hc;
    [|autorewrite with prim; by rewrite Hq, Hc].
  rewrite ?outcome_bind, ?after_bind. autorewrite with prim. cbv iota.
  set (w1 := with_this (set_messageQueue rest) w).
  destruct (send_ok m w1) as [b Hb].
  pose proof (send_connected_this m w1 Hc) as Hthis.
  rewrite ?outcome_bind, ?after_bind, Hb.
  destruct (IH (after (send m) w1)) as (Hok & Hq' & Hc').
  { rewrite Hthis. simpl in *. lia. }
  rewrite Hok, Hq', Hc', Hthis. simpl. by rewrite Hc.
Qed.

(** X13.  [waitForConnection] while connected returns a promise that is
    already fulfilled and registers nothing.  While not connected it returns
    a pending promise and appends it to the waiting callers; the next
    [onopen] fulfils it and empties the list of waiting callers. *)
Theorem wait_for_connection (w : World) :
  outcome waitForConnection w = Ok (next_id w) ∧
  if connected (this w) then
    promises (after waitForConnection w) !! next_id w = Some Fulfilled ∧
    this (after waitForConnection w) = this w
  else
    promises (after waitForConnection w) !! next_id w = Some Pending ∧
    connectionResolvers (this (after waitForConnection w))
      = connectionResolvers (this w) ++ [next_id w] ∧
    ∀ q,
      promises (after (onopen q) (after waitForConnection w)) !! next_id w
        = Some Fulfilled ∧
      connectionResolvers (this (after (onopen q) (after waitForConnection w)))
        = [].
Proof.
  unfold outcome, after, waitForConnection, new_Promise, resolve, settle.
  unfold_M. simpl.
  destruct (connected (this w)) eqn:Hc; simpl.
  - rewrite lookup_insert_eq. simpl. split; [done|]. split; [|done].
    apply lookup_insert_eq.
  - split; [done|]. split; [apply lookup_insert_eq|]. split; [done|].
    intros q.
    set (w0 := with_this
                 (λ s, set_connectionResolvers
                         (connectionResolvers s ++ [next_id w]) s)
                 (with_promises (<[next_id w := Pending]> (promises w))
                    (with_next_id (S (next_id w)) w))).
    change (promises (after (onopen q) w0) !! next_id w = Some Fulfilled ∧
            connectionResolvers (this (after (onopen q) w0)) = []).
    change (onopen q) with
      (bind (emit (ConsoleLog "WebSocket connected")) (λ _,
       bind (assign (set_connected true)) (λ _,
       bind (assign (set_reconnectAttempts 0%nat)) (λ _,
       bind startPingPong (λ _,
       bind processMessageQueue (λ _, resolve_waiting q)))))).
    do 3 seq_step. rewrite after_bind, startPingPong_ok.
    set (w1 := with_this (set_reconnectAttempts 0%nat)
                 (with_this (set_connected true) w0)).
    destruct (waiting_startPingPong w1) as (Hp1 & Hr1).
    set (w2 := after startPingPong w1) in *.
    destruct (waiting_processMessageQueue w2) as (Hp2 & Hr2).
    rewrite after_bind.
    assert (promises (after processMessageQueue w2) !! next_id w = Some Pending)
      as Hpend by (rewrite Hp2, Hp1; apply lookup_insert_eq).
    assert (next_id w ∈ connectionResolvers (this (after processMessageQueue w2)))
      as Hin by (rewrite Hr2, Hr1; simpl; set_solver).
    destruct (processMessageQueue_loop_ends
                (S (length (messageQueue (this w2)))) w2 ltac:(lia))
      as (Hok & _).
    unfold outcome in Hok |- *. rewrite processMessageQueue_fuel, Hok.
    by apply resolve_waiting_fulfils.
Qed.

(** X14.  The drain always ends and never throws, whatever the socket and
    whatever the transport does: while connected it leaves the queue empty,
    while not connected it does nothing.  So [onopen] always completes: the
    service is connected, the retry counter is 0, the queue is empty and no
    caller is left waiting. *)
Theorem drain_always_ends (w : World) (p : nat) :
  outcome processMessageQueue w = Ok tt ∧
  (if connected (this w)
   then messageQueue (this (after processMessageQueue w)) = []
   else processMessageQueue w = (Ok tt, w, [])) ∧
  outcome (onopen p) w = Ok tt ∧
  connected (this (after (onopen p) w)) = true ∧
  reconnectAttempts (this (after (onopen p) w)) = 0%nat ∧
  messageQueue (this (after (onopen p) w)) = [] ∧
  connectionResolvers (this (after (onopen p) w)) = [].
Proof.
  assert (∀ w0, outcome processMessageQueue w0 = Ok tt ∧
                messageQueue (this (after processMessageQueue w0))
                  = (if connected (this w0) then []
                     else messageQueue (this w0)) ∧
                connected (this (after processMessageQueue w0))
                  = connected (this w0)) as Hdrain.
  { intros w0. unfold outcome, after. rewrite processMessageQueue_fuel.
    apply processMessageQueue_loop_ends. lia. }
  split; [apply Hdrain|]. split.
  { destruct (connected (this w)) eqn:Hc.
    - destruct (Hdrain w) as (_ & Hq & _). by rewrite Hc in Hq.
    - rewrite processMessageQueue_fuel. simpl. unfold_M. simpl.
      rewrite Hc. by destruct (messageQueue (this w)). }
  destruct (onopen_resets p w) as [Hres _].
  split; [|split; [|split; [exact Hres|]]].
  all: change (onopen p) with
      (bind (emit (ConsoleLog "WebSocket connected")) (λ _,
       bind (assign (set_connected true)) (λ _,
       bind (assign (set_reconnectAttempts 0%nat)) (λ _,
       bind startPingPong (λ _,
       bind processMessageQueue (λ _, resolve_waiting p)))))).
  all: do 3 seq_step.
  all: rewrite ?outcome_bind, ?after_bind, startPingPong_ok.
  all: set (w1 := with_this (set_reconnectAttempts 0%nat)
                    (with_this (set_connected true) w)).
  all: destruct (link_startPingPong w1) as (Hq1 & Hc1 & _).
  all: destruct (Hdrain (after startPingPong w1)) as (Hok & Hq2 & Hc2).
  all: rewrite Hok.
  all: destruct (link_resolve_waiting p
                   (after processMessageQueue (after startPingPong w1)))
         as (Hq3 & Hc3 & _).
  - apply resolve_waiting_ok.
  - rewrite Hc3, Hc2, Hc1. reflexivity.
  - split; [rewrite Hq3, Hq2, Hc1; reflexivity|].
    unfold resolve_waiting, mbind, M_bind.
    rewrite after_bind. autorewrite with prim. cbv iota.
    rewrite after_bind, forEach_resolve_ok.
    rewrite after_bind. autorewrite with prim. cbv iota.
    unfold resolve, after, settle. simpl.
    by destruct (promises _ !! p) as [[]|].
Qed.

(** ** More of the dispatcher *)

(** [handleMessage] on a message that is neither [null] nor [undefined],
    branch by branch. *)
Lemma handleMessage_branches message w :
  message ≠ VUndefined → message ≠ VNull →
  handleMessage message w =
    if is_str (prop message "type") "pong" then (Ok tt, w, [])
    else if is_str (prop message "type") "error" then
      (Ok tt, w,
       [ConsoleError "WebSocket error:";
        Snackbar (js_or (prop message "error") (VStr "An error occurred"))
          "error" None None])
    else if is_str (prop message "type") "notification"
    then handleNotification message w
    else if is_str (prop message "type") "sync" then handleSync message w
    else
      (Ok tt, w,
       concat
         (map (notified
                 ("Error in WebSocket subscriber for "
                    +:+ ToString (prop message "type") +:+ ":")
                 (prop message "data"))
            (default [] (subscribers_get (this w) (prop message "type"))))).
Proof.
  intros Hu Hn. unfold handleMessage, mbind, M_bind.
  assert (member message "type" = ret (prop message "type")) as ->
    by (by destruct message).
  rewrite bind_ret_l.
  destruct (is_str (prop message "type") "pong"); [reflexivity|].
  destruct (is_str (prop message "type") "error"); [reflexivity|].
  destruct (is_str (prop message "type") "notification"); [reflexivity|].
  destruct (is_str (prop message "type") "sync"); [reflexivity|].
  rewrite bind_get_this. apply forEach_notify.
Qed.

Lemma handleSync_run message w :
  message ≠ VUndefined → message ≠ VNull →
  let d := js_or (prop message "data") (VObj ∅) in
  handleSync message w =
    if is_str (prop d "operation") "create"
       || is_str (prop d "operation") "update"
       || is_str (prop d "operation") "delete"
    then
      if unprintable (prop d "collection") then (Throw "TypeError", w, [])
      else
        (Ok tt, w,
         concat
           (map (notified
                   ("Error in sync subscriber for "
                      +:+ printed (env w) (prop d "collection") +:+ ":")
                   (VObj {[ "operation" := prop d "operation";
                            "data" := prop d "data" ]}))
              (default []
                 (subscribers (this w)
                    !! ("sync:" +:+ printed (env w) (prop d "collection"))))))
    else
      if unprintable (prop d "operation") then (Throw "TypeError", w, [])
      else
        (Ok tt, w,
         [ConsoleWarn
            ("Unknown sync operation: " +:+
             printed (env w) (prop d "operation"))]).
Proof.
  intros Hu Hn d. unfold handleSync, mbind, M_bind.
  assert (member message "data" = ret (prop message "data")) as ->
    by (by destruct message).
  rewrite bind_ret_l. cbv zeta. fold d.
  destruct (_ || _).
  - rewrite bind_get_this. unfold bind. rewrite template_run.
    destruct (unprintable _); [done|]. by rewrite forEach_notify.
  - unfold bind. rewrite template_run. by destruct (unprintable _).
Qed.

(** The level of a notification: ['info'] when the payload has none. *)
Lemma handleNotification_run message w :
  message ≠ VUndefined → message ≠ VNull →
  let d := js_or (prop message "data") (VObj ∅) in
  let level := match prop d "level" with
               | VUndefined => VStr "info"
               | l => l
               end in
  let text := js_or (prop d "content") (prop d "title") in
  let duration := Some (if is_str level "error" then 10000 else 5000) in
  let button := if truthy (prop d "action")
                then Some (js_or (prop (prop d "action") "label") (VStr "View"))
                else None in
  handleNotification message w =
    if unprintable level then (Throw "TypeError", w, [])
    else
      (Ok tt, w,
       match variantMap !! printed (env w) level with
       | Some variant => Snackbar text variant duration button
       | None =>
           if bool_decide (printed (env w) level ∈ Object_prototype)
           then SnackbarInherited text (printed (env w) level) duration button
           else Snackbar text "info" duration button
       end
       :: if is_str level "warning" || is_str level "error"
          then [PlaySound] else []).
Proof.
  intros Hu Hn d level text duration button.
  unfold handleNotification, mbind, M_bind.
  assert (member message "data" = ret (prop message "data")) as ->
    by (by destruct message).
  rewrite bind_ret_l. cbv zeta. fold d. fold level.
  unfold bind at 1. rewrite template_run.
  destruct (unprintable level); [done|].
  unfold playNotificationSound. unfold_M. simpl.
  destruct (variantMap !! _); [by destruct (_ || _)|].
  destruct (bool_decide (_ ∈ Object_prototype)); by destruct (_ || _).
Qed.

(** Whatever [handleMessage] does, [onmessage] returns: an exception is
    reported on the console. *)
Lemma onmessage_any message w r es :
  handleMessage message w = (r, w, es) →
  r ≠ OutOfFuel →
  ∃ es', onmessage (Some message) w = (Ok tt, w, es') ∧ calls es' = calls es.
Proof.
  intros H Hr. unfold onmessage, try_catch. rewrite H.
  destruct r as [[]|e|]; [by eexists| |done].
  eexists. split; [done|]. simpl. unfold calls.
  by rewrite omap_app, app_nil_r.
Qed.

Lemma onmessage_run message w r w' es :
  handleMessage message w = (r, w', es) →
  (∀ e, r ≠ Throw e) →
  onmessage (Some message) w = (r, w', es).
Proof.
  intros H Hr. unfold onmessage. rewrite try_catch_ok; [done|].
  intros e. unfold outcome. rewrite H. apply Hr.
Qed.

(** X15.  A frame that does not parse, or that parses to [null], is
    reported on the console and dropped: no subscriber is called, nothing is
    shown to the user, the service is left as it was and the connection
    stays as it is. *)
Theorem undecodable_frame_dropped (w : World) (data : option value) :
  data = None ∨ data = Some VNull →
  onmessage data w
    = (Ok tt, w, [ConsoleError "Error parsing WebSocket message:"]).
Proof. by intros [->| ->]. Qed.

Lemma undecodable_frame_dropped_witness :
  onmessage (Some VNull) subscribed
    = (Ok tt, subscribed, [ConsoleError "Error parsing WebSocket message:"]).
Proof. apply (undecodable_frame_dropped subscribed (Some VNull)). by right. Defined.

(** X16.  A message whose [type] is not a string (a JSON number, string,
    array or boolean, an object without [type], a numeric [type]) is dropped
    without a trace: no subscriber is called and nothing is logged or
    shown. *)
Theorem untyped_message_ignored (w : World) (message : value) :
  message ≠ VUndefined → message ≠ VNull →
  (∀ s, prop message "type" ≠ VStr s) →
  onmessage (Some message) w = (Ok tt, w, []).
Proof.
  intros Hu Hn Ht. apply onmessage_run; [|done].
  rewrite (handleMessage_branches message w Hu Hn).
  rewrite !is_str_false by apply Ht.
  by destruct (prop message "type"); try (by destruct (Ht s)).
Qed.

Lemma untyped_message_ignored_witness :
  onmessage (Some (VObj {[ "data" := VNum 1; "type" := VNum 7 ]})) subscribed
    = (Ok tt, subscribed, []).
Proof.
  apply (untyped_message_ignored subscribed
           (VObj {[ "data" := VNum 1; "type" := VNum 7 ]}));
    discriminate.
Defined.

Lemma reserved_not_sync c : "sync:" +:+ c ∉ reserved.
Proof.
  unfold reserved. rewrite !not_elem_of_cons. repeat split; try discriminate.
  apply not_elem_of_nil.
Qed.

Lemma calls_from_key label arg key w :
  key ∉ reserved →
  Forall (from_open_key w)
    (calls (concat (map (notified label arg)
                      (default [] (subscribers (this w) !! key))))).
Proof.
  intros Hkey. rewrite calls_notified.
  destruct (subscribers (this w) !! key) as [l|] eqn:Hl; [|constructor].
  simpl. apply Forall_forall. intros c Hc.
  apply list_elem_of_fmap in Hc as (h & -> & Hh).
  exists key, l. repeat split; try done. simpl.
  apply list_elem_of_fmap. by exists h.
Qed.

(** X17.  Whatever arrives, a subscriber is called only if it is
    registered under a key that is not a reserved message type: handlers
    registered under [pong], [error], [notification] or [sync] are never
    called by any inbound frame. *)
Theorem reserved_keys_never_called (w : World) (data : option value) :
  outcome (onmessage data) w = Ok tt ∧
  after (onmessage data) w = w ∧
  Forall (from_open_key w) (calls (effects (onmessage data) w)).
Proof.
  destruct data as [message|]; [|by repeat split; try constructor].
  assert (message = VUndefined ∨ message = VNull
          ∨ (message ≠ VUndefined ∧ message ≠ VNull))
    as [->|[->|[Hu Hn]]] by (destruct message; auto);
    [by repeat split; try constructor..|].
  assert (∃ r es, handleMessage message w = (r, w, es) ∧ r ≠ OutOfFuel ∧
                  Forall (from_open_key w) (calls es)) as (r & es & H & Hr & Hes).
  { rewrite (handleMessage_branches message w Hu Hn).
    destruct (is_str (prop message "type") "pong") eqn:Hpong;
      [do 2 eexists; split; [done | split; [done | constructor]]|].
    destruct (is_str (prop message "type") "error") eqn:Herr;
      [do 2 eexists; split; [done | split; [done | constructor]]|].
    destruct (is_str (prop message "type") "notification") eqn:Hnot.
    { rewrite (handleNotification_run message w Hu Hn). cbv zeta.
      destruct (unprintable _);
        [do 2 eexists; split; [done | split; [done | constructor]]|].
      do 2 eexists; split; [done|]. split; [done|].
      destruct (variantMap !! _);
        [|destruct (bool_decide (_ ∈ Object_prototype))];
        by destruct (_ || _); constructor. }
    destruct (is_str (prop message "type") "sync") eqn:Hsync.
    { rewrite (handleSync_run message w Hu Hn). cbv zeta.
      destruct (_ || _); destruct (unprintable _);
        do 2 eexists; (split; [done|]); (split; [done|]);
        try constructor.
      apply calls_from_key, reserved_not_sync. }
    do 2 eexists; split; [done|]. split; [done|].
    destruct (prop message "type") as [| | | |t| |];
      try (rewrite calls_notified; constructor).
    apply calls_from_key. unfold reserved.
    rewrite !not_elem_of_cons. unfold is_str in *.
    repeat split; try (by apply bool_decide_eq_false in Hpong);
      try (by apply bool_decide_eq_false in Herr);
      try (by apply bool_decide_eq_false in Hnot);
      try (by apply bool_decide_eq_false in Hsync).
    apply not_elem_of_nil. }
  destruct (onmessage_any message w r es H Hr) as (es' & Hm & Hcalls).
  unfold outcome, after, effects. rewrite Hm. simpl. by rewrite Hcalls.
Qed.

Lemma notification_level_cases (l : string) :
  l ∈ levels →
  variantMap !! l = Some l ∧
  is_str (VStr l) "error" = bool_decide (l = "error") ∧
  is_str (VStr l) "warning" || is_str (VStr l) "error"
    = bool_decide (l ∈ ["warning"; "error"]).
Proof.
  intros H. unfold levels in H.
  repeat (apply elem_of_cons in H as [->|H]; [by vm_compute|]).
  by apply elem_of_nil in H.
Qed.

(** X18.  A notification whose level is success, info, warning or error is
    shown once, with that level as the variant and [content] (or else
    [title]) as the text; it stays 10 s when the level is error and 5 s
    otherwise, and the sound is played for warning and error only.  No
    subscriber is called and the service is left as it was. *)
Theorem notification_by_level (w : World) (o d : object) (l : string) :
  o !! "type" = Some (VStr "notification") →
  o !! "data" = Some (VObj d) →
  d !! "level" = Some (VStr l) →
  l ∈ levels →
  outcome (onmessage (Some (VObj o))) w = Ok tt ∧
  after (onmessage (Some (VObj o))) w = w ∧
  notices (effects (onmessage (Some (VObj o))) w) =
    [(js_or (prop (VObj d) "content") (prop (VObj d) "title"), l,
      Some (if bool_decide (l = "error") then 10000 else 5000))] ∧
  sounds (effects (onmessage (Some (VObj o))) w) =
    (if bool_decide (l ∈ ["warning"; "error"]) then 1 else 0)%nat ∧
  calls (effects (onmessage (Some (VObj o))) w) = [].
Proof.
  intros Ht Hd Hl Hin.
  assert (prop (VObj o) "type" = VStr "notification") as Hty
    by (unfold prop; by rewrite Ht).
  assert (prop (VObj o) "data" = VObj d) as Hdata
    by (unfold prop; by rewrite Hd).
  assert (prop (VObj d) "level" = VStr l) as Hlevel
    by (unfold prop; by rewrite Hl).
  destruct (notification_level_cases l Hin) as (Hv & He & Hs).
  assert (handleMessage (VObj o) w =
    (Ok tt, w,
     Snackbar (js_or (prop (VObj d) "content") (prop (VObj d) "title")) l
       (Some (if bool_decide (l = "error") then 10000 else 5000))
       (if truthy (prop (VObj d) "action")
        then Some (js_or (prop (prop (VObj d) "action") "label") (VStr "View"))
        else None)
     :: if bool_decide (l ∈ ["warning"; "error"]) then [PlaySound] else []))
    as H.
  { rewrite (handleMessage_branches (VObj o) w) by done. rewrite Hty.
    change (is_str (VStr "notification") "pong") with false.
    change (is_str (VStr "notification") "error") with false.
    change (is_str (VStr "notification") "notification") with true.
    cbv iota.
    rewrite (handleNotification_run (VObj o) w) by done. cbv zeta.
    rewrite Hdata. change (js_or (VObj d) (VObj ∅)) with (VObj d).
    rewrite Hlevel.
    change (unprintable (VStr l)) with false.
    change (printed (env w) (VStr l)) with l. cbv iota.
    rewrite Hs, Hv, He. reflexivity. }
  unfold outcome, after, effects.
  rewrite (onmessage_run (VObj o) w _ _ _ H) by done. simpl.
  repeat split.
  - unfold notices. simpl. by destruct (bool_decide (l ∈ _)).
  - unfold sounds. simpl. by destruct (bool_decide (l ∈ _)).
  - unfold calls. simpl. by destruct (bool_decide (l ∈ _)).
Qed.

Lemma notification_by_level_witness :
  outcome (onmessage (Some (VObj (notification_message "warning")))) subscribed
    = Ok tt ∧
  after (onmessage (Some (VObj (notification_message "warning")))) subscribed
    = subscribed ∧
  notices
    (effects (onmessage (Some (VObj (notification_message "warning"))))
       subscribed) =
    [(js_or
        (prop (VObj {[ "level" := VStr "warning";
                       "title" := VStr "Scan finished";
                       "content" := VStr "No new threats" ]}) "content")
        (prop (VObj {[ "level" := VStr "warning";
                       "title" := VStr "Scan finished";
                       "content" := VStr "No new threats" ]}) "title"),
      "warning",
      Some (if bool_decide ("warning" = "error") then 10000 else 5000))] ∧
  sounds
    (effects (onmessage (Some (VObj (notification_message "warning"))))
       subscribed) =
    (if bool_decide ("warning" ∈ ["warning"; "error"]) then 1 else 0)%nat ∧
  calls
    (effects (onmessage (Some (VObj (notification_message "warning"))))
       subscribed) = [].
Proof.
  apply (notification_by_level subscribed (notification_message "warning")
           {[ "level" := VStr "warning"; "title" := VStr "Scan finished";
              "content" := VStr "No new threats" ]} "warning").
  - reflexivity.
  - reflexivity.
  - reflexivity.
  - by apply (bool_decide_unpack _).
Defined.

(** X19.  A notification without a usable payload ([data] absent, [null]
    or not an object) does not throw: it is shown once as an info
    notification for 5 s, with no text and no action, without sound, and no
    subscriber is called. *)
Theorem notification_without_data (w : World) (o : object) :
  o !! "type" = Some (VStr "notification") →
  (∀ d, o !! "data" ≠ Some (VObj d)) →
  onmessage (Some (VObj o)) w
    = (Ok tt, w, [Snackbar VUndefined "info" (Some 5000) None]).
Proof.
  intros Ht Hd.
  assert (prop (VObj o) "type" = VStr "notification") as Hty
    by (unfold prop; by rewrite Ht).
  apply onmessage_run; [|done].
  rewrite (handleMessage_branches (VObj o) w) by done. rewrite Hty.
  change (is_str (VStr "notification") "pong") with false.
  change (is_str (VStr "notification") "error") with false.
  change (is_str (VStr "notification") "notification") with true.
  cbv iota.
  rewrite (handleNotification_run (VObj o) w) by done. cbv zeta.
  assert (∀ k, prop (js_or (prop (VObj o) "data") (VObj ∅)) k = VUndefined)
    as Hprop.
  { intros k. unfold prop at 2.
    destruct (o !! "data") as [v|] eqn:Hv; simpl; [|done].
    destruct v as [| |b|n|s| d |l]; try done.
    - by destruct b.
    - by destruct n.
    - by destruct s.
    - by destruct (Hd d). }
  rewrite !Hprop. reflexivity.
Qed.

Lemma notification_without_data_witness :
  onmessage (Some (VObj {[ "type" := VStr "notification"; "data" := VNull ]}))
    subscribed
    = (Ok tt, subscribed, [Snackbar VUndefined "info" (Some 5000) None]).
Proof.
  apply (notification_without_data subscribed
           {[ "type" := VStr "notification"; "data" := VNull ]}).
  - reflexivity.
  - intros d. vm_compute. discriminate.
Defined.

(** * The subscription registry, with its arrays *)

Lemma registry_view_lookup r k :
  Registry.view r !! k
    = Registry.entries r !! k ≫= λ ref, Registry.arrays r !! ref.
Proof. unfold Registry.view. apply lookup_omap. Qed.

Lemma registry_coherent_empty : Registry.coherent ∅ Registry.empty [].
Proof.
  split; [|split]; simpl.
  - intros k ref H. by rewrite lookup_empty in H.
  - intros c H. by apply elem_of_nil in H.
  - intros ref [x H]. by rewrite lookup_empty in H.
Qed.

Lemma registry_indexOf_absent callback l :
  Registry.absent callback l → Registry.indexOf callback l = None.
Proof.
  induction 1 as [|h l Hh Hl IH]; [done|]. simpl.
  rewrite bool_decide_eq_false_2 by done. by rewrite IH.
Qed.

Lemma registry_indexOf_last callback l :
  Registry.absent callback l →
  Registry.indexOf callback (l ++ [callback]) = Some (length l).
Proof.
  induction 1 as [|h l Hh Hl IH]; simpl.
  - by rewrite bool_decide_eq_true_2.
  - rewrite bool_decide_eq_false_2 by done. by rewrite IH.
Qed.

Lemma delete_last {A} (l : list A) (x : A) : delete (length l) (l ++ [x]) = l.
Proof. induction l as [|y l IH]; simpl; [done | by rewrite IH]. Qed.

Lemma registry_fresh owner r cs :
  Registry.coherent owner r cs → owner !! Registry.next_ref r = None.
Proof.
  intros (_ & _ & Hlt). destruct (owner !! Registry.next_ref r) eqn:H; [|done].
  assert (Registry.next_ref r < Registry.next_ref r)%nat by (apply Hlt; eauto).
  lia.
Qed.

Lemma registry_entry_array owner r cs k ref :
  Registry.coherent owner r cs →
  Registry.entries r !! k = Some ref →
  ∃ l, Registry.arrays r !! ref = Some l ∧ l ≠ [] ∧
       Registry.view r !! k = Some l.
Proof.
  intros (He & _) Hk. destruct (He k ref Hk) as (_ & l & Hl & Hne).
  exists l. repeat split; try done.
  rewrite registry_view_lookup, Hk. done.
Qed.

Lemma registry_view_none owner r cs k :
  Registry.coherent owner r cs →
  Registry.view r !! k = None → Registry.entries r !! k = None.
Proof.
  intros Hco Hv. destruct (Registry.entries r !! k) as [ref|] eqn:Hk; [|done].
  destruct (registry_entry_array owner r cs k ref Hco Hk) as (l & _ & _ & Hl).
  congruence.
Qed.

(** [subscribe], seen through [view]: the callback goes to the end of the
    list of its event, and the other events are left alone. *)
Lemma registry_subscribe_view owner r cs k h :
  Registry.coherent owner r cs →
  Registry.view (Registry.subscribe k h r).1
    = <[k := default [] (Registry.view r !! k) ++ [h]]> (Registry.view r).
Proof.
  intros Hco. pose proof Hco as (He & Hc & Hlt).
  apply map_eq. intros k'. rewrite registry_view_lookup.
  unfold Registry.subscribe.
  destruct (Registry.entries r !! k) as [ref|] eqn:Hk; simpl.
  - destruct (registry_entry_array owner r cs k ref Hco Hk)
      as (l & Hl & _ & Hv).
    rewrite Hv, Hl. simpl.
    destruct (decide (k = k')) as [<-|Hne].
    + rewrite Hk, lookup_insert_eq. simpl. by rewrite lookup_insert_eq.
    + rewrite lookup_insert_ne by done. rewrite registry_view_lookup.
      destruct (Registry.entries r !! k') as [ref'|] eqn:Hk'; [|done]. simpl.
      rewrite lookup_insert_ne; [done|].
      intros <-. destruct (He k ref Hk) as [Ho _].
      destruct (He k' ref Hk') as [Ho' _]. congruence.
  - assert (Registry.view r !! k = None) as Hv
      by (by rewrite registry_view_lookup, Hk).
    rewrite Hv. simpl. rewrite lookup_insert_eq. simpl.
    destruct (decide (k = k')) as [<-|Hne].
    + rewrite !lookup_insert_eq. simpl. by rewrite lookup_insert_eq.
    + rewrite !lookup_insert_ne by done. rewrite registry_view_lookup.
      destruct (Registry.entries r !! k') as [ref'|] eqn:Hk'; [|done]. simpl.
      destruct (He k' ref' Hk') as [Ho' _].
      assert (ref' < Registry.next_ref r)%nat by (apply Hlt; eauto).
      rewrite !lookup_insert_ne by lia. done.
Qed.

Lemma registry_subscribe_coherent owner r cs k h :
  Registry.coherent owner r cs →
  ∃ owner',
    Registry.coherent owner' (Registry.subscribe k h r).1
      (cs ++ [(Registry.subscribe k h r).2]) ∧
    Registry.entries (Registry.subscribe k h r).1 !! k
      = Some (Registry.c_array (Registry.subscribe k h r).2) ∧
    Registry.c_event (Registry.subscribe k h r).2 = k ∧
    Registry.c_callback (Registry.subscribe k h r).2 = h.
Proof.
  intros Hco. pose proof Hco as (He & Hc & Hlt).
  unfold Registry.subscribe.
  destruct (Registry.entries r !! k) as [ref|] eqn:Hk; simpl.
  - exists owner. split; [|by rewrite Hk].
    split; [|split]; simpl.
    + intros k' ref' Hk'. destruct (He k' ref' Hk') as (Ho & l & Hl & Hne).
      split; [done|]. destruct (decide (ref = ref')) as [<-|Hr].
      * rewrite lookup_insert_eq. eexists. split; [done|].
        by destruct (default [] _).
      * rewrite lookup_insert_ne by done. eauto.
    + intros c Hin. apply elem_of_app in Hin as [Hin|Hin]; [by apply Hc|].
      apply list_elem_of_singleton in Hin as ->. simpl.
      by destruct (He k ref Hk).
    + done.
  - pose proof (registry_fresh owner r cs Hco) as Hfresh.
    exists (<[Registry.next_ref r := k]> owner).
    split; [|by rewrite lookup_insert_eq].
    split; [|split]; simpl.
    + intros k' ref' Hk'. rewrite lookup_insert_eq. simpl.
      destruct (decide (k = k')) as [<-|Hne].
      * rewrite lookup_insert_eq in Hk'. injection Hk' as <-.
        rewrite !lookup_insert_eq. split; [done|]. by eexists.
      * rewrite lookup_insert_ne in Hk' by done.
        destruct (He k' ref' Hk') as (Ho & l & Hl & Hnil).
        assert (ref' < Registry.next_ref r)%nat by (apply Hlt; eauto).
        rewrite !lookup_insert_ne by lia. eauto.
    + intros c Hin. apply elem_of_app in Hin as [Hin|Hin].
      * pose proof (Hc c Hin) as Ho.
        assert (Registry.c_array c < Registry.next_ref r)%nat
          by (apply Hlt; eauto).
        by rewrite lookup_insert_ne by lia.
      * apply list_elem_of_singleton in Hin as ->. simpl.
        apply lookup_insert_eq.
    + intros ref [x Hx]. destruct (decide (Registry.next_ref r = ref)) as [<-|Hr].
      * lia.
      * rewrite lookup_insert_ne in Hx by done.
        assert (ref < Registry.next_ref r)%nat by (apply Hlt; eauto). lia.
Qed.

Lemma registry_unsubscribe_coherent owner r cs c :
  Registry.coherent owner r cs → c ∈ cs →
  Registry.coherent owner (Registry.unsubscribe c r) cs.
Proof.
  intros (He & Hc & Hlt) Hin. pose proof (Hc c Hin) as Ho.
  unfold Registry.unsubscribe.
  set (l' := match Registry.indexOf _ _ with Some i => _ | None => _ end).
  split; [|split]; simpl; [|done..].
  intros k' ref' Hk'. case_bool_decide as Hlen.
  - apply lookup_delete_Some in Hk' as [Hne Hk'].
    destruct (He k' ref' Hk') as (Ho' & l & Hl & Hnil).
    split; [done|]. rewrite lookup_insert_ne; [eauto|].
    intros Heq. rewrite Heq in Ho. congruence.
  - destruct (He k' ref' Hk') as (Ho' & l & Hl & Hnil).
    split; [done|]. destruct (decide (Registry.c_array c = ref')) as [<-|Hr].
    + rewrite lookup_insert_eq. exists l'. split; [done|].
      intros Hnil'. by rewrite Hnil' in Hlen.
    + rewrite lookup_insert_ne by done. eauto.
Qed.

Lemma registry_session_coherent ops : ∀ owner r cs,
  Registry.coherent owner r cs →
  ∃ owner',
    Registry.coherent owner' (Registry.session ops r cs).1
      (Registry.session ops r cs).2.
Proof.
  induction ops as [|[k h|i] ops IH]; intros owner r cs Hco; simpl.
  - eauto.
  - destruct (registry_subscribe_coherent owner r cs k h Hco)
      as (owner' & Hco' & _).
    destruct (Registry.subscribe k h r) as [r' c]. eauto.
  - destruct (cs !! i) as [c|] eqn:Hi; [|eauto].
    apply (IH owner). apply registry_unsubscribe_coherent; [done|].
    by apply list_elem_of_lookup_2 in Hi.
Qed.

(** The closure of the current array of its event, invoked: the first
    occurrence of the callback goes, and the entry goes with the last
    handler. *)
Lemma registry_unsubscribe_view owner r cs c l :
  Registry.coherent owner r cs →
  Registry.entries r !! Registry.c_event c = Some (Registry.c_array c) →
  Registry.arrays r !! Registry.c_array c = Some l →
  Registry.view (Registry.unsubscribe c r) =
    match Registry.indexOf (Registry.c_callback c) l with
    | Some i =>
        if bool_decide (length (delete i l) = 0%nat)
        then delete (Registry.c_event c) (Registry.view r)
        else <[Registry.c_event c := delete i l]> (Registry.view r)
    | None => Registry.view r
    end.
Proof.
  intros Hco Hk Hl. pose proof Hco as (He & Hc & Hlt).
  apply map_eq. intros k'. rewrite registry_view_lookup.
  unfold Registry.unsubscribe. rewrite Hl. simpl.
  assert (∀ l', Registry.entries r !! k' ≫=
                  (λ ref, <[Registry.c_array c := l']> (Registry.arrays r) !! ref)
                = if decide (Registry.c_event c = k') then Some l'
                  else Registry.view r !! k') as Hupd.
  { intros l'. destruct (decide (Registry.c_event c = k')) as [<-|Hne].
    - rewrite Hk. simpl. apply lookup_insert_eq.
    - rewrite registry_view_lookup.
      destruct (Registry.entries r !! k') as [ref'|] eqn:Hk'; [|done]. simpl.
      rewrite lookup_insert_ne; [done|].
      intros Heq. destruct (He _ _ Hk) as [Ho _].
      destruct (He _ _ Hk') as [Ho' _]. rewrite Heq in Ho. congruence. }
  destruct (Registry.indexOf (Registry.c_callback c) l) as [i|] eqn:Hi.
  - case_bool_decide as Hlen.
    + destruct (decide (Registry.c_event c = k')) as [<-|Hne].
      * by rewrite !lookup_delete_eq.
      * rewrite !lookup_delete_ne by done. apply Hupd.
    + rewrite Hupd. destruct (decide (Registry.c_event c = k')) as [<-|Hne].
      * by rewrite lookup_insert_eq.
      * by rewrite lookup_insert_ne.
  - destruct (Hco) as (He' & _). destruct (He' _ _ Hk) as (_ & l0 & Hl0 & Hnil).
    assert (l0 = l) as -> by congruence.
    rewrite bool_decide_eq_false_2 by (by destruct l).
    rewrite Hupd. destruct (decide (Registry.c_event c = k')) as [<-|Hne]; [|done].
    by rewrite registry_view_lookup, Hk.
Qed.

Lemma registry_never_empty owner r cs k l :
  Registry.coherent owner r cs → Registry.view r !! k = Some l → l ≠ [].
Proof.
  intros Hco Hl. rewrite registry_view_lookup in Hl.
  destruct (Registry.entries r !! k) as [ref|] eqn:Hk; [|done].
  destruct (registry_entry_array owner r cs k ref Hco Hk) as (l' & Hl' & Hne & _).
  simpl in Hl. congruence.
Qed.

Lemma registry_reached_coherent ops :
  ∃ owner cs, Registry.coherent owner (Registry.reached ops) cs.
Proof.
  destruct (registry_session_coherent ops ∅ Registry.empty []
              registry_coherent_empty) as [owner H].
  eauto.
Qed.

(** Subscribing a callback that is new for the event, then invoking the
    closure returned, gives back the registry as it was. *)
Lemma registry_undo owner r cs k h :
  Registry.coherent owner r cs →
  Registry.absent h (default [] (Registry.view r !! k)) →
  Registry.view
    (Registry.unsubscribe (Registry.subscribe k h r).2
       (Registry.subscribe k h r).1)
    = Registry.view r.
Proof.
  intros Hco Habs.
  destruct (registry_subscribe_coherent owner r cs k h Hco)
    as (owner' & Hco' & Hk' & Hev & Hcb).
  pose proof (registry_subscribe_view owner r cs k h Hco) as Hview.
  set (old := default [] (Registry.view r !! k)) in *.
  assert (Registry.arrays (Registry.subscribe k h r).1
            !! Registry.c_array (Registry.subscribe k h r).2
          = Some (old ++ [h])) as Harr.
  { pose proof (registry_view_lookup (Registry.subscribe k h r).1 k) as Hl.
    rewrite Hview, lookup_insert_eq, Hk' in Hl. simpl in Hl. done. }
  assert (Registry.entries (Registry.subscribe k h r).1
            !! Registry.c_event (Registry.subscribe k h r).2
          = Some (Registry.c_array (Registry.subscribe k h r).2)) as Hk''
    by (by rewrite Hev).
  rewrite (registry_unsubscribe_view owner' _ _ _ _ Hco' Hk'' Harr).
  rewrite Hcb, (registry_indexOf_last h old Habs), delete_last, Hev, Hview.
  case_bool_decide as Hlen.
  - rewrite delete_insert_eq.
    destruct (Registry.view r !! k) as [l|] eqn:Hl; [|by apply delete_id].
    pose proof (registry_never_empty owner r cs k l Hco Hl) as Hne.
    unfold old in Hlen. simpl in Hlen. by destruct l.
  - rewrite insert_insert_eq.
    destruct (Registry.view r !! k) as [l|] eqn:Hl; [by apply insert_id|].
    unfold old in Hlen. by simpl in Hlen.
Qed.

Lemma registry_indexOf_first callback l l' :
  Registry.absent callback l →
  Registry.indexOf callback (l ++ callback :: l') = Some (length l).
Proof.
  induction 1 as [|h l Hh Hl IH]; simpl.
  - by rewrite bool_decide_eq_true_2.
  - rewrite bool_decide_eq_false_2 by done. by rewrite IH.
Qed.

Lemma delete_middle {A} (l : list A) (x : A) (l' : list A) :
  delete (length l) (l ++ x :: l') = l ++ l'.
Proof. induction l as [|y l IH]; simpl; [done | by rewrite IH]. Qed.

(** Subscribing the same callback a second time, then invoking the closure
    of either subscription, gives back the registry of the first
    subscription, reference for reference. *)
Lemma registry_undo_second owner r cs k h :
  Registry.coherent owner r cs →
  Registry.absent h (default [] (Registry.view r !! k)) →
  let r1 := (Registry.subscribe k h r).1 in
  (Registry.subscribe k h r1).2 = (Registry.subscribe k h r).2 ∧
  Registry.unsubscribe (Registry.subscribe k h r).2
    (Registry.subscribe k h r1).1 = r1.
Proof.
  intros Hco Habs r1. subst r1. rewrite registry_view_lookup in Habs.
  unfold Registry.subscribe.
  destruct (Registry.entries r !! k) as [ref|] eqn:Hk; simpl in *.
  - destruct (registry_entry_array owner r cs k ref Hco Hk) as (l & Hl & _ & _).
    rewrite Hl in Habs |- *. simpl in *.
    rewrite Hk. simpl.
    split; [done|].
    unfold Registry.unsubscribe. simpl.
    rewrite !lookup_insert_eq. simpl.
    rewrite <- (assoc_L (++)). simpl.
    rewrite (registry_indexOf_first h l [h] Habs), delete_middle.
    rewrite bool_decide_eq_false_2 by (rewrite length_app; simpl; lia).
    by rewrite !insert_insert_eq.
  - rewrite lookup_insert_eq. simpl.
    split; [done|].
    unfold Registry.unsubscribe. simpl.
    rewrite !lookup_insert_eq. simpl.
    rewrite (bool_decide_eq_true_2 (hid h = hid h)) by done. simpl.
    by rewrite !insert_insert_eq.
Qed.

(** [subscribe] on an event that has no entry: a new array, at the next
    reference, holding the callback. *)
Lemma registry_subscribe_new r k h :
  Registry.entries r !! k = None →
  Registry.subscribe k h r =
    ({| Registry.entries := <[k := Registry.next_ref r]> (Registry.entries r);
        Registry.arrays := <[Registry.next_ref r := [h]]> (Registry.arrays r);
        Registry.next_ref := S (Registry.next_ref r) |},
     {| Registry.c_event := k; Registry.c_array := Registry.next_ref r;
        Registry.c_callback := h |}).
Proof.
  intros Hk. unfold Registry.subscribe. rewrite Hk. simpl.
  by rewrite lookup_insert_eq, insert_insert_eq.
Qed.

(** A closure whose array is empty, or holds its callback only, deletes the
    entry of its event. *)
Lemma registry_unsubscribe_empties r c l :
  Registry.arrays r !! Registry.c_array c = Some l →
  l = [] ∨ l = [Registry.c_callback c] →
  Registry.unsubscribe c r =
    {| Registry.entries := delete (Registry.c_event c) (Registry.entries r);
       Registry.arrays := <[Registry.c_array c := []]> (Registry.arrays r);
       Registry.next_ref := Registry.next_ref r |}.
Proof.
  intros Hl Hcase. unfold Registry.unsubscribe. rewrite Hl. simpl.
  destruct Hcase as [->| ->]; simpl.
  - done.
  - rewrite (bool_decide_eq_true_2 (hid _ = hid _)) by done. done.
Qed.



(** X21.  However subscriptions and invocations of the returned closures
    are interleaved (stale closures and repeated invocations included), the
    registry never holds an empty list: an event either has no entry or has
    at least one handler. *)
Theorem registry_never_holds_empty_list (ops : list Registry.op) :
  map_Forall (λ _ l, l ≠ []) (Registry.view (Registry.reached ops)).
Proof.
  destruct (registry_reached_coherent ops) as (owner & cs & Hco).
  intros k l Hl. rewrite registry_view_lookup in Hl.
  destruct (Registry.entries (Registry.reached ops) !! k) as [ref|] eqn:Hk;
    [|done].
  destruct (registry_entry_array owner _ cs k ref Hco Hk) as (l' & Hl' & Hne & _).
  simpl in Hl. congruence.
Qed.

(** X22.  Subscribing a callback that is not yet registered for the event
    and then invoking the closure returned gives back the registry as it
    was: the callback is gone, the other handlers keep their order, and the
    entry of the event is removed again if the callback was alone. *)
Theorem unsubscribe_undoes_subscribe (ops : list Registry.op) (k : string)
    (h : handler) :
  Registry.absent h (default [] (Registry.view (Registry.reached ops) !! k)) →
  Registry.view
    (Registry.unsubscribe (Registry.subscribe k h (Registry.reached ops)).2
       (Registry.subscribe k h (Registry.reached ops)).1)
    = Registry.view (Registry.reached ops).
Proof.
  intros Habs.
  destruct (registry_reached_coherent ops) as (owner & cs & Hco).
  by apply (registry_undo owner _ cs).
Qed.

Lemma unsubscribe_undoes_subscribe_witness :
  Registry.view
    (Registry.unsubscribe
       (Registry.subscribe "threat" (steady 7) (Registry.reached two_keys)).2
       (Registry.subscribe "threat" (steady 7) (Registry.reached two_keys)).1)
    = Registry.view (Registry.reached two_keys).
Proof.
  apply (unsubscribe_undoes_subscribe two_keys "threat" (steady 7)).
  vm_compute. repeat constructor; discriminate.
Defined.

(** X23.  A callback subscribed twice to one event is registered twice,
    and the two closures returned are interchangeable: invoking either one
    removes one registration and leaves the callback registered once;
    invoking a closure again removes the other registration and gives back
    the registry as it was before the two subscriptions. *)
Theorem duplicate_subscription (ops : list Registry.op) (k : string)
    (h : handler) :
  let r := Registry.reached ops in
  let old := default [] (Registry.view r !! k) in
  let r1 := (Registry.subscribe k h r).1 in
  let c1 := (Registry.subscribe k h r).2 in
  let r2 := (Registry.subscribe k h r1).1 in
  let c2 := (Registry.subscribe k h r1).2 in
  Registry.absent h old →
  Registry.view r2 !! k = Some (old ++ [h; h]) ∧
  Registry.view (Registry.unsubscribe c1 r2) !! k = Some (old ++ [h]) ∧
  Registry.view (Registry.unsubscribe c2 r2) !! k = Some (old ++ [h]) ∧
  Registry.view (Registry.unsubscribe c2 (Registry.unsubscribe c1 r2))
    = Registry.view r ∧
  Registry.view (Registry.unsubscribe c1 (Registry.unsubscribe c1 r2))
    = Registry.view r.
Proof.
  intros r old r1 c1 r2 c2 Habs.
  destruct (registry_reached_coherent ops) as (owner & cs & Hco).
  fold r in Hco.
  destruct (registry_undo_second owner r cs k h Hco Habs) as [Hc Hr].
  fold r1 in Hc, Hr. fold c1 in Hc, Hr. fold c2 in Hc. fold r2 in Hr.
  destruct (registry_subscribe_coherent owner r cs k h Hco)
    as (owner' & Hco' & _).
  fold r1 in Hco'.
  pose proof (registry_subscribe_view owner r cs k h Hco) as Hv1.
  pose proof (registry_subscribe_view owner' r1 _ k h Hco') as Hv2.
  fold r1 in Hv1, Hv2. fold r2 in Hv2. fold old in Hv1.
  assert (Registry.view r1 !! k = Some (old ++ [h])) as Hk1
    by (by rewrite Hv1, lookup_insert_eq).
  rewrite Hc, Hr.
  split; [|split; [|split; [|split]]]; try done.
  - rewrite Hv2, lookup_insert_eq, Hk1. simpl.
    by rewrite <- (assoc_L (++)).
  - by apply (registry_undo owner r cs).
  - by apply (registry_undo owner r cs).
Qed.

Lemma duplicate_subscription_witness :
  let r := Registry.reached two_keys in
  let old := default [] (Registry.view r !! "alert") in
  let r1 := (Registry.subscribe "alert" (steady 7) r).1 in
  let c1 := (Registry.subscribe "alert" (steady 7) r).2 in
  let r2 := (Registry.subscribe "alert" (steady 7) r1).1 in
  let c2 := (Registry.subscribe "alert" (steady 7) r1).2 in
  Registry.view r2 !! "alert" = Some (old ++ [steady 7; steady 7]) ∧
  Registry.view (Registry.unsubscribe c1 r2) !! "alert"
    = Some (old ++ [steady 7]) ∧
  Registry.view (Registry.unsubscribe c2 r2) !! "alert"
    = Some (old ++ [steady 7]) ∧
  Registry.view (Registry.unsubscribe c2 (Registry.unsubscribe c1 r2))
    = Registry.view r ∧
  Registry.view (Registry.unsubscribe c1 (Registry.unsubscribe c1 r2))
    = Registry.view r.
Proof.
  apply (duplicate_subscription two_keys "alert" (steady 7)).
  vm_compute. repeat constructor; discriminate.
Defined.

(** X24.  A closure outlives its array.  When the only handler of an event
    unsubscribes, the event's entry is deleted; a later subscription to the
    same event gets a new array; invoking the first closure once more then
    finds its own (empty) array and deletes the event's entry again, so the
    later subscriber is dropped although its own closure was never
    invoked.  The other events are not affected. *)
Theorem stale_closure_drops_later_subscriber (ops : list Registry.op)
    (k : string) (h1 h2 : handler) :
  let r := Registry.reached ops in
  let r1 := (Registry.subscribe k h1 r).1 in
  let c1 := (Registry.subscribe k h1 r).2 in
  let r2 := Registry.unsubscribe c1 r1 in
  let r3 := (Registry.subscribe k h2 r2).1 in
  let r4 := Registry.unsubscribe c1 r3 in
  Registry.view r !! k = None →
  Registry.view r3 !! k = Some [h2] ∧
  Registry.view r4 !! k = None ∧
  Registry.view r4 = Registry.view r.
Proof.
  intros r r1 c1 r2 r3 r4 Hnone.
  destruct (registry_reached_coherent ops) as (owner & cs & Hco).
  fold r in Hco.
  pose proof (registry_view_none owner r cs k Hco Hnone) as Hk.
  pose proof Hco as (He & _ & Hlt).
  assert (∀ k' ref, Registry.entries r !! k' = Some ref →
                    (ref < Registry.next_ref r)%nat) as Hold.
  { intros k' ref H. apply Hlt. destruct (He k' ref H) as [-> _]. eauto. }
  assert (r1 = {| Registry.entries :=
                    <[k := Registry.next_ref r]> (Registry.entries r);
                  Registry.arrays :=
                    <[Registry.next_ref r := [h1]]> (Registry.arrays r);
                  Registry.next_ref := S (Registry.next_ref r) |} ∧
          c1 = {| Registry.c_event := k;
                  Registry.c_array := Registry.next_ref r;
                  Registry.c_callback := h1 |}) as [Hr1 Hc1]
    by (unfold r1, c1; by rewrite (registry_subscribe_new r k h1 Hk)).
  clearbody r1 c1. subst r1 c1.
  assert (Registry.entries r2 !! k = None ∧
          Registry.arrays r2 !! Registry.next_ref r = Some [] ∧
          Registry.next_ref r2 = S (Registry.next_ref r) ∧
          (∀ ref, (ref < Registry.next_ref r)%nat →
                  Registry.arrays r2 !! ref = Registry.arrays r !! ref) ∧
          ∀ k', k' ≠ k →
                Registry.entries r2 !! k' = Registry.entries r !! k')
    as (Hk2 & Ha2 & Hn2 & Hold2 & Hoth2).
  { unfold r2.
    rewrite (registry_unsubscribe_empties _ _ [h1]);
      [|by apply lookup_insert_eq | by right].
    simpl. split; [by apply lookup_delete_eq|].
    split; [by apply lookup_insert_eq|]. split; [done|]. split.
    - intros ref Href. by rewrite !lookup_insert_ne by lia.
    - intros k' Hne. by rewrite lookup_delete_ne, lookup_insert_ne. }
  clearbody r2.
  assert (r3 = {| Registry.entries :=
                    <[k := Registry.next_ref r2]> (Registry.entries r2);
                  Registry.arrays :=
                    <[Registry.next_ref r2 := [h2]]> (Registry.arrays r2);
                  Registry.next_ref := S (Registry.next_ref r2) |}) as Hr3
    by (unfold r3; by rewrite (registry_subscribe_new r2 k h2 Hk2)).
  clearbody r3. subst r3.
  assert (Registry.view r4 = Registry.view r) as Hv4.
  { apply map_eq. intros k'. rewrite !registry_view_lookup. unfold r4.
    rewrite (registry_unsubscribe_empties _ _ []);
      [|simpl; by rewrite Hn2, lookup_insert_ne by lia | by left].
    simpl.
    destruct (decide (k' = k)) as [->|Hne].
    - by rewrite lookup_delete_eq, Hk.
    - rewrite lookup_delete_ne, lookup_insert_ne, Hoth2 by done.
      destruct (Registry.entries r !! k') as [ref|] eqn:Hk'; [|done]. simpl.
      pose proof (Hold k' ref Hk').
      rewrite !lookup_insert_ne by lia. by apply Hold2. }
  split; [|split; [by rewrite Hv4 | done]].
  rewrite registry_view_lookup. simpl.
  rewrite lookup_insert_eq. simpl. by rewrite lookup_insert_eq.
Qed.

Lemma stale_closure_drops_later_subscriber_witness :
  let r := Registry.reached two_keys in
  let r1 := (Registry.subscribe "incident" (steady 7) r).1 in
  let c1 := (Registry.subscribe "incident" (steady 7) r).2 in
  let r2 := Registry.unsubscribe c1 r1 in
  let r3 := (Registry.subscribe "incident" (steady 8) r2).1 in
  let r4 := Registry.unsubscribe c1 r3 in
  Registry.view r3 !! "incident" = Some [steady 8] ∧
  Registry.view r4 !! "incident" = None ∧
  Registry.view r4 = Registry.view r.
Proof.
  apply (stale_closure_drops_later_subscriber two_keys "incident"
           (steady 7) (steady 8)).
  vm_compute. reflexivity.
Defined.


(** * Configuration and the provider *)


Lemma append_assoc (s t u : string) : (s +:+ t) +:+ u = s +:+ (t +:+ u).
Proof.
  induction s as [|c s IH]; [done|].
  change (String c ((s +:+ t) +:+ u) = String c (s +:+ t +:+ u)).
  by f_equal.
Qed.

Lemma js_or_falsy a b : truthy a = false → js_or a b = b.
Proof. unfold js_or. by intros ->. Qed.



Lemma WS_ENV_falsy src :
  Forall (λ name, truthy (Config.getEnv src name) = false) Config.WS_names →
  truthy (Config.WS_ENV src) = false.
Proof.
  unfold Config.WS_names. intros H.
  apply Forall_cons in H as [H1 H]. apply Forall_cons in H as [H2 H].
  apply Forall_cons in H as [H3 H]. apply Forall_cons in H as [H4 _].
  unfold Config.WS_ENV.
  by rewrite (js_or_falsy _ _ H1), (js_or_falsy _ _ H2), (js_or_falsy _ _ H3).
Qed.



(** X26.  When none of the four WebSocket variables has a truthy value, the
    updates URL is derived from the API URL: host of the API URL, scheme
    [wss://] exactly when the API URL's protocol is [https:], path
    [/ws/updates]; and [ws://localhost:8000/ws/updates] when the API URL
    cannot be parsed. *)
Theorem ws_url_derived_from_api (src : Config.sources)
    (new_URL : string → option Config.parsed) :
  Forall (λ name, truthy (Config.getEnv src name) = false) Config.WS_names →
  Config.WS_UPDATES_URL src new_URL =
    match new_URL (ToString (Config.API_BASE_URL src)) with
    | Some u =>
        (if bool_decide (Config.protocol u = "https:")
         then "wss://" else "ws://") +:+ Config.host u +:+ "/ws/updates"
    | None => "ws://localhost:8000/ws/updates"
    end.
Proof.
  intros H. unfold Config.WS_UPDATES_URL, Config.WS_BASE_URL.
  rewrite (js_or_falsy _ _ (WS_ENV_falsy src H)). simpl ToString.
  unfold Config.deriveWsBase.
  destruct (new_URL _) as [u|]; [|reflexivity].
  by rewrite !append_assoc.
Qed.

Lemma ws_url_derived_from_api_witness :
  Config.WS_UPDATES_URL production parse_https =
    match parse_https (ToString (Config.API_BASE_URL production)) with
    | Some u =>
        (if bool_decide (Config.protocol u = "https:")
         then "wss://" else "ws://") +:+ Config.host u +:+ "/ws/updates"
    | None => "ws://localhost:8000/ws/updates"
    end.
Proof.
  apply (ws_url_derived_from_api production parse_https).
  vm_compute. repeat constructor.
Defined.



Lemma payload_strip user ts d :
  Provider.payload user ts (Some (delete "userId" (delete "timestamp" d)))
    = Provider.payload user ts (Some d).
Proof.
  unfold Provider.payload, default, id. apply map_eq. intros k.
  destruct (decide (k = "timestamp")) as [->|Hts];
    [by rewrite !lookup_insert_eq|].
  rewrite !(lookup_insert_ne _ "timestamp") by done.
  destruct (decide (k = "userId")) as [->|Hid];
    [by rewrite !lookup_insert_eq|].
  rewrite !(lookup_insert_ne _ "userId") by done.
  by rewrite !lookup_delete_ne.
Qed.

(** X28.  The provider's [send] stamps the data itself: a [userId] or a
    [timestamp] supplied by the caller has no influence on what is sent or
    queued, the message carries the provider's user and clock reading.  A
    falsy message type is refused before the service is involved: the
    result is [false], one line goes to the console, and nothing is sent
    or queued. *)
Theorem provider_send_stamps (user type : value) (d : object) (w : World) :
  Provider.send user type (Some d) w
    = Provider.send user type
        (Some (delete "userId" (delete "timestamp" d))) w ∧
  (∀ ts data,
     Provider.payload user ts data !! "userId" = Some (Provider.user_id user) ∧
     Provider.payload user ts data !! "timestamp" = Some (VStr ts)) ∧
  (truthy type = false →
   ∀ data, Provider.send user type data w
           = (Ok false, w, [ConsoleError "Message type is required"])).
Proof.
  split; [|split].
  - unfold Provider.send. destruct (truthy type).
    + change (negb true) with false. cbv iota.
      unfold mbind, M_bind, bind.
      destruct (Date_toISOString w) as [[[ts| |] w1] e1];
        [|reflexivity|reflexivity].
      rewrite payload_strip. reflexivity.
    + change (negb false) with true. cbv iota. reflexivity.
  - intros ts data. unfold Provider.payload. split.
    + rewrite lookup_insert_ne by discriminate. apply lookup_insert_eq.
    + apply lookup_insert_eq.
  - intros Hf data. unfold Provider.send. rewrite Hf.
    change (negb false) with true. cbv iota. reflexivity.
Qed.

Lemma provider_send_stamps_witness :
  Provider.send VNull (VStr EmptyString) None (boot browser)
    = (Ok false, boot browser, [ConsoleError "Message type is required"]).
Proof.
  destruct (provider_send_stamps VNull (VStr EmptyString) ∅ (boot browser))
    as (_ & _ & H).
  apply H. reflexivity.
Defined.
